(** * expr-eval-secure: the safe evaluator wrappers and the expression core

    The repository ships two versions of a hardened [evaluate] entry point
    (src/lib/safe-evaluator.js and src/unnamed/part_000) around the
    expression parser of dist/bundle.  The wrappers are embedded from their
    source; the parser they drive is not among the source files and is
    modelled from the specification (module [Core]).  Embedded from their
    source as well: the caller of the migration instructions in
    src/unnamed/part_001 (module [Migration]) and the three rollup
    configurations (module [Rollup]).  Module [Stateful] holds the two
    wrappers once more, over a parser that keeps state between its
    operations. *)

From Stdlib Require Import QArith ZArith NArith List Bool Ascii String DecimalString Lia.
From stdpp Require Import base option strings gmap.
Import ListNotations.

Set Warnings "-register-all".

Open Scope string_scope.
Open Scope list_scope.

(** ** JavaScript values *)

(** The values a caller can hand to [evaluate].  Numbers are exact
    rationals; a host callable is an opaque identity; a plain object
    carries its own enumerable data properties in enumeration order.
    [VObjectWith hidden props] is an object that owns, besides the
    enumerable data properties [props], the data properties [hidden] that
    are not enumerable, as [Object.defineProperty(o, k, { value: v })]
    creates them.  Every property is a data property: an object whose
    property is an accessor (a getter run at each read) has no
    counterpart here. *)
Inductive value : Type :=
| VUndefined
| VNull
| VBool (b : bool)
| VNum (q : Q)
| VStr (s : string)
| VSymbol (id : nat)
| VBigInt (z : Z)
| VFunction (id : nat)
| VObject (props : list (string * value))
| VArray (elems : list value)
| VObjectWith (hidden props : list (string * value)).

Inductive outcome : Type :=
| Return (v : value)
| Throw (message : string).

Definition typeof (v : value) : string :=
  match v with
  | VUndefined => "undefined"
  | VNull => "object"
  | VBool _ => "boolean"
  | VNum _ => "number"
  | VStr _ => "string"
  | VSymbol _ => "symbol"
  | VBigInt _ => "bigint"
  | VFunction _ => "function"
  | VObject _ => "object"
  | VArray _ => "object"
  | VObjectWith _ _ => "object"
  end.

Definition is_null (v : value) : bool :=
  match v with VNull => true | _ => false end.

Definition is_undefined (v : value) : bool :=
  match v with VUndefined => true | _ => false end.

Definition isArray (v : value) : bool :=
  match v with VArray _ => true | _ => false end.

(** JavaScript truthiness, as used by [!variables]. *)
Definition truthy (v : value) : bool :=
  match v with
  | VUndefined | VNull => false
  | VBool b => b
  | VNum q => negb (Qeq_bool q 0)
  | VStr s => negb (String.eqb s EmptyString)
  | VBigInt z => negb (Z.eqb z 0)
  | VSymbol _ | VFunction _ | VObject _ | VArray _ | VObjectWith _ _ => true
  end.

Definition string_of_value (v : value) : string :=
  match v with VStr s => s | _ => EmptyString end.

Definition string_of_nat (n : nat) : string :=
  NilEmpty.string_of_uint (Nat.to_uint n).

Fixpoint assoc_lookup {A : Type} (k : string) (l : list (string * A)) : option A :=
  match l with
  | [] => None
  | (k', a) :: rest => if String.eqb k k' then Some a else assoc_lookup k rest
  end.

Fixpoint index_of_key (k : string) (i n : nat) : option nat :=
  match n with
  | O => None
  | S n' => if String.eqb k (string_of_nat i) then Some i else index_of_key k (S i) n'
  end.

(** The keys a [for (key in o)] loop visits.  Plain objects and arrays
    inherit no enumerable property, so these are the own enumerable keys:
    the loop passes over a property that is not enumerable, and over the
    [length] of an array. *)
Definition for_in_keys (o : value) : list string :=
  match o with
  | VObject props => map fst props
  | VArray elems => map string_of_nat (seq 0 (length elems))
  | VObjectWith _ props => map fst props
  | _ => []
  end.

(** [Object.prototype.hasOwnProperty.call(o, k)]: true of every own
    property, enumerable or not. *)
Definition hasOwnProperty (o : value) (k : string) : bool :=
  match o with
  | VObject props => bool_decide (is_Some (assoc_lookup k props))
  | VArray elems =>
      String.eqb k "length" || bool_decide (is_Some (index_of_key k 0 (length elems)))
  | VObjectWith hidden props =>
      bool_decide (is_Some (assoc_lookup k props))
      || bool_decide (is_Some (assoc_lookup k hidden))
  | _ => false
  end.

(** [o[k]] for an own data property; a missing property reads as
    undefined.  A read runs no code of the caller and cannot throw, and
    two reads of one property give one value: that is so of data
    properties, the only ones [value] has. *)
Definition get (o : value) (k : string) : value :=
  match o with
  | VObject props => default VUndefined (assoc_lookup k props)
  | VArray elems =>
      if String.eqb k "length" then VNum (inject_Z (Z.of_nat (length elems)))
      else match index_of_key k 0 (length elems) with
           | Some i => nth i elems VUndefined
           | None => VUndefined
           end
  | VObjectWith hidden props =>
      match assoc_lookup k props with
      | Some v => v
      | None => default VUndefined (assoc_lookup k hidden)
      end
  | _ => VUndefined
  end.

Definition dquote : string := String (ascii_of_nat 34) EmptyString.

(** ** Errors and results of the expression core *)

(** Modelled from the spec: the error taxonomy of the core (section 7);
    the parser that raises these errors is not among the source files. *)
Inductive error : Type :=
| LexError (offset : nat) (c : ascii)
| ParseError (msg : string)
| UnresolvedVariableError (name : string)
| EvaluationError (msg : string)
| ResourceLimitError (msg : string).

(** The [message] property of the thrown error object. *)
Definition message (e : error) : string :=
  match e with
  | LexError off c =>
      "unexpected character '" +:+ String c EmptyString +:+ "' at offset " +:+ string_of_nat off
  | ParseError msg => msg
  | UnresolvedVariableError x => "undefined variable: " +:+ x
  | EvaluationError msg => msg
  | ResourceLimitError msg => msg
  end.

Inductive res (A : Type) : Type :=
| Ok (a : A)
| Err (e : error).
Arguments Ok {A} a.
Arguments Err {A} e.

Definition res_bind {A B : Type} (r : res A) (k : A -> res B) : res B :=
  match r with
  | Ok a => k a
  | Err e => Err e
  end.

Notation "'let*' x ':=' r 'in' k" := (res_bind r (fun x => k))
  (at level 10, x name, r at level 100, k at level 200).
Notation "'let*' ' p ':=' r 'in' k" :=
  (res_bind r (fun x => match x with p => k end))
  (at level 10, p pattern, r at level 100, k at level 200).

(** ** Registries (specification, section 3) *)

(** Modelled from the spec: the registry entries, the configuration and
    the parser instance of dist/bundle, which is not among the source
    files.  An operator entry carries its symbol, precedence level,
    associativity, arity and implementation; a function entry its name,
    arity range and implementation. *)
Inductive associativity : Type := LeftAssoc | RightAssoc.
Inductive op_arity : Type := Unary | Binary.

Record operator_entry : Type := mkOperator {
  op_symbol : string;
  op_precedence : nat;
  op_associativity : associativity;
  op_kind : op_arity;
  op_implementation : list value -> res value
}.

Record function_entry : Type := mkFunction {
  fn_name : string;
  minArity : nat;
  maxArity : nat;
  fn_implementation : list value -> res value
}.

Record options : Type := mkOptions {
  enableMembership : bool;
  enableLocalFunctionDefinition : bool;
  enableAssignment : bool;
  maxRecursionDepth : nat;
  maxInstructionCount : nat
}.

(** Modelled from the spec: a parser instance, the registries it owns
    (unary and binary operators, functions, constants) and its
    configuration. *)
Record Parser : Type := mkParser {
  unaryOps : gmap string operator_entry;
  binaryOps : gmap string operator_entry;
  functions : gmap string function_entry;
  consts : gmap string value;
  parser_options : options
}.

Definition set_functions (fs : gmap string function_entry) (p : Parser) : Parser :=
  mkParser (unaryOps p) (binaryOps p) fs (consts p) (parser_options p).

Definition set_unaryOps (us : gmap string operator_entry) (p : Parser) : Parser :=
  mkParser us (binaryOps p) (functions p) (consts p) (parser_options p).

Definition set_consts (cs : gmap string value) (p : Parser) : Parser :=
  mkParser (unaryOps p) (binaryOps p) (functions p) cs (parser_options p).

(** The object literal [{ k1: m[k1], k2: m[k2], ... }] over the listed
    keys; a key the table does not hold stays absent. *)
Definition pick {A : Type} (keys : list string) (m : gmap string A) : gmap string A :=
  list_to_map (omap (fun k => (fun a => (k, a)) <$> m !! k) keys).

(** ** What the wrappers use of dist/bundle *)

(** The surface of the bundled parser the safe evaluators call:
    [new Parser()], [parser.parse], [expr.symbols], [expr.variables] and
    [expr.evaluate].  A failing call carries the message of the error it
    throws; [expr_evaluate] also returns the bindings object as the call
    leaves it.  [new Parser()] and the reads of [parser.unaryOps] are
    taken to return: the constructor of the bundle is not among the
    source files, and a constructor that throws would end either
    [evaluate] before its first try block. *)
Record ParserApi : Type := mkApi {
  Expression : Type;
  new_Parser : Parser;
  parser_parse : Parser -> string -> Expression + string;
  expr_symbols : Expression -> list string + string;
  expr_variables : Expression -> list string + string;
  expr_evaluate : Expression -> value -> (value + string) * value
}.

(** ** src/lib/safe-evaluator.js *)

Module SafeEvaluatorLib.
Section Wrapper.
Variable P : ParserApi.

(** The three checks of the validation loop body on one own property. *)
Definition check_value (key : string) (val : value) : option string :=
  let type := typeof val in
  if negb (String.eqb type "number") && negb (String.eqb type "boolean")
     && negb (String.eqb type "string") && negb (is_null val)
     && negb (is_undefined val)
  then Some ("Variable '" +:+ key
             +:+ "' must be a primitive value (number, boolean, string, or null). Got: "
             +:+ type)
  else if String.eqb type "function"
  then Some ("Variable '" +:+ key
             +:+ "' cannot be a function. Function calls are not allowed for security reasons.")
  else if String.eqb type "object" && negb (is_null val)
  then Some ("Variable '" +:+ key
             +:+ "' cannot be an object. Only primitive values are allowed.")
  else None.

(** [for (const key in variables) { if (hasOwnProperty(...)) ... }]:
    the message of the first throw, if any. *)
Fixpoint validate_loop (variables : value) (keys : list string) : option string :=
  match keys with
  | [] => None
  | key :: rest =>
      if hasOwnProperty variables key
      then match check_value key (get variables key) with
           | Some msg => Some msg
           | None => validate_loop variables rest
           end
      else validate_loop variables rest
  end.

(** [for (const symbol of symbols) { if (!hasOwnProperty(...)) throw }]. *)
Fixpoint check_symbols (variables : value) (syms : list string) : option string :=
  match syms with
  | [] => None
  | symbol :: rest =>
      if negb (hasOwnProperty variables symbol)
      then Some ("Unknown identifier '" +:+ symbol
                 +:+ "' in expression. All identifiers must be provided in variables.")
      else check_symbols variables rest
  end.

(** The parser instance the wrapper builds before parsing. *)
Definition restricted_parser : Parser :=
  let parser := new_Parser P in
  let parser := set_functions ∅ parser in
  let parser := set_unaryOps (pick ["-"; "+"; "not"] (unaryOps parser)) parser in
  set_consts ∅ parser.

(** [evaluate(expression, variables)]: the outcome, and the caller's
    variables object as the call leaves it. *)
Definition evaluate (expression variables : value) : outcome * value :=
  if negb (String.eqb (typeof expression) "string")
  then (Throw "Expression must be a string", variables)
  else if negb (truthy variables) || negb (String.eqb (typeof variables) "object")
          || isArray variables
  then (Throw "Variables must be an object", variables)
  else
    match validate_loop variables (for_in_keys variables) with
    | Some msg => (Throw msg, variables)
    | None =>
        match parser_parse P restricted_parser (string_of_value expression) with
        | inr msg => (Throw ("Failed to parse expression: " +:+ msg), variables)
        | inl expr =>
            match expr_symbols P expr with
            | inr msg => (Throw ("Failed to analyze expression: " +:+ msg), variables)
            | inl syms =>
                match check_symbols variables syms with
                | Some msg => (Throw msg, variables)
                | None =>
                    match expr_evaluate P expr variables with
                    | (inl result, after) => (Return result, after)
                    | (inr msg, after) =>
                        (Throw ("Failed to evaluate expression: " +:+ msg), after)
                    end
                end
            end
        end
    end.
End Wrapper.
End SafeEvaluatorLib.

(** ** src/unnamed/part_000 *)

Module SafeEvaluator.
Section Wrapper.
Variable P : ParserApi.

(** [validatePrimitive(value, name)]: [None] when it returns, the
    message when it throws. *)
Definition validatePrimitive (val : value) (name : string) : option string :=
  if is_null val then None
  else
    let type := typeof val in
    if String.eqb type "function"
    then Some ("Variable " +:+ dquote +:+ name +:+ dquote
               +:+ " is a function. Only primitive values are allowed.")
    else if String.eqb type "object"
    then Some ("Variable " +:+ dquote +:+ name +:+ dquote
               +:+ " is an object. Only primitive values (number, string, boolean, null) are allowed.")
    else if negb (String.eqb type "number") && negb (String.eqb type "string")
            && negb (String.eqb type "boolean") && negb (String.eqb type "undefined")
    then Some ("Variable " +:+ dquote +:+ name +:+ dquote
               +:+ " has unsupported type " +:+ dquote +:+ type +:+ dquote
               +:+ ". Only primitive values are allowed.")
    else None.

Fixpoint validate_keys (variables : value) (keys : list string) : option string :=
  match keys with
  | [] => None
  | key :: rest =>
      if hasOwnProperty variables key
      then match validatePrimitive (get variables key) key with
           | Some msg => Some msg
           | None => validate_keys variables rest
           end
      else validate_keys variables rest
  end.

Definition validateVariables (variables : value) : option string :=
  validate_keys variables (for_in_keys variables).

Fixpoint validateIdentifiers (identifiers : list string) (variables : value)
  : option string :=
  match identifiers with
  | [] => None
  | identifier :: rest =>
      if negb (hasOwnProperty variables identifier)
      then Some ("Unknown identifier " +:+ dquote +:+ identifier +:+ dquote
                 +:+ ". All identifiers must be provided in variables.")
      else validateIdentifiers rest variables
  end.

Definition restricted_parser : Parser :=
  let parser := new_Parser P in
  let parser := set_functions ∅ parser in
  let allowedUnaryOps := pick ["-"; "+"] (unaryOps parser) in
  set_unaryOps allowedUnaryOps parser.

(** The steps of [evaluate] once [variables] names an object. *)
Definition evaluate_with (expression variables : value) : outcome * value :=
  match validateVariables variables with
  | Some msg => (Throw msg, variables)
  | None =>
      match parser_parse P restricted_parser (string_of_value expression) with
      | inr msg => (Throw ("Failed to parse expression: " +:+ msg), variables)
      | inl expr =>
          match expr_variables P expr with
          | inr msg => (Throw msg, variables)
          | inl identifiers =>
              match validateIdentifiers identifiers variables with
              | Some msg => (Throw msg, variables)
              | None =>
                  match expr_evaluate P expr variables with
                  | (inl result, after) => (Return result, after)
                  | (inr msg, after) =>
                      (Throw ("Failed to evaluate expression: " +:+ msg), after)
                  end
              end
          end
      end
  end.

(** [evaluate(expression, variables)]: the outcome, and the caller's
    variables argument as the call leaves it.  An omitted argument is
    replaced by a fresh empty object the caller never sees. *)
Definition evaluate (expression variables : value) : outcome * value :=
  if negb (String.eqb (typeof expression) "string")
  then (Throw "Expression must be a string", variables)
  else if is_undefined variables
  then (fst (evaluate_with expression (VObject [])), variables)
  else if is_null variables || negb (String.eqb (typeof variables) "object")
  then (Throw "Variables must be an object", variables)
  else evaluate_with expression variables.
End Wrapper.
End SafeEvaluator.

(** ** The expression core, modelled from the specification *)

Module Core.

(** *** Tokenizer (specification, section 4.1) *)

(** Modelled from the spec: the tokenizer of dist/bundle is not among the
    source files.  A token is its kind with the literal value or text, and
    the source offset it starts at. *)
Inductive token_kind : Type :=
| TNumber (q : Q)
| TString (s : string)
| TIdentifier (s : string)
| TOperator (s : string)
| TPunctuation (s : string)
| TEnd.

Record Token : Type := mkToken { kind : token_kind; offset : nat }.

Definition char_in (lo hi : nat) (c : ascii) : bool :=
  let n := nat_of_ascii c in (lo <=? n)%nat && (n <=? hi)%nat.

Definition is_digit (c : ascii) : bool := char_in 48 57 c.
Definition digit_of (c : ascii) : N := N.of_nat (nat_of_ascii c - 48).
Definition is_space (c : ascii) : bool :=
  let n := nat_of_ascii c in
  (n =? 32)%nat || (n =? 9)%nat || (n =? 10)%nat || (n =? 13)%nat.
Definition is_ident_start (c : ascii) : bool :=
  char_in 65 90 c || char_in 97 122 c || Ascii.eqb c "_".
Definition is_ident_char (c : ascii) : bool := is_ident_start c || is_digit c.
Definition is_quote (c : ascii) : bool :=
  Ascii.eqb c "'" || (nat_of_ascii c =? 34)%nat.
Definition is_exponent_mark (c : ascii) : bool := Ascii.eqb c "e" || Ascii.eqb c "E".
Definition is_punctuation (c : ascii) : bool :=
  existsb (Ascii.eqb c) ["("; ")"; "["; "]"; ","; "."]%char.
Definition is_operator_char (c : ascii) : bool :=
  existsb (Ascii.eqb c)
    ["+"; "-"; "*"; "/"; "%"; "^"; "="; "!"; "<"; ">"; "&"; "|"; "?"; ":"; ";"]%char.

(** The two-character operators, matched before their one-character
    prefixes (longest match first). *)
Definition is_operator_pair (c1 c2 : ascii) : bool :=
  (Ascii.eqb c2 "=" && existsb (Ascii.eqb c1) ["="; "!"; "<"; ">"]%char)
  || (Ascii.eqb c1 "&" && Ascii.eqb c2 "&")
  || (Ascii.eqb c1 "|" && Ascii.eqb c2 "|").

(** Characters that only start a two-character operator. *)
Definition needs_pair (c : ascii) : bool :=
  existsb (Ascii.eqb c) ["!"; "&"; "|"]%char.

Definition backslash : ascii := ascii_of_nat 92.

Definition unescape (c : ascii) : option ascii :=
  if Ascii.eqb c backslash then Some c
  else if is_quote c then Some c
  else if Ascii.eqb c "/" then Some c
  else if Ascii.eqb c "n" then Some (ascii_of_nat 10)
  else if Ascii.eqb c "t" then Some (ascii_of_nat 9)
  else if Ascii.eqb c "r" then Some (ascii_of_nat 13)
  else if Ascii.eqb c "b" then Some (ascii_of_nat 8)
  else if Ascii.eqb c "f" then Some (ascii_of_nat 12)
  else None.

(** The value of the literal [mantissa * 10^(exponent - scale)], where
    [scale] counts the digits after the decimal point. *)
Definition number_value (mantissa : N) (scale : nat) (negative : bool) (exponent : N) : Q :=
  let e := ((if negative then - Z.of_N exponent else Z.of_N exponent)
            - Z.of_nat scale)%Z in
  Qred (inject_Z (Z.of_N mantissa) * Qpower (inject_Z 10) e).

Inductive lex_state : Type :=
| LStart
| LIdent (start : nat) (acc : list ascii)
| LInt (start : nat) (mantissa : N)
| LDot (start : nat) (mantissa : N)
| LFrac (start : nat) (mantissa : N) (scale : nat)
| LExpMark (start : nat) (mantissa : N) (scale : nat)
| LExpSign (start : nat) (mantissa : N) (scale : nat) (negative : bool)
| LExp (start : nat) (mantissa : N) (scale : nat) (negative : bool) (exponent : N)
| LStr (start : nat) (quote : ascii) (acc : list ascii)
| LEsc (start : nat) (quote : ascii) (acc : list ascii)
| LOp (start : nat) (c : ascii).

Definition text_of (acc : list ascii) : string := string_of_list_ascii (rev acc).

(** The action on a character when no token is in progress. *)
Definition start_token (off : nat) (c : ascii) : res (list Token * lex_state) :=
  if is_space c then Ok ([], LStart)
  else if is_digit c then Ok ([], LInt off (digit_of c))
  else if is_ident_start c then Ok ([], LIdent off [c])
  else if is_quote c then Ok ([], LStr off c [])
  else if is_operator_char c then Ok ([], LOp off c)
  else if is_punctuation c
  then Ok ([mkToken (TPunctuation (String c EmptyString)) off], LStart)
  else Err (LexError off c).

Definition emit_then (t : Token) (off : nat) (c : ascii) : res (list Token * lex_state) :=
  let* '(toks, st) := start_token off c in Ok (t :: toks, st).

Definition number_token (start : nat) (m : N) (scale : nat) (neg : bool) (e : N) : Token :=
  mkToken (TNumber (number_value m scale neg e)) start.

(** One character of input: the tokens completed by it and the next state. *)
Definition step (st : lex_state) (off : nat) (c : ascii) : res (list Token * lex_state) :=
  match st with
  | LStart => start_token off c
  | LIdent s acc =>
      if is_ident_char c then Ok ([], LIdent s (c :: acc))
      else emit_then (mkToken (TIdentifier (text_of acc)) s) off c
  | LInt s m =>
      if is_digit c then Ok ([], LInt s (10 * m + digit_of c)%N)
      else if Ascii.eqb c "." then Ok ([], LDot s m)
      else if is_exponent_mark c then Ok ([], LExpMark s m 0)
      else emit_then (number_token s m 0 false 0) off c
  | LDot s m =>
      if is_digit c then Ok ([], LFrac s (10 * m + digit_of c)%N 1)
      else Err (LexError off c)
  | LFrac s m k =>
      if is_digit c then Ok ([], LFrac s (10 * m + digit_of c)%N (S k))
      else if is_exponent_mark c then Ok ([], LExpMark s m k)
      else emit_then (number_token s m k false 0) off c
  | LExpMark s m k =>
      if Ascii.eqb c "+" then Ok ([], LExpSign s m k false)
      else if Ascii.eqb c "-" then Ok ([], LExpSign s m k true)
      else if is_digit c then Ok ([], LExp s m k false (digit_of c))
      else Err (LexError off c)
  | LExpSign s m k neg =>
      if is_digit c then Ok ([], LExp s m k neg (digit_of c))
      else Err (LexError off c)
  | LExp s m k neg e =>
      if is_digit c then Ok ([], LExp s m k neg (10 * e + digit_of c)%N)
      else emit_then (number_token s m k neg e) off c
  | LStr s q acc =>
      if Ascii.eqb c q then Ok ([mkToken (TString (text_of acc)) s], LStart)
      else if Ascii.eqb c backslash then Ok ([], LEsc s q acc)
      else Ok ([], LStr s q (c :: acc))
  | LEsc s q acc =>
      match unescape c with
      | Some c' => Ok ([], LStr s q (c' :: acc))
      | None => Err (LexError off c)
      end
  | LOp s c1 =>
      if is_operator_pair c1 c
      then Ok ([mkToken (TOperator (String c1 (String c EmptyString))) s], LStart)
      else if needs_pair c1 then Err (LexError s c1)
      else emit_then (mkToken (TOperator (String c1 EmptyString)) s) off c
  end.

(** End of input: the token in progress, then the End token. *)
Definition finish (st : lex_state) (off : nat) : res (list Token) :=
  let done := fun t => Ok [t; mkToken TEnd off] in
  match st with
  | LStart => Ok [mkToken TEnd off]
  | LIdent s acc => done (mkToken (TIdentifier (text_of acc)) s)
  | LInt s m => done (number_token s m 0 false 0)
  | LFrac s m k => done (number_token s m k false 0)
  | LExp s m k neg e => done (number_token s m k neg e)
  | LOp s c1 =>
      if needs_pair c1 then Err (LexError s c1)
      else done (mkToken (TOperator (String c1 EmptyString)) s)
  | LDot _ _ | LExpMark _ _ _ | LExpSign _ _ _ _ | LStr _ _ _ | LEsc _ _ _ =>
      Err (LexError off (ascii_of_nat 0))
  end.

(** Modelled from the spec: one forward pass over the source text. *)
Fixpoint scan (st : lex_state) (off : nat) (cs : list ascii) : res (list Token) :=
  match cs with
  | [] => finish st off
  | c :: rest =>
      let* '(toks, st') := step st off c in
      let* more := scan st' (S off) rest in
      Ok (toks ++ more)
  end.

(** Modelled from the spec: the tokenizer of section 4.1, the token
    sequence of a source text or the LexError of the offending offset and
    character. *)
Definition tokenize (src : string) : res (list Token) :=
  scan LStart 0 (list_ascii_of_string src).

(** *** Compiler, first pass: tokens against the registries *)

(** Modelled from the spec: names associated with object identity or
    prototype ancestry; resolving one is rejected at compile time. *)
Definition ancestry_names : list string := ["__proto__"; "prototype"; "constructor"].

Definition is_ancestry_name (s : string) : bool := existsb (String.eqb s) ancestry_names.

(** A token once its text has been resolved against the operator and
    constant registries: an operator carries the registry slots it is
    bound to from here on. *)
Inductive ctoken : Type :=
| CNumber (q : Q)
| CString (s : string)
| CName (s : string)
| CConst (s : string) (v : value)
| COp (s : string) (unary binary : option operator_entry)
| CPunct (s : string)
| CEnd.

(** The binary operator registered under [s]; the membership test
    [in] counts only when the configuration enables it. *)
Definition lookup_binary (p : Parser) (s : string) : option operator_entry :=
  if String.eqb s "in" && negb (enableMembership (parser_options p)) then None
  else binaryOps p !! s.

(** Modelled from the spec: name resolution of one token.  An
    identifier or operator text registered as an operator becomes that
    operator, bound to its registry slots; an identifier registered as a
    constant becomes its value; a name of prototype ancestry is rejected. *)
Definition classify (p : Parser) (t : Token) : res (ctoken * nat) :=
  match kind t with
  | TNumber q => Ok (CNumber q, offset t)
  | TString s => Ok (CString s, offset t)
  | TIdentifier s =>
      if is_ancestry_name s then Err (ParseError "prototype access detected")
      else
        match unaryOps p !! s, lookup_binary p s with
        | None, None =>
            match consts p !! s with
            | Some v => Ok (CConst s v, offset t)
            | None => Ok (CName s, offset t)
            end
        | u, b => Ok (COp s u b, offset t)
        end
  | TOperator s => Ok (COp s (unaryOps p !! s) (lookup_binary p s), offset t)
  | TPunctuation s => Ok (CPunct s, offset t)
  | TEnd => Ok (CEnd, offset t)
  end.

Fixpoint classify_all (p : Parser) (ts : list Token) : res (list (ctoken * nat)) :=
  match ts with
  | [] => Ok []
  | t :: rest =>
      let* c := classify p t in
      let* cs := classify_all p rest in
      Ok (c :: cs)
  end.

(** *** Compiler, second pass: precedence climbing (section 4.2) *)

Inductive expr : Type :=
| ENum (q : Q)
| EStr (s : string)
| EConst (name : string) (v : value)
| EName (x : string)
| EArray (items : list expr)
| EUnary (op : operator_entry) (e : expr)
| EBinary (op : operator_entry) (l r : expr)
| ETernary (c a b : expr)
| ECall (callee : expr) (args : list expr)
| EIndex (a i : expr)
| EMember (a : expr) (name : string)
| EAssign (x : string) (e : expr)
| EFunDef (f : string) (params : list string) (body : expr)
| ESeq (a b : expr).

Definition tokens : Type := list (ctoken * nat).

Definition peek (ts : tokens) : ctoken :=
  match ts with
  | (c, _) :: _ => c
  | [] => CEnd
  end.

Definition position (ts : tokens) : nat :=
  match ts with
  | (_, off) :: _ => off
  | [] => 0
  end.

Definition is_op (c : ctoken) (s : string) : bool :=
  match c with COp s' _ _ => String.eqb s' s | _ => false end.

Definition is_punct (c : ctoken) (s : string) : bool :=
  match c with CPunct s' => String.eqb s' s | _ => false end.

Definition unexpected {A : Type} (ts : tokens) : res A :=
  Err (ParseError ("unexpected token at offset " +:+ string_of_nat (position ts))).

Definition depth_exceeded {A : Type} : res A :=
  Err (ResourceLimitError "maximum recursion depth exceeded").

Definition expect (s : string) (ts : tokens) : res tokens :=
  if is_punct (peek ts) s || is_op (peek ts) s then Ok (tl ts) else unexpected ts.

(** The minimum precedence of the right operand: one level up for a
    left-associative operator, the same level for a right-associative one. *)
Definition next_precedence (op : operator_entry) : nat :=
  match op_associativity op with
  | LeftAssoc => S (op_precedence op)
  | RightAssoc => op_precedence op
  end.

Fixpoint param_names (args : list expr) : res (list string) :=
  match args with
  | [] => Ok []
  | EName x :: rest => let* xs := param_names rest in Ok (x :: xs)
  | _ :: _ => Err (ParseError "illegal parameter in function definition")
  end.

(** [lhs = rhs]: a variable assignment or a local function definition. *)
Definition assignment_target (lhs rhs : expr) : res expr :=
  match lhs with
  | EName x => Ok (EAssign x rhs)
  | ECall (EName f) args => let* ps := param_names args in Ok (EFunDef f ps rhs)
  | _ => Err (ParseError "illegal assignment target")
  end.

(** A dot followed by a numeric index: the index must be a natural number. *)
Definition index_literal (q : Q) : option expr :=
  if (Zpos (Qden q) =? 1)%Z && (0 <=? Qnum q)%Z then Some (ENum q) else None.

(** Modelled from the spec: the precedence-climbing descent of section
    4.2.  From the loosest level: statement sequence, assignment and
    local function definition, ternary conditional, the binary levels in
    the order of the operator registry (a prefix operator takes an operand
    of at least its own level), then the postfix forms call, index and
    member access, then the atoms.  [d] bounds the depth of the descent;
    exceeding it is the resource-limit failure. *)
Fixpoint parse_sequence (d : nat) (ts : tokens) {struct d} : res (expr * tokens) :=
  match d with
  | O => depth_exceeded
  | S d' =>
      let* '(e1, ts1) := parse_assignment d' ts in
      if is_op (peek ts1) ";"
      then let* '(e2, ts2) := parse_sequence d' (tl ts1) in Ok (ESeq e1 e2, ts2)
      else Ok (e1, ts1)
  end
with parse_assignment (d : nat) (ts : tokens) {struct d} : res (expr * tokens) :=
  match d with
  | O => depth_exceeded
  | S d' =>
      let* '(lhs, ts1) := parse_ternary d' ts in
      if is_op (peek ts1) "="
      then let* '(rhs, ts2) := parse_assignment d' (tl ts1) in
           let* target := assignment_target lhs rhs in
           Ok (target, ts2)
      else Ok (lhs, ts1)
  end
with parse_ternary (d : nat) (ts : tokens) {struct d} : res (expr * tokens) :=
  match d with
  | O => depth_exceeded
  | S d' =>
      let* '(c, ts1) := parse_binary d' 0 ts in
      if is_op (peek ts1) "?"
      then let* '(a, ts2) := parse_ternary d' (tl ts1) in
           let* ts3 := expect ":" ts2 in
           let* '(b, ts4) := parse_ternary d' ts3 in
           Ok (ETernary c a b, ts4)
      else Ok (c, ts1)
  end
with parse_binary (d : nat) (minp : nat) (ts : tokens) {struct d} : res (expr * tokens) :=
  match d with
  | O => depth_exceeded
  | S d' =>
      let* '(lhs, ts1) := parse_prefix d' ts in
      parse_binary_rest d' minp lhs ts1
  end
with parse_binary_rest (d : nat) (minp : nat) (lhs : expr) (ts : tokens) {struct d}
  : res (expr * tokens) :=
  match d with
  | O => depth_exceeded
  | S d' =>
      match peek ts with
      | COp _ _ (Some op) =>
          if (minp <=? op_precedence op)%nat
          then let* '(rhs, ts1) := parse_binary d' (next_precedence op) (tl ts) in
               parse_binary_rest d' minp (EBinary op lhs rhs) ts1
          else Ok (lhs, ts)
      | _ => Ok (lhs, ts)
      end
  end
with parse_prefix (d : nat) (ts : tokens) {struct d} : res (expr * tokens) :=
  match d with
  | O => depth_exceeded
  | S d' =>
      match peek ts with
      | COp _ (Some op) _ =>
          let* '(e, ts1) := parse_binary d' (op_precedence op) (tl ts) in
          Ok (EUnary op e, ts1)
      | _ => parse_postfix d' ts
      end
  end
with parse_postfix (d : nat) (ts : tokens) {struct d} : res (expr * tokens) :=
  match d with
  | O => depth_exceeded
  | S d' =>
      let* '(a, ts1) := parse_atom d' ts in
      parse_postfix_rest d' a ts1
  end
with parse_postfix_rest (d : nat) (a : expr) (ts : tokens) {struct d}
  : res (expr * tokens) :=
  match d with
  | O => depth_exceeded
  | S d' =>
      if is_punct (peek ts) "("
      then let* '(args, ts1) := parse_list d' ")" (tl ts) in
           parse_postfix_rest d' (ECall a args) ts1
      else if is_punct (peek ts) "["
      then let* '(i, ts1) := parse_sequence d' (tl ts) in
           let* ts2 := expect "]" ts1 in
           parse_postfix_rest d' (EIndex a i) ts2
      else if is_punct (peek ts) "."
      then match peek (tl ts) with
           | CName s => parse_postfix_rest d' (EMember a s) (tl (tl ts))
           | CNumber q =>
               match index_literal q with
               | Some i => parse_postfix_rest d' (EIndex a i) (tl (tl ts))
               | None => unexpected (tl ts)
               end
           | _ => unexpected (tl ts)
           end
      else Ok (a, ts)
  end
with parse_atom (d : nat) (ts : tokens) {struct d} : res (expr * tokens) :=
  match d with
  | O => depth_exceeded
  | S d' =>
      match peek ts with
      | CNumber q => Ok (ENum q, tl ts)
      | CString s => Ok (EStr s, tl ts)
      | CConst x v => Ok (EConst x v, tl ts)
      | CName x => Ok (EName x, tl ts)
      | CPunct s =>
          if String.eqb s "("
          then let* '(e, ts1) := parse_sequence d' (tl ts) in
               let* ts2 := expect ")" ts1 in
               Ok (e, ts2)
          else if String.eqb s "["
          then let* '(items, ts1) := parse_list d' "]" (tl ts) in
               Ok (EArray items, ts1)
          else unexpected ts
      | _ => unexpected ts
      end
  end
with parse_list (d : nat) (close : string) (ts : tokens) {struct d}
  : res (list expr * tokens) :=
  match d with
  | O => depth_exceeded
  | S d' =>
      if is_punct (peek ts) close then Ok ([], tl ts)
      else parse_items d' close ts
  end
with parse_items (d : nat) (close : string) (ts : tokens) {struct d}
  : res (list expr * tokens) :=
  match d with
  | O => depth_exceeded
  | S d' =>
      let* '(e, ts1) := parse_assignment d' ts in
      if is_punct (peek ts1) ","
      then let* '(es, ts2) := parse_items d' close (tl ts1) in Ok (e :: es, ts2)
      else if is_punct (peek ts1) close then Ok ([e], tl ts1)
      else unexpected ts1
  end.

(** A whole expression: nothing but the End token may follow. *)
Definition parse_program (d : nat) (ts : tokens) : res expr :=
  let* '(e, rest) := parse_sequence d ts in
  match peek rest with
  | CEnd => Ok e
  | _ => unexpected rest
  end.

(** *** Compiler, third pass: call targets, variables, instructions *)

(** Modelled from the spec: the instructions of section 3.  A call of an
    operator or of a registry function carries the registry entry it was
    bound to at compile time.  [CallUnresolved] is not among the
    instructions of section 3: it stands for a call form whose name is
    neither a registry function nor a local function in scope, which the
    bundle accepts at parse time (see [emit]). *)
Inductive instr : Type :=
| PushLiteral (v : value)
| LoadVariable (name : string)
| CallOperator (op : operator_entry) (arity : nat)
| CallFunction (fn : function_entry) (argc : nat)
| CallLocalFunction (name : string) (argc : nat)
| CallUnresolved (name : string) (argc : nat)
| MakeArray (count : nat)
| Index
| MemberAccess (name : string)
| Assign (name : string)
| DefineLocalFunction (name : string) (params : list string) (body : list instr)
| Conditional (thn els : list instr)
| Sequence.

(** Modelled from the spec: the bounded safe set of field names member
    access may resolve.  The specification bounds the set (numeric
    indices and whitelisted field names) and does not list the field
    names: that it holds [length] alone is a choice of this model, arrays
    being the only composite the language builds.  A numeric index is the
    form [a[i]]. *)
Definition safe_member_names : list string := ["length"].

Definition mem (x : string) (l : list string) : bool := existsb (String.eqb x) l.

(** What the compiler knows while it walks an expression: the local
    functions in scope with their arity, the names assigned so far, and
    the free variables met so far. *)
Record cstate : Type := mkCstate {
  local_fns : list (string * nat);
  assigned : list string;
  free : list string
}.

Definition add_free (x : string) (st : cstate) : cstate :=
  if mem x (free st) then st
  else mkCstate (local_fns st) (assigned st) (free st ++ [x]).

Definition unknown_function {A : Type} (f : string) : res A :=
  Err (ParseError ("unknown function: " +:+ f)).

(** Modelled from the spec: the instructions of an expression (an RPN
    form of its tree).  A call form compiles to a call of the registry
    function of that name, else of the local function of that name in
    scope; a parameter or an assigned name is a variable and never a
    callee.  A bare identifier that is neither a parameter nor assigned so
    far is a free variable.

    A call form whose name is none of these is where this model leaves
    section 4.2 of the specification, which makes it a failure of
    compilation.  The tests of the repository (src/test/security.js, the
    wrapper tests of src/unnamed/part_003) require of [sin(x)] and
    [max(1, 2)] under an emptied function registry the wrappers' own
    message 'Unknown identifier', which the wrappers produce after
    [parser.parse] has returned and from the names the expression lists.
    So such a call form compiles: its name is listed with the free
    variables, its arguments are compiled as usual, and the call itself is
    the instruction [CallUnresolved], which fails when it is executed. *)
Fixpoint emit (fns : gmap string function_entry) (opts : options)
  (params : list string) (e : expr) (st : cstate) {struct e}
  : res (list instr * cstate) :=
  let emit_all :=
    fix emit_all (es : list expr) (st : cstate) {struct es} : res (list instr * cstate) :=
      match es with
      | [] => Ok ([], st)
      | e' :: rest =>
          let* '(c, st1) := emit fns opts params e' st in
          let* '(cs, st2) := emit_all rest st1 in
          Ok (c ++ cs, st2)
      end in
  match e with
  | ENum q => Ok ([PushLiteral (VNum q)], st)
  | EStr s => Ok ([PushLiteral (VStr s)], st)
  | EConst _ v => Ok ([PushLiteral v], st)
  | EName x =>
      if mem x params || mem x (assigned st) then Ok ([LoadVariable x], st)
      else Ok ([LoadVariable x], add_free x st)
  | EArray items =>
      let* '(c, st1) := emit_all items st in
      Ok (c ++ [MakeArray (length items)], st1)
  | EUnary op a =>
      let* '(c, st1) := emit fns opts params a st in
      Ok (c ++ [CallOperator op 1], st1)
  | EBinary op l r =>
      let* '(cl, st1) := emit fns opts params l st in
      let* '(cr, st2) := emit fns opts params r st1 in
      Ok (cl ++ cr ++ [CallOperator op 2], st2)
  | ETernary c a b =>
      let* '(cc, st1) := emit fns opts params c st in
      let* '(ca, sta) := emit fns opts params a st1 in
      let* '(cb, stb) :=
        emit fns opts params b (mkCstate (local_fns st1) (assigned st1) (free sta)) in
      Ok (cc ++ [Conditional ca cb],
          mkCstate (local_fns st1) (assigned st1) (free stb))
  | ECall callee args =>
      match callee with
      | EName f =>
          if mem f params || mem f (assigned st) then unknown_function f
          else
            match fns !! f with
            | Some fn =>
                if (minArity fn <=? length args)%nat && (length args <=? maxArity fn)%nat
                then let* '(c, st1) := emit_all args st in
                     Ok (c ++ [CallFunction fn (length args)], st1)
                else Err (ParseError ("wrong number of arguments for " +:+ f))
            | None =>
                match assoc_lookup f (local_fns st) with
                | Some _ =>
                    let* '(c, st1) := emit_all args st in
                    Ok (c ++ [CallLocalFunction f (length args)], st1)
                | None =>
                    let* '(c, st1) := emit_all args (add_free f st) in
                    Ok (c ++ [CallUnresolved f (length args)], st1)
                end
            end
      | EFunDef g _ _ =>
          let* '(cd, st1) := emit fns opts params callee st in
          let* '(c, st2) := emit_all args st1 in
          Ok (cd ++ c ++ [CallLocalFunction g (length args); Sequence], st2)
      | _ => Err (ParseError "call target is not a function name")
      end
  | EIndex a i =>
      let* '(ca, st1) := emit fns opts params a st in
      let* '(ci, st2) := emit fns opts params i st1 in
      Ok (ca ++ ci ++ [Index], st2)
  | EMember a name =>
      if mem name safe_member_names
      then let* '(ca, st1) := emit fns opts params a st in
           Ok (ca ++ [MemberAccess name], st1)
      else Err (ParseError ("member access is not permitted: " +:+ name))
  | EAssign x a =>
      if negb (enableAssignment opts)
      then Err (ParseError "assignment is not permitted")
      else if mem x params
      then Err (ParseError ("illegal assignment target: " +:+ x))
      else let* '(ca, st1) := emit fns opts params a st in
           Ok (ca ++ [Assign x],
               mkCstate (local_fns st1) (x :: assigned st1) (free st1))
  | EFunDef f ps body =>
      if negb (enableLocalFunctionDefinition opts)
      then Err (ParseError "function definition is not permitted")
      else
        let inner := mkCstate ((f, length ps) :: local_fns st) (assigned st) (free st) in
        let* '(cb, stb) := emit fns opts (ps ++ params) body inner in
        Ok ([DefineLocalFunction f ps cb],
            mkCstate ((f, length ps) :: local_fns st) (assigned st) (free stb))
  | ESeq a b =>
      let* '(ca, st1) := emit fns opts params a st in
      let* '(cb, st2) := emit fns opts params b st1 in
      Ok (ca ++ cb ++ [Sequence], st2)
  end.

(** The instructions of a list of expressions, left to right. *)
Fixpoint emit_list (fns : gmap string function_entry) (opts : options)
  (params : list string) (es : list expr) (st : cstate) : res (list instr * cstate) :=
  match es with
  | [] => Ok ([], st)
  | e :: rest =>
      let* '(c, st1) := emit fns opts params e st in
      let* '(cs, st2) := emit_list fns opts params rest st1 in
      Ok (c ++ cs, st2)
  end.

Fixpoint instruction_count (i : instr) : nat :=
  let count_all :=
    fix count_all (prog : list instr) : nat :=
      match prog with
      | [] => 0
      | i' :: rest => instruction_count i' + count_all rest
      end in
  match i with
  | DefineLocalFunction _ _ body => S (count_all body)
  | Conditional thn els => S (count_all thn + count_all els)
  | _ => 1
  end.

Definition program_size (prog : list instr) : nat :=
  list_sum (map instruction_count prog).

(** The immutable output of compilation. *)
Record CompiledExpression : Type := mkCompiled {
  instructions : list instr;
  free_variables : list string;
  limits : options
}.

Definition freeVariables (e : CompiledExpression) : list string := free_variables e.

(** The syntax tree of a source text under the registries of [p]. *)
Definition syntax (p : Parser) (src : string) : res expr :=
  let* toks := tokenize src in
  let* ctoks := classify_all p toks in
  parse_program (maxRecursionDepth (parser_options p)) ctoks.

(** Modelled from the spec: [compile(sourceText, registries)]. *)
Definition compile (p : Parser) (src : string) : res CompiledExpression :=
  let* ast := syntax p src in
  let* '(code, st) := emit (functions p) (parser_options p) [] ast (mkCstate [] [] []) in
  if (program_size code <=? maxInstructionCount (parser_options p))%nat
  then Ok (mkCompiled code (free st) (parser_options p))
  else Err (ResourceLimitError "maximum instruction count exceeded").

(** *** Default registries (sections 4.2 and 4.4) *)

Definition type_error {A : Type} (op : string) : res A :=
  Err (EvaluationError ("non-numeric operand to " +:+ op)).

Definition numeric1 (name : string) (f : Q -> Q) (args : list value) : res value :=
  match args with
  | [VNum a] => Ok (VNum (Qred (f a)))
  | _ => type_error name
  end.

Definition numeric2 (name : string) (f : Q -> Q -> res Q) (args : list value) : res value :=
  match args with
  | [VNum a; VNum b] => let* q := f a b in Ok (VNum (Qred q))
  | _ => type_error name
  end.

Definition compare2 (name : string) (f : Q -> Q -> bool) (args : list value) : res value :=
  match args with
  | [VNum a; VNum b] => Ok (VBool (f a b))
  | _ => type_error name
  end.

Definition division_by_zero {A : Type} : res A := Err (EvaluationError "division by zero").

Definition q_div (a b : Q) : res Q :=
  if Qeq_bool b 0 then division_by_zero else Ok (a / b)%Q.

(** The remainder takes the sign of the dividend. *)
Definition q_mod (a b : Q) : res Q :=
  if Qeq_bool b 0 then division_by_zero
  else let q := (a / b)%Q in
       Ok (a - b * inject_Z (Z.quot (Qnum q) (Zpos (Qden q))))%Q.

(** Powers stay rational for integer exponents only. *)
Definition q_pow (a b : Q) : res Q :=
  let e := Qred b in
  if (Zpos (Qden e) =? 1)%Z
  then if (Qnum e <? 0)%Z && Qeq_bool a 0 then division_by_zero
       else Ok (Qpower a (Qnum e))
  else Err (EvaluationError "exponent is not an integer").

(** Strict equality on primitives; two composite values are never the
    same object. *)
Definition value_eqb (a b : value) : bool :=
  match a, b with
  | VUndefined, VUndefined => true
  | VNull, VNull => true
  | VBool x, VBool y => Bool.eqb x y
  | VNum x, VNum y => Qeq_bool x y
  | VStr x, VStr y => String.eqb x y
  | VSymbol x, VSymbol y => (x =? y)%nat
  | VBigInt x, VBigInt y => (x =? y)%Z
  | VFunction x, VFunction y => (x =? y)%nat
  | _, _ => false
  end.

Definition logical2 (f : bool -> bool -> bool) (args : list value) : res value :=
  match args with
  | [a; b] => Ok (VBool (f (truthy a) (truthy b)))
  | _ => Err (EvaluationError "wrong number of operands")
  end.

Definition equality (negate : bool) (args : list value) : res value :=
  match args with
  | [a; b] => Ok (VBool (xorb negate (value_eqb a b)))
  | _ => Err (EvaluationError "wrong number of operands")
  end.

Definition logical_not (args : list value) : res value :=
  match args with
  | [a] => Ok (VBool (negb (truthy a)))
  | _ => Err (EvaluationError "wrong number of operands")
  end.

Definition membership (args : list value) : res value :=
  match args with
  | [a; VArray elems] => Ok (VBool (existsb (value_eqb a) elems))
  | _ => Err (EvaluationError "right operand of in is not an array")
  end.

Definition unary (s : string) (prec : nat) (impl : list value -> res value)
  : string * operator_entry :=
  (s, mkOperator s prec RightAssoc Unary impl).

Definition binary (s : string) (prec : nat) (a : associativity)
  (impl : list value -> res value) : string * operator_entry :=
  (s, mkOperator s prec a Binary impl).

(** Modelled from the spec: the unary levels of the canonical precedence
    table, logical not (level 6) and the prefix signs (level 11). *)
Definition default_unaryOps : gmap string operator_entry :=
  list_to_map
    [ unary "not" 6 logical_not;
      unary "-" 11 (numeric1 "-" Qopp);
      unary "+" 11 (numeric1 "+" (fun a => a)) ].

(** Modelled from the spec: the binary levels of the canonical precedence
    table.  The specification names no symbol for concatenation, so the
    additive level holds [+] and [-] only. *)
Definition default_binaryOps : gmap string operator_entry :=
  list_to_map
    [ binary "or" 4 LeftAssoc (logical2 orb);
      binary "||" 4 LeftAssoc (logical2 orb);
      binary "and" 5 LeftAssoc (logical2 andb);
      binary "&&" 5 LeftAssoc (logical2 andb);
      binary "in" 7 LeftAssoc membership;
      binary "==" 8 LeftAssoc (equality false);
      binary "!=" 8 LeftAssoc (equality true);
      binary "<" 8 LeftAssoc (compare2 "<" (fun a b => negb (Qle_bool b a)));
      binary ">" 8 LeftAssoc (compare2 ">" (fun a b => negb (Qle_bool a b)));
      binary "<=" 8 LeftAssoc (compare2 "<=" Qle_bool);
      binary ">=" 8 LeftAssoc (compare2 ">=" (fun a b => Qle_bool b a));
      binary "+" 9 LeftAssoc (numeric2 "+" (fun a b => Ok (a + b)%Q));
      binary "-" 9 LeftAssoc (numeric2 "-" (fun a b => Ok (a - b)%Q));
      binary "*" 10 LeftAssoc (numeric2 "*" (fun a b => Ok (a * b)%Q));
      binary "/" 10 LeftAssoc (numeric2 "/" q_div);
      binary "%" 10 LeftAssoc (numeric2 "%" q_mod);
      binary "^" 12 RightAssoc (numeric2 "^" q_pow) ].

(** The built-in constants src/SECURITY_FIX.md lists (E, PI, true,
    false); E and PI to the sixteen significant digits of a double. *)
Definition default_consts : gmap string value :=
  list_to_map
    [ ("E", VNum (2718281828459045 # 1000000000000000)%Q);
      ("PI", VNum (3141592653589793 # 1000000000000000)%Q);
      ("true", VBool true);
      ("false", VBool false) ].

(** Modelled from the spec: [new Parser(options)].  The registries start
    from the defaults; the specification names the configuration options
    but neither their defaults nor the default function table, so both are
    arguments. *)
Definition new_parser (opts : options) (fns : gmap string function_entry) : Parser :=
  mkParser default_unaryOps default_binaryOps fns default_consts opts.

(** *** Evaluator (section 4.3) *)

Inductive closure : Type :=
| Closure (params : list string) (body : list instr) (captured : list (string * value)).

(** The transient state of one evaluation, and the caller's binding map
    as the evaluation holds it. *)
Record machine : Type := mkMachine {
  stack : list value;
  locals : list (string * value);
  local_functions : list (string * closure);
  bindings : value
}.

(** A run either goes on with a machine or has failed; a failure keeps
    the binding map as the failing instruction left it. *)
Inductive run_result : Type :=
| Running (m : machine)
| Failed (e : error) (b : value).

Definition bindings_of (r : run_result) : value :=
  match r with
  | Running m => bindings m
  | Failed _ b => b
  end.

Definition run_bind (r : run_result) (k : machine -> run_result) : run_result :=
  match r with
  | Running m => k m
  | Failed e b => Failed e b
  end.

Definition fail (e : error) (m : machine) : run_result := Failed e (bindings m).

Definition set_stack (s : list value) (m : machine) : machine :=
  mkMachine s (locals m) (local_functions m) (bindings m).

Definition push (v : value) (m : machine) : machine := set_stack (v :: stack m) m.

Definition underflow (m : machine) : run_result :=
  fail (EvaluationError "stack underflow") m.

(** The top [n] values in the order they were pushed. *)
Definition take_args (n : nat) (m : machine) : option (list value * machine) :=
  if (n <=? length (stack m))%nat
  then Some (rev (firstn n (stack m)), set_stack (skipn n (stack m)) m)
  else None.

Definition apply_impl (impl : list value -> res value) (n : nat) (m : machine)
  : run_result :=
  match take_args n m with
  | Some (args, m1) =>
      match impl args with
      | Ok v => Running (push v m1)
      | Err e => fail e m1
      end
  | None => underflow m
  end.

Definition index_value (a i : value) : res value :=
  match a, i with
  | VArray elems, VNum q =>
      let k := Qred q in
      if (Zpos (Qden k) =? 1)%Z && (0 <=? Qnum k)%Z
         && (Qnum k <? Z.of_nat (length elems))%Z
      then Ok (nth (Z.to_nat (Qnum k)) elems VUndefined)
      else Err (EvaluationError "IndexError: index out of range")
  | _, _ => Err (EvaluationError "IndexError: not an array and an index")
  end.

Definition member_value (a : value) (name : string) : res value :=
  match a with
  | VArray elems =>
      if String.eqb name "length" then Ok (VNum (inject_Z (Z.of_nat (length elems))))
      else Err (EvaluationError ("no such member: " +:+ name))
  | _ => Err (EvaluationError "member access on a value that is not an array")
  end.

(** Modelled from the spec: one instruction of the stack machine of
    section 4.3; [nested] runs a branch or a function body.  A variable is
    looked up in the scopes of the evaluation (parameters, assigned names)
    and then in the binding map, never in a registry; an assignment binds
    in the local scope; no instruction calls a value.  [CallUnresolved]
    takes its arguments off the stack and is the unknown-function failure:
    it reads no binding. *)
Definition exec (nested : list instr -> machine -> run_result) (i : instr) (m : machine)
  : run_result :=
  match i with
  | PushLiteral v => Running (push v m)
  | LoadVariable x =>
      match assoc_lookup x (locals m) with
      | Some v => Running (push v m)
      | None =>
          if hasOwnProperty (bindings m) x then Running (push (get (bindings m) x) m)
          else fail (UnresolvedVariableError x) m
      end
  | CallOperator op n => apply_impl (op_implementation op) n m
  | CallFunction fn n => apply_impl (fn_implementation fn) n m
  | CallLocalFunction f n =>
      match take_args n m with
      | Some (args, m1) =>
          match assoc_lookup f (local_functions m1) with
          | Some (Closure ps body captured) =>
              if (length ps =? n)%nat
              then run_bind
                     (nested body
                        (mkMachine [] (combine ps args ++ captured)
                           (local_functions m1) (bindings m1)))
                     (fun m2 =>
                        match stack m2 with
                        | v :: _ =>
                            Running (mkMachine (v :: stack m1) (locals m1)
                                       (local_functions m1) (bindings m2))
                        | [] => underflow m2
                        end)
              else fail (EvaluationError ("wrong number of arguments for " +:+ f)) m1
          | None => fail (EvaluationError ("local function is not defined: " +:+ f)) m1
          end
      | None => underflow m
      end
  | CallUnresolved f n =>
      match take_args n m with
      | Some (_, m1) => fail (EvaluationError ("unknown function: " +:+ f)) m1
      | None => underflow m
      end
  | MakeArray n =>
      match take_args n m with
      | Some (args, m1) => Running (push (VArray args) m1)
      | None => underflow m
      end
  | Index =>
      match stack m with
      | i' :: a :: s =>
          match index_value a i' with
          | Ok v => Running (set_stack (v :: s) m)
          | Err e => fail e m
          end
      | _ => underflow m
      end
  | MemberAccess name =>
      match stack m with
      | a :: s =>
          match member_value a name with
          | Ok v => Running (set_stack (v :: s) m)
          | Err e => fail e m
          end
      | _ => underflow m
      end
  | Assign x =>
      match stack m with
      | v :: _ =>
          Running (mkMachine (stack m) ((x, v) :: locals m) (local_functions m) (bindings m))
      | [] => underflow m
      end
  | DefineLocalFunction f ps body =>
      Running (mkMachine (VUndefined :: stack m) (locals m)
                 ((f, Closure ps body (locals m)) :: local_functions m) (bindings m))
  | Conditional thn els =>
      match stack m with
      | c :: s => nested (if truthy c then thn else els) (set_stack s m)
      | [] => underflow m
      end
  | Sequence =>
      match stack m with
      | b :: _ :: s => Running (set_stack (b :: s) m)
      | _ => underflow m
      end
  end.

Fixpoint run_program (step : instr -> machine -> run_result) (prog : list instr)
  (m : machine) : run_result :=
  match prog with
  | [] => Running m
  | i :: rest => run_bind (step i m) (run_program step rest)
  end.

(** Modelled from the spec: a program at nesting depth [depth]; running
    out of depth is the resource-limit failure. *)
Fixpoint run (depth : nat) (prog : list instr) (m : machine) {struct depth} : run_result :=
  match depth with
  | O => fail (ResourceLimitError "maximum recursion depth exceeded") m
  | S d => run_program (exec (run d)) prog m
  end.

(** Modelled from the spec: [evaluate(CompiledExpression, bindingMap)],
    the result or the message of the failure, and the binding map as the
    evaluation leaves it. *)
Definition evaluate (e : CompiledExpression) (bindingMap : value)
  : (value + string) * value :=
  match run (maxRecursionDepth (limits e)) (instructions e)
          (mkMachine [] [] [] bindingMap) with
  | Running m =>
      match stack m with
      | [v] => (inl v, bindings m)
      | _ => (inr "evaluation did not leave one result", bindings m)
      end
  | Failed err b => (inr (message err), b)
  end.

(** *** The surface dist/bundle offers, over this core *)

(** Modelled from the spec: [parser.parse(expression)], the compiled
    expression or the message of the error thrown. *)
Definition parse (p : Parser) (src : string) : CompiledExpression + string :=
  match compile p src with
  | Ok e => inl e
  | Err err => inr (message err)
  end.

(** Modelled from the spec: the specification has one listing of the
    names an expression uses, [freeVariables()]; [expr.symbols()] and
    [expr.variables()] are both taken to be it.  That the two list the
    same names is a choice of this model; what is proved for every
    [ParserApi] does not rest on it. *)
Definition api (opts : options) (fns : gmap string function_entry) : ParserApi :=
  mkApi CompiledExpression (new_parser opts fns) parse
    (fun e => inl (freeVariables e)) (fun e => inl (freeVariables e)) evaluate.

(** Modelled from the spec: [parser.evaluate(expr, variables)]: parse,
    then evaluate; the errors of either stage are thrown as they are. *)
Definition parser_evaluate (p : Parser) (src : string) (variables : value)
  : outcome * value :=
  match parse p src with
  | inr msg => (Throw msg, variables)
  | inl e =>
      match evaluate e variables with
      | (inl v, after) => (Return v, after)
      | (inr msg, after) => (Throw msg, after)
      end
  end.

End Core.

(** ** Vocabulary of the properties *)

(** The primitive values a binding may hold: number, boolean, string,
    null and undefined. *)
Definition is_primitive (v : value) : bool :=
  match v with
  | VUndefined | VNull | VBool _ | VNum _ | VStr _ => true
  | _ => false
  end.

(** A value whose type is 'function', or a non-null value whose type is
    'object'. *)
Definition is_callable_or_composite (v : value) : bool :=
  String.eqb (typeof v) "function" || (String.eqb (typeof v) "object" && negb (is_null v)).

(** A non-null object that is no array: the variables arguments that
    pass the guard of src/lib/safe-evaluator.js. *)
Definition is_object (v : value) : bool :=
  String.eqb (typeof v) "object" && negb (is_null v) && negb (isArray v).

(** An own enumerable property the validation stage turns down. *)
Definition rejects (variables : value) (k : string) : bool :=
  hasOwnProperty variables k && negb (is_primitive (get variables k)).

Definition first_rejected (variables : value) : option string :=
  find (rejects variables) (for_in_keys variables).

(** The messages of the two wrappers. *)
Definition lib_rejection (key type : string) : string :=
  "Variable '" +:+ key
  +:+ "' must be a primitive value (number, boolean, string, or null). Got: " +:+ type.

Definition lib_unknown (symbol : string) : string :=
  "Unknown identifier '" +:+ symbol
  +:+ "' in expression. All identifiers must be provided in variables.".

Definition se_unknown (identifier : string) : string :=
  "Unknown identifier " +:+ dquote +:+ identifier +:+ dquote
  +:+ ". All identifiers must be provided in variables.".

(** The first identifier the variables object does not own. *)
Definition first_missing (variables : value) (identifiers : list string) : option string :=
  find (fun x => negb (hasOwnProperty variables x)) identifiers.

(** The outcome the wrappers make of [expr.evaluate(variables)]. *)
Definition wrap_result (r : (value + string) * value) : outcome * value :=
  match r with
  | (inl v, after) => (Return v, after)
  | (inr msg, after) => (Throw ("Failed to evaluate expression: " +:+ msg), after)
  end.

(** Two outcomes agree when both return the same value or both throw. *)
Definition agree (a b : outcome) : Prop :=
  match a, b with
  | Return x, Return y => x = y
  | Throw _, Throw _ => True
  | _, _ => False
  end.

Definition throws (r : outcome * value) : Prop := exists msg, fst r = Throw msg.

(** The syntax tree holds a call form [callee(args)]. *)
Fixpoint contains_call (e : Core.expr) : bool :=
  match e with
  | Core.ENum _ | Core.EStr _ | Core.EConst _ _ | Core.EName _ => false
  | Core.EArray items => existsb contains_call items
  | Core.EUnary _ a => contains_call a
  | Core.EBinary _ l r => contains_call l || contains_call r
  | Core.ETernary c a b => contains_call c || contains_call a || contains_call b
  | Core.ECall _ _ => true
  | Core.EIndex a i => contains_call a || contains_call i
  | Core.EMember a _ => contains_call a
  | Core.EAssign _ a => contains_call a
  | Core.EFunDef _ _ body => contains_call body
  | Core.ESeq a b => contains_call a || contains_call b
  end.

(** The name a call form calls, when its callee is a name. *)
Definition called_name (callee : Core.expr) : option string :=
  match callee with
  | Core.EName g => Some g
  | _ => None
  end.

(** The operators whose right operand an implementation may leave
    unevaluated: the specification does not say that the logical
    operators evaluate both operands. *)
Definition is_logical (op : operator_entry) : bool :=
  Core.mem (op_symbol op) ["and"; "or"; "&&"; "||"].

(** The syntax tree calls [f] by name at a place evaluation reaches
    whatever the values are: outside the branches of a conditional,
    outside the body of a local function and outside the right operand of
    a logical operator. *)
Fixpoint calls_eagerly (f : string) (e : Core.expr) : bool :=
  match e with
  | Core.ENum _ | Core.EStr _ | Core.EConst _ _ | Core.EName _ => false
  | Core.EArray items => existsb (calls_eagerly f) items
  | Core.EUnary _ a => calls_eagerly f a
  | Core.EBinary op l r => calls_eagerly f l || (negb (is_logical op) && calls_eagerly f r)
  | Core.ETernary c _ _ => calls_eagerly f c
  | Core.ECall callee args =>
      match called_name callee with
      | Some g => String.eqb f g
      | None => false
      end
      || existsb (calls_eagerly f) args
  | Core.EIndex a i => calls_eagerly f a || calls_eagerly f i
  | Core.EMember a _ => calls_eagerly f a
  | Core.EAssign _ a => calls_eagerly f a
  | Core.EFunDef _ _ _ => false
  | Core.ESeq a b => calls_eagerly f a || calls_eagerly f b
  end.

(** The syntax tree holds a definition [f(params) = body] of a local
    function named [f]. *)
Fixpoint defines (f : string) (e : Core.expr) : bool :=
  match e with
  | Core.ENum _ | Core.EStr _ | Core.EConst _ _ | Core.EName _ => false
  | Core.EArray items => existsb (defines f) items
  | Core.EUnary _ a => defines f a
  | Core.EBinary _ l r => defines f l || defines f r
  | Core.ETernary c a b => defines f c || defines f a || defines f b
  | Core.ECall callee args => defines f callee || existsb (defines f) args
  | Core.EIndex a i => defines f a || defines f i
  | Core.EMember a _ => defines f a
  | Core.EAssign _ a => defines f a
  | Core.EFunDef g _ body => String.eqb f g || defines f body
  | Core.ESeq a b => defines f a || defines f b
  end.

(** The call of a name that resolved to neither registry nor local
    scope, and a program that holds one outside its conditional branches
    and function bodies. *)
Definition is_unresolved_call (i : Core.instr) : bool :=
  match i with
  | Core.CallUnresolved _ _ => true
  | _ => false
  end.

Definition refuses (prog : list Core.instr) : bool := existsb is_unresolved_call prog.

(** What a successful emission tells of an expression that defines no
    local function [f]: [f] is no local function after it, and a call of
    [f] that evaluation always reaches is in the program as an unresolved
    call. *)
Definition eager_result (f : string) (e : Core.expr)
  (r : res (list Core.instr * Core.cstate)) : Prop :=
  match r with
  | Ok (code, st') =>
      assoc_lookup f (Core.local_fns st') = None
      /\ (calls_eagerly f e = true -> refuses code = true)
  | Err _ => True
  end.

(** The text of an identifier or operator token. *)
Definition token_text (t : Core.Token) : option string :=
  match Core.kind t with
  | Core.TIdentifier s | Core.TOperator s => Some s
  | _ => None
  end.

Definition token_among (names : list string) (t : Core.Token) : bool :=
  match token_text t with
  | Some s => Core.mem s names
  | None => false
  end.

(** The source text holds an identifier or operator token among [names]. *)
Definition mentions (names : list string) (src : string) : bool :=
  match Core.tokenize src with
  | Ok toks => existsb (token_among names) toks
  | Err _ => false
  end.

(** The names the two wrappers configure differently: the unary operator
    the one keeps and the other drops, and the built-in constants the one
    clears and the other keeps. *)
Definition differing_names : list string := ["not"; "E"; "PI"; "true"; "false"].

(** The parser instances the two wrappers build over the core. *)
Definition lib_parser opts fns := SafeEvaluatorLib.restricted_parser (Core.api opts fns).
Definition se_parser opts fns := SafeEvaluator.restricted_parser (Core.api opts fns).

(** The source text names a property of object identity or prototype
    ancestry. *)
Definition is_ancestry_token (t : Core.Token) : bool :=
  match Core.kind t with
  | Core.TIdentifier s => Core.is_ancestry_name s
  | _ => false
  end.

Definition names_ancestry (src : string) : bool :=
  match Core.tokenize src with
  | Ok toks => existsb is_ancestry_token toks
  | Err _ => false
  end.

(** A value of the expression language: a primitive, or an array of
    such values; no host callable and no host object. *)
Fixpoint language_value (v : value) : bool :=
  match v with
  | VUndefined | VNull | VBool _ | VNum _ | VStr _ => true
  | VArray elems => forallb language_value elems
  | VSymbol _ | VBigInt _ | VFunction _ | VObject _ | VObjectWith _ _ => false
  end.

(** An operator whose results are values of the language. *)
Definition op_ok (op : operator_entry) : Prop :=
  forall args v, op_implementation op args = Ok v -> language_value v = true.

Definition slot_ok (slot : option operator_entry) : Prop :=
  match slot with
  | Some op => op_ok op
  | None => True
  end.

Definition registries_ok (p : Parser) : Prop :=
  (forall s op, unaryOps p !! s = Some op -> op_ok op)
  /\ (forall s op, binaryOps p !! s = Some op -> op_ok op)
  /\ (forall s v, consts p !! s = Some v -> language_value v = true).

Definition ctoken_ok (c : Core.ctoken * nat) : Prop :=
  match fst c with
  | Core.COp _ u b => slot_ok u /\ slot_ok b
  | Core.CConst _ v => language_value v = true
  | _ => True
  end.

Inductive expr_ok : Core.expr -> Prop :=
| ok_num q : expr_ok (Core.ENum q)
| ok_str s : expr_ok (Core.EStr s)
| ok_const x v : language_value v = true -> expr_ok (Core.EConst x v)
| ok_name x : expr_ok (Core.EName x)
| ok_array items : Forall expr_ok items -> expr_ok (Core.EArray items)
| ok_unary op a : op_ok op -> expr_ok a -> expr_ok (Core.EUnary op a)
| ok_binary op l r : op_ok op -> expr_ok l -> expr_ok r -> expr_ok (Core.EBinary op l r)
| ok_ternary c a b : expr_ok c -> expr_ok a -> expr_ok b -> expr_ok (Core.ETernary c a b)
| ok_call callee args :
    expr_ok callee -> Forall expr_ok args -> expr_ok (Core.ECall callee args)
| ok_index a i : expr_ok a -> expr_ok i -> expr_ok (Core.EIndex a i)
| ok_member a name : expr_ok a -> expr_ok (Core.EMember a name)
| ok_assign x a : expr_ok a -> expr_ok (Core.EAssign x a)
| ok_fundef f ps body : expr_ok body -> expr_ok (Core.EFunDef f ps body)
| ok_seq a b : expr_ok a -> expr_ok b -> expr_ok (Core.ESeq a b).

(** What a successful parse of well-resolved tokens gives. *)
Definition parsed_ok (r : res (Core.expr * Core.tokens)) : Prop :=
  match r with
  | Ok (e, rest) => expr_ok e /\ Forall ctoken_ok rest
  | Err _ => True
  end.

Definition parsed_list_ok (r : res (list Core.expr * Core.tokens)) : Prop :=
  match r with
  | Ok (es, rest) => Forall expr_ok es /\ Forall ctoken_ok rest
  | Err _ => True
  end.

(** Instructions that push and call only within the language; a call of
    a registry function does not occur under an empty function registry. *)
Inductive instr_ok : Core.instr -> Prop :=
| ok_push v : language_value v = true -> instr_ok (Core.PushLiteral v)
| ok_load x : instr_ok (Core.LoadVariable x)
| ok_operator op n : op_ok op -> instr_ok (Core.CallOperator op n)
| ok_local_call f n : instr_ok (Core.CallLocalFunction f n)
| ok_unresolved_call f n : instr_ok (Core.CallUnresolved f n)
| ok_make_array n : instr_ok (Core.MakeArray n)
| ok_index_instr : instr_ok Core.Index
| ok_member_access name : instr_ok (Core.MemberAccess name)
| ok_assign_instr x : instr_ok (Core.Assign x)
| ok_define f ps body :
    Forall instr_ok body -> instr_ok (Core.DefineLocalFunction f ps body)
| ok_conditional thn els :
    Forall instr_ok thn -> Forall instr_ok els -> instr_ok (Core.Conditional thn els)
| ok_sequence : instr_ok Core.Sequence.

Definition closure_ok (c : string * Core.closure) : Prop :=
  match snd c with
  | Core.Closure _ body captured =>
      Forall instr_ok body /\ Forall (fun kv => language_value (snd kv) = true) captured
  end.

(** Every own property of the binding map holds a value of the language. *)
Definition bindings_ok (b : value) : Prop :=
  forall k, hasOwnProperty b k = true -> language_value (get b k) = true.

Definition machine_ok (m : Core.machine) : Prop :=
  Forall (fun v => language_value v = true) (Core.stack m)
  /\ Forall (fun kv => language_value (snd kv) = true) (Core.locals m)
  /\ Forall closure_ok (Core.local_functions m)
  /\ bindings_ok (Core.bindings m).

Definition run_ok (r : Core.run_result) : Prop :=
  match r with
  | Core.Running m => machine_ok m
  | Core.Failed _ _ => True
  end.

(** What a successful emission gives. *)
Definition emitted_ok (r : res (list Core.instr * Core.cstate)) : Prop :=
  match r with
  | Ok (code, _) => Forall instr_ok code
  | Err _ => True
  end.

(** A configuration that enables no optional grammar feature, and one
    that enables them all; both leave room for the expressions below. *)
Definition strict_options : options := mkOptions false false false 64 1024.
Definition permissive_options : options := mkOptions true true true 64 1024.

(** ** Vocabulary of the further properties of the wrappers *)

(** Every own property of the variables object holds a primitive. *)
Definition validated (variables : value) : Prop :=
  forall k, hasOwnProperty variables k = true -> is_primitive (get variables k) = true.

(** Every own enumerable property of the variables object holds a
    primitive: what the validation loops of the two versions check. *)
Definition enumerable_validated (variables : value) : Prop :=
  forall k, In k (for_in_keys variables) -> is_primitive (get variables k) = true.

(** Every listed identifier is an own property of the variables object. *)
Definition covers (variables : value) (identifiers : list string) : Prop :=
  forall x, In x identifiers -> hasOwnProperty variables x = true.

(** The conditions under which [evaluate] of src/lib/safe-evaluator.js
    hands back [result]: the expression is a string the restricted parser
    accepts, the variables argument is a non-null object that is no array
    and whose enumerable properties hold primitives only, every symbol
    the parser lists for the expression is an own property of it, and
    evaluating the parsed expression over it gives [result]. *)
Definition lib_accepts (P : ParserApi) (expression variables result : value) : Prop :=
  typeof expression = "string"
  /\ typeof variables = "object" /\ is_null variables = false /\ isArray variables = false
  /\ enumerable_validated variables
  /\ exists expr syms,
      parser_parse P (SafeEvaluatorLib.restricted_parser P) (string_of_value expression)
      = inl expr
      /\ expr_symbols P expr = inl syms
      /\ covers variables syms
      /\ fst (expr_evaluate P expr variables) = inl result.

(** The object [variables] names in src/unnamed/part_000 once an omitted
    argument has been replaced by [{}]. *)
Definition se_bindings (variables : value) : value :=
  if is_undefined variables then VObject [] else variables.

(** The conditions under which [evaluate] of src/unnamed/part_000 hands
    back [result]. *)
Definition se_accepts (P : ParserApi) (expression variables result : value) : Prop :=
  typeof expression = "string"
  /\ (is_undefined variables = true
      \/ (typeof variables = "object" /\ is_null variables = false))
  /\ enumerable_validated (se_bindings variables)
  /\ exists expr ids,
      parser_parse P (SafeEvaluator.restricted_parser P) (string_of_value expression)
      = inl expr
      /\ expr_variables P expr = inl ids
      /\ covers (se_bindings variables) ids
      /\ fst (expr_evaluate P expr (se_bindings variables)) = inl result.

(** The same parser surface with another instance behind [new Parser()]. *)
Definition with_parser (P : ParserApi) (p : Parser) : ParserApi :=
  mkApi (Expression P) p (parser_parse P) (expr_symbols P) (expr_variables P)
    (expr_evaluate P).

(** ** src/unnamed/part_001, migration instructions: a caller of the safe evaluator *)

Module Migration.
Section Caller.
Variable P : ParserApi.

(** The characters of a string under their indices. *)
Definition chars (s : string) : list (string * value) :=
  combine (map string_of_nat (seq 0 (String.length s)))
          (map (fun c => VStr (String c EmptyString)) (list_ascii_of_string s)).

(** [Object.entries(o)]: the own enumerable properties of [o] with
    their values, in enumeration order; a TypeError ([None]) on undefined
    and null. *)
Definition entries (o : value) : option (list (string * value)) :=
  match o with
  | VUndefined | VNull => None
  | VStr s => Some (chars s)
  | VObject _ | VArray _ | VObjectWith _ _ =>
      Some (map (fun k => (k, get o k)) (for_in_keys o))
  | VBool _ | VNum _ | VSymbol _ | VBigInt _ | VFunction _ => Some []
  end.

(** A data property set on an object: an existing key keeps its place, a
    new key comes last. *)
Fixpoint set_property (key : string) (val : value) (props : list (string * value))
  : list (string * value) :=
  match props with
  | [] => [(key, val)]
  | (k, v) :: rest =>
      if String.eqb key k then (key, val) :: rest else (k, v) :: set_property key val rest
  end.

(** [safeInputs[key] = value] on the object the literal [{}] made.  Under
    the key [__proto__] the assignment reaches the setter [safeInputs]
    inherits from [Object.prototype] and creates no property: the setter
    drops a number, a boolean and a string, and for null it takes the
    prototype of [safeInputs] away, which leaves its own properties as
    they are.  The loop meets that key once at most, the keys of
    [Object.entries] being distinct. *)
Definition assign (key : string) (val : value) (props : list (string * value))
  : list (string * value) :=
  if String.eqb key "__proto__" then props else set_property key val props.

(** The loop over the entries: the properties of [safeInputs] when it
    ends, the message when it throws. *)
Fixpoint sanitize (es safeInputs : list (string * value))
  : list (string * value) + string :=
  match es with
  | [] => inl safeInputs
  | (key, val) :: rest =>
      if String.eqb (typeof val) "number" || String.eqb (typeof val) "boolean"
         || String.eqb (typeof val) "string" || is_null val
      then sanitize rest (assign key val safeInputs)
      else inr ("Invalid input type for " +:+ key)
  end.

(** The body of the try block. *)
Definition attempt (formula userInputs : value) : outcome :=
  match entries userInputs with
  | None => Throw "Cannot convert undefined or null to object"
  | Some es =>
      match sanitize es [] with
      | inr msg => Throw msg
      | inl safeInputs => fst (SafeEvaluatorLib.evaluate P formula (VObject safeInputs))
      end
  end.

(** [calculateUserFormula(formula, userInputs)]: the outcome, and the
    lines the call writes with [console.error]. *)
Definition calculateUserFormula (formula userInputs : value) : outcome * list string :=
  match attempt formula userInputs with
  | Return v => (Return v, [])
  | Throw msg => (Throw msg, ["Formula evaluation failed: " +:+ msg])
  end.
End Caller.
End Migration.

(** The values [calculateUserFormula] lets through: numbers, booleans,
    strings and null. *)
Definition is_clean (v : value) : bool :=
  match v with
  | VNull | VBool _ | VNum _ | VStr _ => true
  | _ => false
  end.

(** The properties of an object, an own property named [__proto__]
    apart. *)
Definition without_proto (props : list (string * value)) : list (string * value) :=
  List.filter (fun kv => negb (String.eqb (fst kv) "__proto__")) props.

(** The first entry whose value is not let through. *)
Definition first_unclean (es : list (string * value)) : option (string * value) :=
  find (fun kv => negb (is_clean (snd kv))) es.

(** ** The rollup configurations *)

(** src/rollup.config.js exports one configuration object; Node hands the
    same object to every module that requires it.  src/rollup-min.config.js
    and src/rollup-esm.config.js derive their configurations from it.  The
    objects live in a heap, a list of cells, and are named by their
    location in it, so that a write through one name is seen through
    every other name of the same object. *)
Module Rollup.

Inductive cval : Type :=
| CUndefined
| CNull
| CBool (b : bool)
| CStr (s : string)
| CRef (l : nat).

(** An object or an array with its own enumerable properties in
    enumeration order; an array holds its elements under their indices. *)
Record cell : Type := mkCell {
  is_array : bool;
  props : list (string * cval)
}.

(** A new object: the heap with it, and its location. *)
Definition alloc (c : cell) (h : list cell) : list cell * nat := (h ++ [c], length h).

(** The characters of a string under their indices. *)
Definition chars (s : string) : list (string * cval) :=
  combine (map string_of_nat (seq 0 (String.length s)))
          (map (fun c => CStr (String c EmptyString)) (list_ascii_of_string s)).

(** The properties [{ ...v }] copies: the own enumerable properties of an
    object or array, the characters of a string, nothing for undefined,
    null and booleans. *)
Definition spread (h : list cell) (v : cval) : list (string * cval) :=
  match v with
  | CRef l => match h !! l with
              | Some c => props c
              | None => []
              end
  | CStr s => chars s
  | CUndefined | CNull | CBool _ => []
  end.

(** A property set in a list of properties: an existing key keeps its
    place, a new key comes last. *)
Fixpoint set_key (k : string) (v : cval) (ps : list (string * cval))
  : list (string * cval) :=
  match ps with
  | [] => [(k, v)]
  | (k', v') :: rest =>
      if String.eqb k k' then (k, v) :: rest else (k', v') :: set_key k v rest
  end.

(** [v.k] for a data property: a TypeError ([None]) on undefined and
    null, undefined for a property the value does not own. *)
Definition read (h : list cell) (v : cval) (k : string) : option cval :=
  match v with
  | CUndefined | CNull => None
  | CRef l => Some (default CUndefined (c ← h !! l; assoc_lookup k (props c)))
  | CStr s => Some (default CUndefined (assoc_lookup k (chars s)))
  | CBool _ => Some CUndefined
  end.

(** [v.k = x]: a TypeError ([None]) on undefined and null; outside
    strict mode a write to a string or boolean is dropped. *)
Definition write (v : cval) (k : string) (x : cval) (h : list cell) : option (list cell) :=
  match v with
  | CUndefined | CNull => None
  | CRef l =>
      match h !! l with
      | Some c => Some (<[l := mkCell (is_array c) (set_key k x (props c))]> h)
      | None => Some h
      end
  | CStr _ | CBool _ => Some h
  end.

(** src/rollup.config.js: the exported configuration. *)
Definition rollup_config (h : list cell) : list cell * cval :=
  let '(h, output) :=
    alloc (mkCell false [("file", CStr "dist/bundle.js"); ("format", CStr "umd");
                         ("name", CStr "exprEval"); ("exports", CStr "named")]) h in
  let '(h, plugins) := alloc (mkCell true []) h in
  let '(h, config) :=
    alloc (mkCell false [("input", CStr "index.js"); ("output", CRef output);
                         ("plugins", CRef plugins)]) h in
  (h, CRef config).

(** src/rollup-min.config.js, given what [require('./rollup.config.js')]
    returns and the plugin object [terser()] builds: the heap the module
    leaves and the configuration it exports. *)
Definition rollup_min_config (rollupConfig : cval) (terser : cell) (h : list cell)
  : option (list cell * cval) :=
  let '(h, minifiedConfig) := alloc (mkCell false (spread h rollupConfig)) h in
  base_output ← read h rollupConfig "output";
  let '(h, output) := alloc (mkCell false (spread h base_output)) h in
  h ← write (CRef minifiedConfig) "output" (CRef output) h;
  let '(h, plugin) := alloc terser h in
  let '(h, plugins) := alloc (mkCell true [("0", CRef plugin)]) h in
  h ← write (CRef minifiedConfig) "plugins" (CRef plugins) h;
  target ← read h (CRef minifiedConfig) "output";
  h ← write target "file" (CStr "dist/bundle.min.js") h;
  Some (h, CRef minifiedConfig).

(** src/rollup-esm.config.js, given what [require('./rollup.config.js')]
    returns. *)
Definition rollup_esm_config (rollupConfig : cval) (h : list cell) : option (list cell * cval) :=
  let '(h, esmConfig) := alloc (mkCell false (spread h rollupConfig)) h in
  let '(h, plugins) := alloc (mkCell true []) h in
  h ← write (CRef esmConfig) "plugins" (CRef plugins) h;
  base_output ← read h rollupConfig "output";
  let '(h, output) :=
    alloc (mkCell false
             (set_key "format" (CStr "esm")
                (set_key "file" (CStr "dist/index.mjs") (spread h base_output)))) h in
  h ← write (CRef esmConfig) "output" (CRef output) h;
  Some (h, CRef esmConfig).

End Rollup.

(** The own properties of the object the [output] of a configuration
    names. *)
Definition output_props (h : list Rollup.cell) (config : Rollup.cval)
  : list (string * Rollup.cval) :=
  Rollup.spread h (default Rollup.CUndefined (Rollup.read h config "output")).

(** Every object of [h] is in [h'] as it was. *)
Definition preserves (h h' : list Rollup.cell) : Prop :=
  forall l c, h !! l = Some c -> h' !! l = Some c.

(** The [output] of a configuration object, when it names an object,
    names one of the heap. *)
Definition output_allocated (h : list Rollup.cell) (base : Rollup.cell) : Prop :=
  forall l', assoc_lookup "output" (Rollup.props base) = Some (Rollup.CRef l') ->
             is_Some (h !! l').

(** The heap once src/rollup.config.js has run, and the location of the
    configuration it exports. *)
Definition base_heap : list Rollup.cell := fst (Rollup.rollup_config []).
Definition base_location : nat := 2.

(** A stand-in for the plugin object [terser()] builds. *)
Definition terser_plugin : Rollup.cell :=
  Rollup.mkCell false [("name", Rollup.CStr "terser")].

(** ** Sample parsers and registries of the examples *)

(** A parser whose identifier listing fails. *)
Definition failing_analysis : ParserApi :=
  mkApi unit (Core.new_parser strict_options ∅)
    (fun _ _ => inl tt) (fun _ => inr "no symbols") (fun _ => inr "no symbols")
    (fun _ variables => (inl VUndefined, variables)).

(** A parser instance with a function, a constant and a further unary
    operator registered besides the default operators. *)
Definition parser_with_builtins : Parser :=
  mkParser
    (<["sqrt" := mkOperator "sqrt" 11 RightAssoc Unary (fun _ => Ok (VNum 0))]>
       Core.default_unaryOps)
    Core.default_binaryOps
    (<["exec" := mkFunction "exec" 0 8 (fun _ => Ok (VFunction 0))]> ∅)
    (<["PI" := VNum 3]> ∅)
    strict_options.

(** The object [Object.defineProperty({ x: 1 }, 'f', { value: fn })]
    gives: the function [f] is an own property that is not enumerable. *)
Definition hidden_function_bindings : value :=
  VObjectWith [("f", VFunction 0)] [("x", VNum 1)].

(** ** The wrappers over a parser that keeps state *)

(** The surface of the bundled parser when its operations read and change
    a state the caller does not see (a module-level variable of
    dist/bundle, a cache, a counter): each operation takes the state and
    hands it back with its answer. *)
Record StatefulApi : Type := mkStateful {
  World : Type;
  SExpression : Type;
  s_new_Parser : World -> Parser * World;
  s_parse : Parser -> string -> World -> (SExpression + string) * World;
  s_symbols : SExpression -> World -> (list string + string) * World;
  s_variables : SExpression -> World -> (list string + string) * World;
  s_evaluate : SExpression -> value -> World -> ((value + string) * value) * World
}.

Module Stateful.
Section Wrappers.
Variable S : StatefulApi.

(** The registries src/lib/safe-evaluator.js leaves to the instance
    [new Parser()] has made (lines 80-93). *)
Definition lib_restrict (parser : Parser) : Parser :=
  let parser := set_functions ∅ parser in
  let parser := set_unaryOps (pick ["-"; "+"; "not"] (unaryOps parser)) parser in
  set_consts ∅ parser.

(** [evaluate] of src/lib/safe-evaluator.js (lines 46-128), the state of
    the parser threaded through its calls in the order the function makes
    them.  The function keeps no state of its own: the module holds the
    constant [Parser] and nothing else. *)
Definition lib_evaluate (expression variables : value) (w : World S)
  : (outcome * value) * World S :=
  if negb (String.eqb (typeof expression) "string")
  then ((Throw "Expression must be a string", variables), w)
  else if negb (truthy variables) || negb (String.eqb (typeof variables) "object")
          || isArray variables
  then ((Throw "Variables must be an object", variables), w)
  else
    match SafeEvaluatorLib.validate_loop variables (for_in_keys variables) with
    | Some msg => ((Throw msg, variables), w)
    | None =>
        let '(parser, w) := s_new_Parser S w in
        match s_parse S (lib_restrict parser) (string_of_value expression) w with
        | (inr msg, w) => ((Throw ("Failed to parse expression: " +:+ msg), variables), w)
        | (inl expr, w) =>
            match s_symbols S expr w with
            | (inr msg, w) =>
                ((Throw ("Failed to analyze expression: " +:+ msg), variables), w)
            | (inl syms, w) =>
                match SafeEvaluatorLib.check_symbols variables syms with
                | Some msg => ((Throw msg, variables), w)
                | None =>
                    match s_evaluate S expr variables w with
                    | ((inl result, after), w) => ((Return result, after), w)
                    | ((inr msg, after), w) =>
                        ((Throw ("Failed to evaluate expression: " +:+ msg), after), w)
                    end
                end
            end
        end
    end.

(** The registries src/unnamed/part_000 leaves (lines 127-139). *)
Definition se_restrict (parser : Parser) : Parser :=
  let parser := set_functions ∅ parser in
  let allowedUnaryOps := pick ["-"; "+"] (unaryOps parser) in
  set_unaryOps allowedUnaryOps parser.

(** The steps of [evaluate] of src/unnamed/part_000 once [variables]
    names an object. *)
Definition se_evaluate_with (expression variables : value) (w : World S)
  : (outcome * value) * World S :=
  match SafeEvaluator.validateVariables variables with
  | Some msg => ((Throw msg, variables), w)
  | None =>
      let '(parser, w) := s_new_Parser S w in
      match s_parse S (se_restrict parser) (string_of_value expression) w with
      | (inr msg, w) => ((Throw ("Failed to parse expression: " +:+ msg), variables), w)
      | (inl expr, w) =>
          match s_variables S expr w with
          | (inr msg, w) => ((Throw msg, variables), w)
          | (inl identifiers, w) =>
              match SafeEvaluator.validateIdentifiers identifiers variables with
              | Some msg => ((Throw msg, variables), w)
              | None =>
                  match s_evaluate S expr variables w with
                  | ((inl result, after), w) => ((Return result, after), w)
                  | ((inr msg, after), w) =>
                      ((Throw ("Failed to evaluate expression: " +:+ msg), after), w)
                  end
              end
          end
      end
  end.

(** [evaluate] of src/unnamed/part_000 (lines 112-161), the state of the
    parser threaded through its calls. *)
Definition se_evaluate (expression variables : value) (w : World S)
  : (outcome * value) * World S :=
  if negb (String.eqb (typeof expression) "string")
  then ((Throw "Expression must be a string", variables), w)
  else if is_undefined variables
  then let '(r, w) := se_evaluate_with expression (VObject []) w in ((fst r, variables), w)
  else if is_null variables || negb (String.eqb (typeof variables) "object")
  then ((Throw "Variables must be an object", variables), w)
  else se_evaluate_with expression variables w.
End Wrappers.
End Stateful.

(** The answers of the parser's operations do not depend on the state
    they find: section 8 of the specification (for fixed source text,
    registries and bindings, repeated calls return identical results). *)
Definition answers_alike (S : StatefulApi) : Prop :=
  (forall w w', fst (s_new_Parser S w) = fst (s_new_Parser S w'))
  /\ (forall p src w w', fst (s_parse S p src w) = fst (s_parse S p src w'))
  /\ (forall e w w', fst (s_symbols S e w) = fst (s_symbols S e w'))
  /\ (forall e w w', fst (s_variables S e w) = fst (s_variables S e w'))
  /\ (forall e b w w', fst (s_evaluate S e b w) = fst (s_evaluate S e b w')).

(** A parser that counts the calls of its operations and answers as [P]
    does. *)
Definition counting (P : ParserApi) : StatefulApi :=
  mkStateful nat (Expression P)
    (fun w => (new_Parser P, S w))
    (fun p src w => (parser_parse P p src, S w))
    (fun e w => (expr_symbols P e, S w))
    (fun e w => (expr_variables P e, S w))
    (fun e b w => (expr_evaluate P e b, S w)).

(** A parser that counts the calls of its operations and lets the count
    show: [expr.evaluate] returns it. *)
Definition leaking (P : ParserApi) : StatefulApi :=
  mkStateful nat (Expression P)
    (fun w => (new_Parser P, S w))
    (fun p src w => (parser_parse P p src, S w))
    (fun e w => (expr_symbols P e, S w))
    (fun e w => (expr_variables P e, S w))
    (fun e b w => ((inl (VNum (inject_Z (Z.of_nat w))), b), S w)).

(** ** The input guards *)

Section Guards.
Variable P : ParserApi.

Lemma lib_not_string expression variables :
  typeof expression <> "string" ->
  SafeEvaluatorLib.evaluate P expression variables
  = (Throw "Expression must be a string", variables).
Proof.
  intros H. unfold SafeEvaluatorLib.evaluate.
  destruct (String.eqb_spec (typeof expression) "string"); [contradiction | reflexivity].
Qed.

Lemma se_not_string expression variables :
  typeof expression <> "string" ->
  SafeEvaluator.evaluate P expression variables
  = (Throw "Expression must be a string", variables).
Proof.
  intros H. unfold SafeEvaluator.evaluate.
  destruct (String.eqb_spec (typeof expression) "string"); [contradiction | reflexivity].
Qed.

Lemma typeof_string_inv v : typeof v = "string" -> exists s, v = VStr s.
Proof. destruct v; simpl; intros H; try discriminate. eauto. Qed.

Lemma lib_not_object src variables :
  is_null variables = true \/ typeof variables <> "object" ->
  SafeEvaluatorLib.evaluate P (VStr src) variables
  = (Throw "Variables must be an object", variables).
Proof.
  intros H. unfold SafeEvaluatorLib.evaluate. simpl.
  destruct variables; simpl in *; rewrite ?orb_true_r; simpl; try reflexivity;
    destruct H as [H | H]; try discriminate; try (exfalso; apply H; reflexivity).
Qed.

Lemma lib_guard_passes variables :
  is_object variables = true ->
  negb (truthy variables) || negb (String.eqb (typeof variables) "object")
  || isArray variables = false.
Proof. destruct variables; simpl; intros H; try discriminate; reflexivity. Qed.

Lemma se_guard_passes variables :
  is_object variables = true ->
  is_undefined variables = false
  /\ is_null variables || negb (String.eqb (typeof variables) "object") = false.
Proof. destruct variables; simpl; intros H; try discriminate; split; reflexivity. Qed.

Lemma se_not_object src variables :
  variables <> VUndefined ->
  is_null variables = true \/ typeof variables <> "object" ->
  SafeEvaluator.evaluate P (VStr src) variables
  = (Throw "Variables must be an object", variables).
Proof.
  intros Hu H. unfold SafeEvaluator.evaluate. simpl.
  destruct variables; simpl in *; try reflexivity; try contradiction;
    destruct H as [H | H]; try discriminate; try (exfalso; apply H; reflexivity).
Qed.
End Guards.

(** ** The validation of binding values *)

Lemma lib_check_primitive key v :
  is_primitive v = true -> SafeEvaluatorLib.check_value key v = None.
Proof. destruct v; simpl; intros H; try discriminate; reflexivity. Qed.

Lemma lib_check_rejected key v :
  is_primitive v = false ->
  SafeEvaluatorLib.check_value key v = Some (lib_rejection key (typeof v)).
Proof. destruct v; simpl; intros H; try discriminate; reflexivity. Qed.

Lemma se_check_primitive key v :
  is_primitive v = true -> SafeEvaluator.validatePrimitive v key = None.
Proof. destruct v; simpl; intros H; try discriminate; reflexivity. Qed.

Lemma se_check_rejected key v :
  is_primitive v = false ->
  exists msg, SafeEvaluator.validatePrimitive v key = Some msg.
Proof. destruct v; simpl; intros H; try discriminate; eauto. Qed.

Lemma lib_validate_loop_find variables keys :
  SafeEvaluatorLib.validate_loop variables keys
  = match find (rejects variables) keys with
    | Some k => SafeEvaluatorLib.check_value k (get variables k)
    | None => None
    end.
Proof.
  induction keys as [| k keys IH]; simpl; [reflexivity |].
  unfold rejects at 1.
  destruct (hasOwnProperty variables k); simpl; [| exact IH].
  destruct (is_primitive (get variables k)) eqn:Hp; simpl.
  - rewrite lib_check_primitive by exact Hp. exact IH.
  - rewrite lib_check_rejected by exact Hp. reflexivity.
Qed.

Lemma se_validate_keys_find variables keys :
  SafeEvaluator.validate_keys variables keys
  = match find (rejects variables) keys with
    | Some k => SafeEvaluator.validatePrimitive (get variables k) k
    | None => None
    end.
Proof.
  induction keys as [| k keys IH]; simpl; [reflexivity |].
  unfold rejects at 1.
  destruct (hasOwnProperty variables k); simpl; [| exact IH].
  destruct (is_primitive (get variables k)) eqn:Hp; simpl.
  - rewrite se_check_primitive by exact Hp. exact IH.
  - destruct (se_check_rejected k _ Hp) as [msg Hmsg]. rewrite Hmsg. reflexivity.
Qed.

Lemma first_rejected_spec variables k :
  first_rejected variables = Some k ->
  hasOwnProperty variables k = true /\ is_primitive (get variables k) = false.
Proof.
  unfold first_rejected. intros H. apply find_some in H as [_ H].
  unfold rejects in H. apply andb_prop in H as [H1 H2].
  split; [exact H1 |]. destruct (is_primitive (get variables k)); [discriminate | reflexivity].
Qed.

Lemma in_assoc_lookup {A : Type} k (props : list (string * A)) :
  In k (map fst props) -> is_Some (assoc_lookup k props).
Proof.
  induction props as [| [k' a] props IH]; simpl; [intros [] |].
  destruct (String.eqb_spec k k') as [-> | Hne]; [eauto |].
  intros [H | H]; [congruence | exact (IH H)].
Qed.

Lemma index_of_key_finds k i n j :
  (i <= j < i + n)%nat -> k = string_of_nat j -> is_Some (index_of_key k i n).
Proof.
  revert i. induction n as [| n IH]; intros i Hj Hk; [lia |]. simpl.
  destruct (String.eqb k (string_of_nat i)) eqn:He; [eauto |].
  apply (IH (S i)); [| exact Hk].
  assert (i <> j) by (intros ->; subst k; rewrite String.eqb_refl in He; discriminate).
  lia.
Qed.

(** Every key a for-in loop visits is an own property. *)
Lemma enumerated_is_own variables k :
  In k (for_in_keys variables) -> hasOwnProperty variables k = true.
Proof.
  destruct variables; simpl; try (intros []).
  - intros H. apply bool_decide_eq_true. exact (in_assoc_lookup _ _ H).
  - intros H. apply in_map_iff in H as [j [Hj Hin]]. apply in_seq in Hin.
    apply orb_true_iff. right. apply bool_decide_eq_true.
    apply (index_of_key_finds k 0 (length elems) j); [lia | congruence].
  - intros H. apply orb_true_iff. left. apply bool_decide_eq_true.
    exact (in_assoc_lookup _ _ H).
Qed.

(** The first enumerable property the validation turns down exists as
    soon as one enumerable property holds no primitive. *)
Lemma first_rejected_enumerated variables k :
  In k (for_in_keys variables) ->
  is_primitive (get variables k) = false ->
  exists k', first_rejected variables = Some k'.
Proof.
  intros Hin Hv. unfold first_rejected.
  destruct (find (rejects variables) (for_in_keys variables)) eqn:Hf; [eauto |].
  exfalso. pose proof (find_none _ _ Hf k Hin) as Hn.
  unfold rejects in Hn. rewrite (enumerated_is_own _ _ Hin), Hv in Hn. discriminate.
Qed.

Lemma first_rejected_enumerable variables :
  first_rejected variables = None
  <-> forall k, In k (for_in_keys variables) -> is_primitive (get variables k) = true.
Proof.
  split.
  - intros H k Hin. destruct (is_primitive (get variables k)) eqn:Hp; [reflexivity |].
    destruct (first_rejected_enumerated variables k Hin Hp) as [k' Hk']. congruence.
  - intros H. unfold first_rejected.
    destruct (find (rejects variables) (for_in_keys variables)) eqn:Hf; [| reflexivity].
    apply find_some in Hf as [Hin Hf]. unfold rejects in Hf.
    apply andb_prop in Hf as [_ H2]. rewrite (H _ Hin) in H2. discriminate.
Qed.

Lemma composite_not_primitive v :
  is_callable_or_composite v = true -> is_primitive v = false.
Proof. destruct v; simpl; intros H; try discriminate; reflexivity. Qed.

Lemma first_rejected_none variables :
  (forall k, hasOwnProperty variables k = true -> is_primitive (get variables k) = true) ->
  first_rejected variables = None.
Proof.
  intros H. unfold first_rejected.
  destruct (find (rejects variables) (for_in_keys variables)) eqn:Hf; [| reflexivity].
  apply find_some in Hf as [_ Hf]. unfold rejects in Hf.
  apply andb_prop in Hf as [H1 H2]. rewrite (H _ H1) in H2. discriminate.
Qed.

Section Validation.
Variable P : ParserApi.

Lemma lib_rejects_first src variables k :
  is_object variables = true ->
  first_rejected variables = Some k ->
  SafeEvaluatorLib.evaluate P (VStr src) variables
  = (Throw (lib_rejection k (typeof (get variables k))), variables).
Proof.
  intros Ho Hf. pose proof (first_rejected_spec _ _ Hf) as [_ Hp].
  unfold SafeEvaluatorLib.evaluate. cbn [typeof].
  change (String.eqb "string" "string") with true. cbn [negb].
  rewrite (lib_guard_passes _ Ho).
  rewrite lib_validate_loop_find. unfold first_rejected in Hf. rewrite Hf.
  rewrite lib_check_rejected by exact Hp. reflexivity.
Qed.

Lemma se_rejects_first src variables k :
  is_object variables = true ->
  first_rejected variables = Some k ->
  exists msg,
    SafeEvaluator.validatePrimitive (get variables k) k = Some msg
    /\ SafeEvaluator.evaluate P (VStr src) variables = (Throw msg, variables).
Proof.
  intros Ho Hf. pose proof (first_rejected_spec _ _ Hf) as [_ Hp].
  destruct (se_check_rejected k _ Hp) as [msg Hmsg]. exists msg. split; [exact Hmsg |].
  destruct (se_guard_passes _ Ho) as [Hu Hg].
  unfold SafeEvaluator.evaluate, SafeEvaluator.evaluate_with, SafeEvaluator.validateVariables.
  cbn [typeof].
  change (String.eqb "string" "string") with true. cbn [negb].
  rewrite Hu, Hg.
  rewrite se_validate_keys_find. unfold first_rejected in Hf. rewrite Hf, Hmsg.
  reflexivity.
Qed.
End Validation.

Lemma prefix_append a b c :
  String.prefix b c = true -> String.prefix (a +:+ b) (a +:+ c) = true.
Proof.
  intros H. induction a as [| ch a IH]; simpl; [exact H |].
  destruct (ascii_dec ch ch); [exact IH | contradiction].
Qed.

Lemma prefix_self a c : String.prefix a (a +:+ c) = true.
Proof.
  induction a as [| ch a IH]; simpl; [destruct c; reflexivity |].
  destruct (ascii_dec ch ch); [exact IH | contradiction].
Qed.

Lemma se_rejection_names_key key v msg :
  SafeEvaluator.validatePrimitive v key = Some msg ->
  String.prefix ("Variable " +:+ dquote +:+ key +:+ dquote) msg = true.
Proof.
  intros H.
  assert (Hshape : exists rest, msg = "Variable " +:+ dquote +:+ key +:+ dquote +:+ rest).
  { destruct v; simpl in H; try discriminate; injection H as <-; eauto. }
  destruct Hshape as [rest ->].
  apply (prefix_append "Variable "). apply (prefix_append dquote).
  apply prefix_append. apply prefix_self.
Qed.

(** ** The identifier check *)

Lemma lib_check_symbols_find variables syms :
  SafeEvaluatorLib.check_symbols variables syms
  = option_map lib_unknown (first_missing variables syms).
Proof.
  unfold first_missing. induction syms as [| x syms IH]; simpl; [reflexivity |].
  destruct (hasOwnProperty variables x); simpl; [exact IH | reflexivity].
Qed.

Lemma se_validateIdentifiers_find variables ids :
  SafeEvaluator.validateIdentifiers ids variables
  = option_map se_unknown (first_missing variables ids).
Proof.
  unfold first_missing. induction ids as [| x ids IH]; simpl; [reflexivity |].
  destruct (hasOwnProperty variables x); simpl; [exact IH | reflexivity].
Qed.

Lemma first_missing_exists variables ids :
  (exists y, In y ids /\ hasOwnProperty variables y = false) ->
  exists x, first_missing variables ids = Some x
            /\ In x ids /\ hasOwnProperty variables x = false.
Proof.
  intros [y [Hin Hy]]. unfold first_missing.
  destruct (find (fun x => negb (hasOwnProperty variables x)) ids) as [x |] eqn:Hf.
  - exists x. apply find_some in Hf as [Hx1 Hx2]. repeat split; auto.
    destruct (hasOwnProperty variables x); [discriminate | reflexivity].
  - pose proof (find_none _ _ Hf y Hin) as Hn. simpl in Hn. rewrite Hy in Hn. discriminate.
Qed.

Lemma first_missing_none variables ids :
  (forall y, In y ids -> hasOwnProperty variables y = true) ->
  first_missing variables ids = None.
Proof.
  intros H. unfold first_missing.
  destruct (find (fun x => negb (hasOwnProperty variables x)) ids) as [x |] eqn:Hf;
    [| reflexivity].
  apply find_some in Hf as [Hx1 Hx2]. rewrite (H _ Hx1) in Hx2. discriminate.
Qed.

Section Stages.
Variable P : ParserApi.

(** What is left of [evaluate] once the guards and the validation of
    the binding values have passed. *)
Lemma lib_after_validation src variables :
  is_object variables = true ->
  first_rejected variables = None ->
  SafeEvaluatorLib.evaluate P (VStr src) variables
  = match parser_parse P (SafeEvaluatorLib.restricted_parser P) src with
    | inr msg => (Throw ("Failed to parse expression: " +:+ msg), variables)
    | inl expr =>
        match expr_symbols P expr with
        | inr msg => (Throw ("Failed to analyze expression: " +:+ msg), variables)
        | inl syms =>
            match first_missing variables syms with
            | Some x => (Throw (lib_unknown x), variables)
            | None => wrap_result (expr_evaluate P expr variables)
            end
        end
    end.
Proof.
  intros Ho Hf. unfold SafeEvaluatorLib.evaluate.
  cbn [typeof string_of_value].
  change (String.eqb "string" "string") with true. cbn [negb].
  rewrite (lib_guard_passes _ Ho).
  rewrite lib_validate_loop_find. unfold first_rejected in Hf. rewrite Hf.
  destruct (parser_parse P _ src) as [expr | msg]; [| reflexivity].
  destruct (expr_symbols P expr) as [syms | msg]; [| reflexivity].
  rewrite lib_check_symbols_find.
  destruct (first_missing variables syms); simpl; [reflexivity |].
  unfold wrap_result. destruct (expr_evaluate P expr variables) as [[v | msg] after];
    reflexivity.
Qed.

Lemma se_with_after_validation src variables :
  first_rejected variables = None ->
  SafeEvaluator.evaluate_with P (VStr src) variables
  = match parser_parse P (SafeEvaluator.restricted_parser P) src with
    | inr msg => (Throw ("Failed to parse expression: " +:+ msg), variables)
    | inl expr =>
        match expr_variables P expr with
        | inr msg => (Throw msg, variables)
        | inl ids =>
            match first_missing variables ids with
            | Some x => (Throw (se_unknown x), variables)
            | None => wrap_result (expr_evaluate P expr variables)
            end
        end
    end.
Proof.
  intros Hf. unfold SafeEvaluator.evaluate_with, SafeEvaluator.validateVariables.
  cbn [string_of_value].
  rewrite se_validate_keys_find. unfold first_rejected in Hf. rewrite Hf.
  destruct (parser_parse P _ src) as [expr | msg]; [| reflexivity].
  destruct (expr_variables P expr) as [ids | msg]; [| reflexivity].
  rewrite se_validateIdentifiers_find.
  destruct (first_missing variables ids); simpl; [reflexivity |].
  unfold wrap_result. destruct (expr_evaluate P expr variables) as [[v | msg] after];
    reflexivity.
Qed.

Lemma se_object src props :
  SafeEvaluator.evaluate P (VStr src) (VObject props)
  = SafeEvaluator.evaluate_with P (VStr src) (VObject props).
Proof. reflexivity. Qed.

Lemma se_plain_object src variables :
  is_object variables = true ->
  SafeEvaluator.evaluate P (VStr src) variables
  = SafeEvaluator.evaluate_with P (VStr src) variables.
Proof.
  intros Ho. destruct (se_guard_passes _ Ho) as [Hu Hg].
  unfold SafeEvaluator.evaluate. cbn [typeof].
  change (String.eqb "string" "string") with true. cbn [negb].
  rewrite Hu, Hg. reflexivity.
Qed.
End Stages.

(** ** The evaluator leaves the binding map alone *)

Lemma take_args_bindings n m args m1 :
  Core.take_args n m = Some (args, m1) -> Core.bindings m1 = Core.bindings m.
Proof.
  unfold Core.take_args. destruct (n <=? length (Core.stack m))%nat; [| discriminate].
  intros H. injection H as _ <-. reflexivity.
Qed.

Lemma apply_impl_bindings impl n m :
  Core.bindings_of (Core.apply_impl impl n m) = Core.bindings m.
Proof.
  unfold Core.apply_impl. destruct (Core.take_args n m) as [[args m1] |] eqn:Ht;
    [| reflexivity].
  apply take_args_bindings in Ht. destruct (impl args); simpl; exact Ht.
Qed.

Lemma exec_bindings nested i m :
  (forall prog m', Core.bindings_of (nested prog m') = Core.bindings m') ->
  Core.bindings_of (Core.exec nested i m) = Core.bindings m.
Proof.
  intros Hn. destruct i; simpl; try reflexivity.
  - destruct (assoc_lookup name (Core.locals m)); [reflexivity |].
    destruct (hasOwnProperty (Core.bindings m) name); reflexivity.
  - apply apply_impl_bindings.
  - apply apply_impl_bindings.
  - destruct (Core.take_args argc m) as [[args m1] |] eqn:Ht; [| reflexivity].
    apply take_args_bindings in Ht.
    destruct (assoc_lookup name (Core.local_functions m1)) as [[ps body captured] |];
      [| exact Ht].
    destruct (length ps =? argc)%nat; [| exact Ht].
    match goal with |- context [nested body ?m0] =>
      pose proof (Hn body m0) as Hb; destruct (nested body m0) as [m2 | e b] end;
      simpl in *.
    + destruct (Core.stack m2); simpl; congruence.
    + congruence.
  - destruct (Core.take_args argc m) as [[args m1] |] eqn:Ht; [| reflexivity].
    apply take_args_bindings in Ht. exact Ht.
  - destruct (Core.take_args count m) as [[args m1] |] eqn:Ht; [| reflexivity].
    apply take_args_bindings in Ht. exact Ht.
  - destruct (Core.stack m) as [| i' [| a s]]; try reflexivity.
    destruct (Core.index_value a i'); reflexivity.
  - destruct (Core.stack m) as [| a s]; try reflexivity.
    destruct (Core.member_value a name); reflexivity.
  - destruct (Core.stack m); reflexivity.
  - destruct (Core.stack m) as [| c s]; [reflexivity |]. rewrite Hn. reflexivity.
  - destruct (Core.stack m) as [| b [| a s]]; reflexivity.
Qed.

Lemma run_program_bindings step prog :
  (forall i m, Core.bindings_of (step i m) = Core.bindings m) ->
  forall m, Core.bindings_of (Core.run_program step prog m) = Core.bindings m.
Proof.
  intros Hs. induction prog as [| i rest IH]; intros m; simpl; [reflexivity |].
  pose proof (Hs i m) as Hi. destruct (step i m) as [m1 | e b]; simpl in *.
  - rewrite IH. exact Hi.
  - exact Hi.
Qed.

Lemma run_bindings depth :
  forall prog m, Core.bindings_of (Core.run depth prog m) = Core.bindings m.
Proof.
  induction depth as [| d IH]; intros prog m; simpl; [reflexivity |].
  apply run_program_bindings. intros i m'. apply exec_bindings. exact IH.
Qed.

Lemma core_evaluate_frame e bindingMap :
  snd (Core.evaluate e bindingMap) = bindingMap.
Proof.
  unfold Core.evaluate.
  pose proof (run_bindings (maxRecursionDepth (Core.limits e)) (Core.instructions e)
                (Core.mkMachine [] [] [] bindingMap)) as H.
  destruct (Core.run _ _ _) as [m | err b]; simpl in *.
  - destruct (Core.stack m) as [| v [| w s]]; simpl; exact H.
  - exact H.
Qed.

(** ** A binding map the parser leaves alone is left alone by the wrappers *)

Section Frame.
Variable P : ParserApi.
Hypothesis evaluate_frame : forall e b, snd (expr_evaluate P e b) = b.

Lemma wrap_result_frame e b : snd (wrap_result (expr_evaluate P e b)) = b.
Proof.
  pose proof (evaluate_frame e b) as H. unfold wrap_result.
  destruct (expr_evaluate P e b) as [[v | msg] after]; exact H.
Qed.

Lemma lib_frame expression variables :
  snd (SafeEvaluatorLib.evaluate P expression variables) = variables.
Proof.
  unfold SafeEvaluatorLib.evaluate.
  repeat match goal with
         | |- snd (if ?c then _ else _) = _ => destruct c
         | |- snd (match ?x with Some _ => _ | None => _ end) = _ => destruct x
         | |- snd (match ?x with inl _ => _ | inr _ => _ end) = _ => destruct x
         end; try reflexivity.
  match goal with |- context [expr_evaluate P ?e ?b] =>
    pose proof (evaluate_frame e b) as H; destruct (expr_evaluate P e b) as [[v | msg] after]
  end; exact H.
Qed.

Lemma se_frame expression variables :
  snd (SafeEvaluator.evaluate P expression variables) = variables.
Proof.
  unfold SafeEvaluator.evaluate, SafeEvaluator.evaluate_with.
  repeat match goal with
         | |- snd (if ?c then _ else _) = _ => destruct c
         | |- snd (match ?x with Some _ => _ | None => _ end) = _ => destruct x
         | |- snd (match ?x with inl _ => _ | inr _ => _ end) = _ => destruct x
         end; try reflexivity.
  match goal with |- context [expr_evaluate P ?e ?b] =>
    pose proof (evaluate_frame e b) as H; destruct (expr_evaluate P e b) as [[v | msg] after]
  end; exact H.
Qed.
End Frame.

(** ** Call targets resolve against the registries and the local scope only *)

Lemma expr_induction (Q : Core.expr -> Prop) :
  (forall q, Q (Core.ENum q)) ->
  (forall s, Q (Core.EStr s)) ->
  (forall x v, Q (Core.EConst x v)) ->
  (forall x, Q (Core.EName x)) ->
  (forall items, Forall Q items -> Q (Core.EArray items)) ->
  (forall op a, Q a -> Q (Core.EUnary op a)) ->
  (forall op l r, Q l -> Q r -> Q (Core.EBinary op l r)) ->
  (forall c a b, Q c -> Q a -> Q b -> Q (Core.ETernary c a b)) ->
  (forall callee args, Q callee -> Forall Q args -> Q (Core.ECall callee args)) ->
  (forall a i, Q a -> Q i -> Q (Core.EIndex a i)) ->
  (forall a name, Q a -> Q (Core.EMember a name)) ->
  (forall x a, Q a -> Q (Core.EAssign x a)) ->
  (forall f ps body, Q body -> Q (Core.EFunDef f ps body)) ->
  (forall a b, Q a -> Q b -> Q (Core.ESeq a b)) ->
  forall e, Q e.
Proof.
  intros Hnum Hstr Hconst Hname Harr Hun Hbin Htern Hcall Hidx Hmem Hasg Hdef Hseq.
  fix IH 1. intros e. destruct e.
  - apply Hnum.
  - apply Hstr.
  - apply Hconst.
  - apply Hname.
  - apply Harr. induction items as [| x rest IHl]; constructor; [apply IH | exact IHl].
  - apply Hun, IH.
  - apply Hbin; apply IH.
  - apply Htern; apply IH.
  - apply Hcall; [apply IH |].
    induction args as [| x rest IHl]; constructor; [apply IH | exact IHl].
  - apply Hidx; apply IH.
  - apply Hmem, IH.
  - apply Hasg, IH.
  - apply Hdef, IH.
  - apply Hseq; apply IH.
Qed.

Lemma emit_array fns opts params items st :
  Core.emit fns opts params (Core.EArray items) st
  = let* '(c, st1) := Core.emit_list fns opts params items st in
    Ok (c ++ [Core.MakeArray (length items)], st1).
Proof.
  simpl. f_equal.
  generalize st. induction items as [| e rest IH]; intros st0; simpl; [reflexivity |].
  destruct (Core.emit fns opts params e st0) as [[c st1] |]; simpl; [| reflexivity].
  rewrite IH. reflexivity.
Qed.

Lemma emit_all_list fns opts params args :
  forall st,
    (fix emit_all (es : list Core.expr) (st : Core.cstate) {struct es}
       : res (list Core.instr * Core.cstate) :=
       match es with
       | [] => Ok ([], st)
       | e' :: rest =>
           let* '(c, st1) := Core.emit fns opts params e' st in
           let* '(cs, st2) := emit_all rest st1 in
           Ok (c ++ cs, st2)
       end) args st
    = Core.emit_list fns opts params args st.
Proof.
  induction args as [| e rest IH]; intros st; simpl; [reflexivity |].
  destruct (Core.emit fns opts params e st) as [[c st1] |]; simpl; [| reflexivity].
  rewrite IH. reflexivity.
Qed.

Lemma emit_call_name fns opts params f args st :
  Core.emit fns opts params (Core.ECall (Core.EName f) args) st
  = if Core.mem f params || Core.mem f (Core.assigned st) then Core.unknown_function f
    else match fns !! f with
         | Some fn =>
             if (minArity fn <=? length args)%nat && (length args <=? maxArity fn)%nat
             then let* '(c, st1) := Core.emit_list fns opts params args st in
                  Ok (c ++ [Core.CallFunction fn (length args)], st1)
             else Err (ParseError ("wrong number of arguments for " +:+ f))
         | None =>
             match assoc_lookup f (Core.local_fns st) with
             | Some _ =>
                 let* '(c, st1) := Core.emit_list fns opts params args st in
                 Ok (c ++ [Core.CallLocalFunction f (length args)], st1)
             | None =>
                 let* '(c, st1) :=
                   Core.emit_list fns opts params args (Core.add_free f st) in
                 Ok (c ++ [Core.CallUnresolved f (length args)], st1)
             end
         end.
Proof.
  cbn [Core.emit]. rewrite !emit_all_list. reflexivity.
Qed.

Lemma emit_call_definition fns opts params g ps body args st :
  Core.emit fns opts params (Core.ECall (Core.EFunDef g ps body) args) st
  = let* '(cd, st1) := Core.emit fns opts params (Core.EFunDef g ps body) st in
    let* '(c, st2) := Core.emit_list fns opts params args st1 in
    Ok (cd ++ c ++ [Core.CallLocalFunction g (length args); Core.Sequence], st2).
Proof.
  cbn [Core.emit].
  destruct (negb (enableLocalFunctionDefinition opts)); [reflexivity |].
  destruct (Core.emit fns opts (ps ++ params) body _) as [[cb stb] |]; simpl; [| reflexivity].
  rewrite emit_all_list. reflexivity.
Qed.

Lemma refuses_app a b : refuses (a ++ b) = refuses a || refuses b.
Proof. apply existsb_app. Qed.

Lemma add_free_local_fns x st : Core.local_fns (Core.add_free x st) = Core.local_fns st.
Proof. unfold Core.add_free. destruct (Core.mem x (Core.free st)); reflexivity. Qed.

Lemma emit_list_eager fns opts f params items :
  Forall (fun e => forall params st,
                   defines f e = false -> assoc_lookup f (Core.local_fns st) = None ->
                   eager_result f e (Core.emit fns opts params e st)) items ->
  forall st,
    existsb (defines f) items = false ->
    assoc_lookup f (Core.local_fns st) = None ->
    match Core.emit_list fns opts params items st with
    | Ok (code, st') =>
        assoc_lookup f (Core.local_fns st') = None
        /\ (existsb (calls_eagerly f) items = true -> refuses code = true)
    | Err _ => True
    end.
Proof.
  induction 1 as [| e rest He _ IH]; intros st Hd Hst; simpl.
  - split; [exact Hst | discriminate].
  - simpl in Hd. apply orb_false_elim in Hd as [Hd1 Hd2].
    pose proof (He params st Hd1 Hst) as H1.
    destruct (Core.emit fns opts params e st) as [[c st1] |]; simpl; [| exact I].
    destruct H1 as [Hl1 Hc1].
    pose proof (IH st1 Hd2 Hl1) as H2.
    destruct (Core.emit_list fns opts params rest st1) as [[cs st2] |]; simpl; [| exact I].
    destruct H2 as [Hl2 Hc2]. split; [exact Hl2 |].
    intros Hc. rewrite refuses_app. apply orb_prop in Hc as [Hc | Hc].
    + rewrite (Hc1 Hc). reflexivity.
    + rewrite (Hc2 Hc). apply orb_true_r.
Qed.

Ltac sub_eager IH params st Hd Hst c st1 Hl Hc :=
  let H := fresh "H" in
  pose proof (IH params st Hd Hst) as H;
  destruct (Core.emit _ _ params _ st) as [[c st1] |]; cbn [res_bind eager_result] in H |- *;
  [destruct H as [Hl Hc] | exact I].

Ltac eager_code :=
  rewrite ?refuses_app;
  repeat match goal with
         | H : ?a = true -> refuses ?c = true, H' : ?a = true |- _ =>
             rewrite (H H'); clear H
         end;
  rewrite ?orb_true_r; reflexivity.

(** A call form of a name that is neither a registry function nor a
    local function of the expression, at a place evaluation always
    reaches, compiles to an instruction [CallUnresolved] at the top level
    of the program. *)
Lemma emit_eager fns opts f e :
  fns !! f = None ->
  forall params st,
    defines f e = false -> assoc_lookup f (Core.local_fns st) = None ->
    eager_result f e (Core.emit fns opts params e st).
Proof.
  intros Hf.
  induction e using expr_induction; intros params st Hd Hst.
  - simpl. split; [exact Hst | discriminate].
  - simpl. split; [exact Hst | discriminate].
  - simpl. split; [exact Hst | discriminate].
  - simpl. destruct (_ || _); simpl; rewrite ?add_free_local_fns;
      (split; [exact Hst | discriminate]).
  - rewrite emit_array. cbn [defines calls_eagerly] in *.
    pose proof (emit_list_eager fns opts f params items H st Hd Hst) as H1.
    destruct (Core.emit_list fns opts params items st) as [[c st1] |]; simpl; [| exact I].
    destruct H1 as [Hl Hc]. split; [exact Hl |]. intros Hx. eager_code.
  - cbn [defines calls_eagerly Core.emit] in *.
    sub_eager IHe params st Hd Hst c1 st1 Hl Hc. split; [exact Hl |]. intros Hx. eager_code.
  - cbn [defines calls_eagerly Core.emit] in *. apply orb_false_elim in Hd as [Hd1 Hd2].
    sub_eager IHe1 params st Hd1 Hst c1 st1 Hl1 Hc1.
    sub_eager IHe2 params st1 Hd2 Hl1 c2 st2 Hl2 Hc2.
    split; [exact Hl2 |]. intros Hx. apply orb_prop in Hx as [Hx | Hx].
    + eager_code.
    + apply andb_prop in Hx as [_ Hx]. eager_code.
  - cbn [defines calls_eagerly Core.emit] in *. apply orb_false_elim in Hd as [Hd12 Hd3].
    apply orb_false_elim in Hd12 as [Hd1 Hd2].
    sub_eager IHe1 params st Hd1 Hst c1 st1 Hl1 Hc1.
    destruct (Core.emit fns opts params e2 st1) as [[ca sta] |]; simpl; [| exact I].
    destruct (Core.emit fns opts params e3 _) as [[cb stb] |]; simpl; [| exact I].
    split; [exact Hl1 |]. intros Hx. eager_code.
  - cbn [defines] in Hd. apply orb_false_elim in Hd as [Hd1 Hd2].
    destruct e; try exact I.
    + rewrite emit_call_name. destruct (_ || _); [exact I |].
      cbn [calls_eagerly called_name].
      destruct (fns !! x) as [fn |] eqn:Hx.
      * destruct (_ && _); [| exact I].
        pose proof (emit_list_eager fns opts f params args H st Hd2 Hst) as H1.
        destruct (Core.emit_list fns opts params args st) as [[c st1] |]; simpl; [| exact I].
        destruct H1 as [Hl Hc]. split; [exact Hl |].
        destruct (String.eqb_spec f x) as [-> | Hne]; [congruence |].
        simpl. intros Hy. eager_code.
      * destruct (assoc_lookup x (Core.local_fns st)) eqn:Hloc.
        -- pose proof (emit_list_eager fns opts f params args H st Hd2 Hst) as H1.
           destruct (Core.emit_list fns opts params args st) as [[c st1] |]; simpl;
             [| exact I].
           destruct H1 as [Hl Hc]. split; [exact Hl |].
           destruct (String.eqb_spec f x) as [-> | Hne]; [congruence |].
           simpl. intros Hy. eager_code.
        -- assert (Hst' : assoc_lookup f (Core.local_fns (Core.add_free x st)) = None)
             by (rewrite add_free_local_fns; exact Hst).
           pose proof (emit_list_eager fns opts f params args H _ Hd2 Hst') as H1.
           destruct (Core.emit_list fns opts params args _) as [[c st1] |]; simpl;
             [| exact I].
           destruct H1 as [Hl Hc]. split; [exact Hl |].
           intros _. rewrite refuses_app. simpl. apply orb_true_r.
    + rewrite emit_call_definition. cbn [calls_eagerly called_name].
      sub_eager IHe params st Hd1 Hst c1 st1 Hl1 Hc1.
      pose proof (emit_list_eager fns opts f params args H st1 Hd2 Hl1) as H1.
      destruct (Core.emit_list fns opts params args st1) as [[c' st2] |]; simpl; [| exact I].
      destruct H1 as [Hl Hc]. split; [exact Hl |]. simpl. intros Hy. eager_code.
  - cbn [defines calls_eagerly Core.emit] in *. apply orb_false_elim in Hd as [Hd1 Hd2].
    sub_eager IHe1 params st Hd1 Hst c1 st1 Hl1 Hc1.
    sub_eager IHe2 params st1 Hd2 Hl1 c2 st2 Hl2 Hc2.
    split; [exact Hl2 |]. intros Hx. apply orb_prop in Hx as [Hx | Hx]; eager_code.
  - cbn [defines calls_eagerly Core.emit] in *.
    destruct (Core.mem name Core.safe_member_names); [| exact I].
    sub_eager IHe params st Hd Hst c1 st1 Hl Hc. split; [exact Hl |]. intros Hx. eager_code.
  - cbn [defines calls_eagerly Core.emit] in *.
    destruct (negb (enableAssignment opts)); [exact I |].
    destruct (Core.mem x params); [exact I |].
    sub_eager IHe params st Hd Hst c1 st1 Hl Hc. split; [exact Hl |]. intros Hx. eager_code.
  - cbn [defines calls_eagerly Core.emit] in *. apply orb_false_elim in Hd as [Hd1 Hd2].
    destruct (negb (enableLocalFunctionDefinition opts)); [exact I |].
    destruct (Core.emit fns opts (ps ++ params) e _) as [[cb stb] |]; simpl; [| exact I].
    rewrite Hd1. split; [exact Hst | discriminate].
  - cbn [defines calls_eagerly Core.emit] in *. apply orb_false_elim in Hd as [Hd1 Hd2].
    sub_eager IHe1 params st Hd1 Hst c1 st1 Hl1 Hc1.
    sub_eager IHe2 params st1 Hd2 Hl1 c2 st2 Hl2 Hc2.
    split; [exact Hl2 |]. intros Hx. apply orb_prop in Hx as [Hx | Hx]; eager_code.
Qed.

(** A program that holds an unresolved call at its top level fails,
    whatever the machine it starts from and whatever the depth it is
    given. *)
Lemma exec_unresolved nested i m :
  is_unresolved_call i = true -> exists err, Core.exec nested i m = Core.Failed err (Core.bindings m).
Proof.
  destruct i; try discriminate. intros _. simpl.
  destruct (Core.take_args argc m) as [[args m1] |] eqn:Ht.
  - apply take_args_bindings in Ht. unfold Core.fail. rewrite Ht. eauto.
  - unfold Core.underflow, Core.fail. eauto.
Qed.

Lemma run_program_refuses step prog :
  (forall i m, is_unresolved_call i = true -> exists err b, step i m = Core.Failed err b) ->
  refuses prog = true ->
  forall m, exists err b, Core.run_program step prog m = Core.Failed err b.
Proof.
  intros Hs. induction prog as [| i rest IH]; simpl; [discriminate |].
  intros Hr m. destruct (is_unresolved_call i) eqn:Hi.
  - destruct (Hs i m Hi) as [err [b Hb]]. rewrite Hb. simpl. eauto.
  - simpl in Hr. destruct (step i m) as [m1 | err b]; simpl; [apply IH; exact Hr | eauto].
Qed.

Lemma run_refuses depth prog m :
  refuses prog = true -> exists err, Core.run depth prog m = Core.Failed err (Core.bindings m).
Proof.
  intros Hr.
  assert (H : exists err b, Core.run depth prog m = Core.Failed err b).
  { destruct depth as [| d]; simpl; [unfold Core.fail; eauto |].
    apply run_program_refuses; [| exact Hr].
    intros i m' Hi. destruct (exec_unresolved (Core.run d) i m' Hi) as [err He]. eauto. }
  destruct H as [err [b Hb]]. exists err.
  pose proof (run_bindings depth prog m) as Hf. rewrite Hb in Hf. simpl in Hf.
  rewrite Hb, Hf. reflexivity.
Qed.

Lemma core_evaluate_refuses e b :
  refuses (Core.instructions e) = true -> exists msg, fst (Core.evaluate e b) = inr msg.
Proof.
  intros Hr. unfold Core.evaluate.
  destruct (run_refuses (maxRecursionDepth (Core.limits e)) (Core.instructions e)
              (Core.mkMachine [] [] [] b) Hr) as [err He].
  rewrite He. simpl. eauto.
Qed.

(** What compilation makes of a source text whose tree calls [f] where
    evaluation always reaches: nothing, or a program that fails. *)
Lemma compile_eager p src ast f e :
  Core.syntax p src = Ok ast ->
  functions p !! f = None ->
  calls_eagerly f ast = true -> defines f ast = false ->
  Core.compile p src = Ok e ->
  refuses (Core.instructions e) = true.
Proof.
  intros Hs Hf Hc Hd. unfold Core.compile. rewrite Hs. simpl.
  pose proof (emit_eager (functions p) (parser_options p) f ast Hf []
                (Core.mkCstate [] [] []) Hd eq_refl) as H.
  destruct (Core.emit (functions p) (parser_options p) [] ast _) as [[code st] | err];
    simpl; [| discriminate].
  destruct (_ <=? _)%nat; [| discriminate].
  intros He. injection He as <-. simpl. destruct H as [_ H]. exact (H Hc).
Qed.

(** ** Where the registries of the two wrappers agree *)

Lemma pick_cons {A : Type} (k : string) (keys : list string) (m : gmap string A) :
  pick (k :: keys) m
  = match m !! k with
    | Some a => <[k := a]> (pick keys m)
    | None => pick keys m
    end.
Proof. unfold pick. simpl. destruct (m !! k); reflexivity. Qed.

Lemma lookup_pick {A : Type} (keys : list string) (m : gmap string A) (s : string) :
  pick keys m !! s = if bool_decide (s ∈ keys) then m !! s else None.
Proof.
  induction keys as [| k keys IH].
  - unfold pick. simpl. rewrite lookup_empty. reflexivity.
  - rewrite pick_cons. destruct (decide (k = s)) as [-> | Hne].
    + rewrite bool_decide_eq_true_2 by set_solver.
      destruct (m !! s) as [a |] eqn:Hk.
      * rewrite lookup_insert_eq. reflexivity.
      * rewrite IH. destruct (bool_decide (s ∈ keys)); congruence.
    + assert (Hiff : bool_decide (s ∈ k :: keys) = bool_decide (s ∈ keys)).
      { apply bool_decide_ext. rewrite elem_of_cons.
        split; [intros [Heq | Hin]; [congruence | exact Hin] | auto]. }
      rewrite Hiff. destruct (m !! k) as [a |].
      * rewrite lookup_insert_ne by exact Hne. exact IH.
      * exact IH.
Qed.

Lemma unary_agree opts fns s :
  s <> "not" ->
  unaryOps (lib_parser opts fns) !! s = unaryOps (se_parser opts fns) !! s.
Proof.
  intros Hs. unfold lib_parser, se_parser, SafeEvaluatorLib.restricted_parser,
    SafeEvaluator.restricted_parser.
  cbn [unaryOps set_consts set_unaryOps set_functions]. rewrite !lookup_pick.
  assert (Hiff : bool_decide (s ∈ ["-"; "+"; "not"]) = bool_decide (s ∈ ["-"; "+"])).
  { apply bool_decide_ext. rewrite !elem_of_cons, elem_of_nil. intuition congruence. }
  rewrite Hiff. reflexivity.
Qed.

Lemma consts_agree opts fns s :
  s <> "E" -> s <> "PI" -> s <> "true" -> s <> "false" ->
  consts (lib_parser opts fns) !! s = consts (se_parser opts fns) !! s.
Proof.
  intros H1 H2 H3 H4. unfold lib_parser, se_parser, SafeEvaluatorLib.restricted_parser,
    SafeEvaluator.restricted_parser.
  cbn [consts set_consts set_unaryOps set_functions Core.api new_Parser Core.new_parser].
  unfold Core.default_consts. cbn [list_to_map foldr uncurry fst snd].
  rewrite lookup_empty. rewrite !lookup_insert_ne by congruence.
  rewrite lookup_empty. reflexivity.
Qed.

Lemma differing_names_inv s :
  Core.mem s differing_names = false ->
  s <> "not" /\ s <> "E" /\ s <> "PI" /\ s <> "true" /\ s <> "false".
Proof.
  unfold Core.mem, differing_names. cbn [existsb]. intros H.
  repeat (apply orb_false_elim in H as [?%String.eqb_neq H]). tauto.
Qed.

Lemma classify_agree opts fns t :
  token_among differing_names t = false ->
  Core.classify (lib_parser opts fns) t = Core.classify (se_parser opts fns) t.
Proof.
  intros H. unfold token_among, token_text in H. unfold Core.classify.
  destruct (Core.kind t) as [q | s | s | s | s |] eqn:Hk; try reflexivity.
  - apply differing_names_inv in H as (Hn & He & Hp & Ht & Hf).
    destruct (Core.is_ancestry_name s); [reflexivity |].
    rewrite (unary_agree opts fns s Hn).
    change (Core.lookup_binary (lib_parser opts fns) s)
      with (Core.lookup_binary (se_parser opts fns) s).
    rewrite (consts_agree opts fns s He Hp Ht Hf).
    reflexivity.
  - apply differing_names_inv in H as (Hn & _).
    rewrite (unary_agree opts fns s Hn). reflexivity.
Qed.

Lemma classify_all_agree opts fns toks :
  existsb (token_among differing_names) toks = false ->
  Core.classify_all (lib_parser opts fns) toks = Core.classify_all (se_parser opts fns) toks.
Proof.
  induction toks as [| t toks IH]; simpl; intros H; [reflexivity |].
  apply orb_false_elim in H as [H1 H2].
  rewrite (classify_agree opts fns t H1), (IH H2). reflexivity.
Qed.

Lemma compile_agree opts fns src :
  mentions differing_names src = false ->
  Core.compile (lib_parser opts fns) src = Core.compile (se_parser opts fns) src.
Proof.
  unfold mentions, Core.compile, Core.syntax. intros H.
  destruct (Core.tokenize src) as [toks | err]; [| reflexivity]. simpl.
  rewrite (classify_all_agree opts fns toks H). reflexivity.
Qed.

(** ** A failing parse is a throw of the wrappers *)

Ltac split_guards :=
  repeat match goal with
         | |- throws (if ?c then _ else _) => destruct c
         | |- throws (match ?x with Some _ => _ | None => _ end) => destruct x
         | |- throws (Throw _, _) => eexists; reflexivity
         end.

Section ParseFailure.
Variable P : ParserApi.

Lemma lib_parse_failure src variables msg :
  parser_parse P (SafeEvaluatorLib.restricted_parser P) src = inr msg ->
  throws (SafeEvaluatorLib.evaluate P (VStr src) variables).
Proof.
  intros H. unfold SafeEvaluatorLib.evaluate. cbn [string_of_value].
  rewrite H. split_guards.
Qed.

Lemma se_with_parse_failure src variables msg :
  parser_parse P (SafeEvaluator.restricted_parser P) src = inr msg ->
  throws (SafeEvaluator.evaluate_with P (VStr src) variables).
Proof.
  intros H. unfold SafeEvaluator.evaluate_with. cbn [string_of_value].
  rewrite H. split_guards.
Qed.

Lemma se_parse_failure src variables msg :
  parser_parse P (SafeEvaluator.restricted_parser P) src = inr msg ->
  throws (SafeEvaluator.evaluate P (VStr src) variables).
Proof.
  intros H. unfold SafeEvaluator.evaluate.
  pose proof (se_with_parse_failure src (VObject []) msg H) as [m1 H1].
  pose proof (se_with_parse_failure src variables msg H) as H2.
  split_guards; [exists m1; exact H1 | exact H2].
Qed.
End ParseFailure.

Lemma core_parse_failure p src err :
  Core.compile p src = Err err -> Core.parse p src = inr (message err).
Proof. unfold Core.parse. intros ->. reflexivity. Qed.

(** Whatever fails when it is evaluated is a throw of the wrappers. *)
Lemma lib_evaluation_failure (P : ParserApi) src variables :
  (forall expr, parser_parse P (SafeEvaluatorLib.restricted_parser P) src = inl expr ->
                exists msg, fst (expr_evaluate P expr variables) = inr msg) ->
  throws (SafeEvaluatorLib.evaluate P (VStr src) variables).
Proof.
  intros H. unfold SafeEvaluatorLib.evaluate. cbn [string_of_value].
  destruct (parser_parse P _ src) as [expr | msg]; [| split_guards].
  destruct (H expr eq_refl) as [msg Hm].
  destruct (expr_evaluate P expr variables) as [[v | m] after]; [discriminate |].
  destruct (expr_symbols P expr); split_guards.
Qed.

Lemma se_with_evaluation_failure (P : ParserApi) src variables :
  (forall expr, parser_parse P (SafeEvaluator.restricted_parser P) src = inl expr ->
                exists msg, fst (expr_evaluate P expr variables) = inr msg) ->
  throws (SafeEvaluator.evaluate_with P (VStr src) variables).
Proof.
  intros H. unfold SafeEvaluator.evaluate_with. cbn [string_of_value].
  destruct (parser_parse P _ src) as [expr | msg]; [| split_guards].
  destruct (H expr eq_refl) as [msg Hm].
  destruct (expr_evaluate P expr variables) as [[v | m] after]; [discriminate |].
  destruct (expr_variables P expr); split_guards.
Qed.

Lemma se_evaluation_failure (P : ParserApi) src variables :
  (forall expr b, parser_parse P (SafeEvaluator.restricted_parser P) src = inl expr ->
                  exists msg, fst (expr_evaluate P expr b) = inr msg) ->
  throws (SafeEvaluator.evaluate P (VStr src) variables).
Proof.
  intros H. unfold SafeEvaluator.evaluate.
  pose proof (se_with_evaluation_failure P src (VObject []) (fun e => H e _)) as [m1 H1].
  pose proof (se_with_evaluation_failure P src variables (fun e => H e _)) as H2.
  split_guards; [exists m1; exact H1 | exact H2].
Qed.

Lemma core_parse_inv p src e : Core.parse p src = inl e -> Core.compile p src = Ok e.
Proof. unfold Core.parse. destruct (Core.compile p src); congruence. Qed.

Lemma lib_call_throws opts fns src variables ast f :
  Core.syntax (lib_parser opts fns) src = Ok ast ->
  calls_eagerly f ast = true -> defines f ast = false ->
  throws (SafeEvaluatorLib.evaluate (Core.api opts fns) (VStr src) variables).
Proof.
  intros Hs Hc Hd. apply lib_evaluation_failure. intros e He.
  apply core_evaluate_refuses.
  exact (compile_eager (lib_parser opts fns) src ast f e Hs (lookup_empty f) Hc Hd
           (core_parse_inv _ _ _ He)).
Qed.

Lemma se_call_throws opts fns src variables ast f :
  Core.syntax (se_parser opts fns) src = Ok ast ->
  calls_eagerly f ast = true -> defines f ast = false ->
  throws (SafeEvaluator.evaluate (Core.api opts fns) (VStr src) variables).
Proof.
  intros Hs Hc Hd. apply se_evaluation_failure. intros e b He.
  apply core_evaluate_refuses.
  exact (compile_eager (se_parser opts fns) src ast f e Hs (lookup_empty f) Hc Hd
           (core_parse_inv _ _ _ He)).
Qed.

Lemma classify_all_ancestry p toks :
  existsb is_ancestry_token toks = true ->
  exists err, Core.classify_all p toks = Err err.
Proof.
  induction toks as [| t toks IH]; simpl; [discriminate |]. intros H.
  destruct (Core.classify p t) as [c | err] eqn:Hc; simpl; [| eauto].
  apply orb_prop in H as [H | H].
  - exfalso. unfold is_ancestry_token in H. unfold Core.classify in Hc.
    destruct (Core.kind t); try discriminate. rewrite H in Hc. discriminate.
  - destruct (IH H) as [err He]. rewrite He. simpl. eauto.
Qed.

Lemma compile_ancestry p src :
  names_ancestry src = true -> exists err, Core.compile p src = Err err.
Proof.
  unfold names_ancestry, Core.compile, Core.syntax. intros H.
  destruct (Core.tokenize src) as [toks | err]; [| discriminate]. simpl.
  destruct (classify_all_ancestry p toks H) as [err He]. rewrite He. simpl. eauto.
Qed.

(** ** Results stay within the language *)

Lemma tl_ok ts : Forall ctoken_ok ts -> Forall ctoken_ok (tl ts).
Proof. intros H. destruct ts; [constructor | inversion H; assumption]. Qed.

Lemma peek_ok ts :
  Forall ctoken_ok ts ->
  match Core.peek ts with
  | Core.COp _ u b => slot_ok u /\ slot_ok b
  | Core.CConst _ v => language_value v = true
  | _ => True
  end.
Proof.
  intros H. destruct ts as [| [c off] ts]; simpl; [exact I |].
  inversion H as [| ? ? Hc _]. exact Hc.
Qed.

Lemma expect_ok s ts ts' :
  Core.expect s ts = Ok ts' -> Forall ctoken_ok ts -> Forall ctoken_ok ts'.
Proof.
  unfold Core.expect. destruct (_ || _); [| discriminate].
  intros H. injection H as <-. apply tl_ok.
Qed.

Lemma assignment_target_ok lhs rhs t :
  Core.assignment_target lhs rhs = Ok t -> expr_ok lhs -> expr_ok rhs -> expr_ok t.
Proof.
  intros H Hl Hr. destruct lhs; simpl in H; try discriminate.
  - injection H as <-. constructor. exact Hr.
  - destruct lhs; try discriminate.
    destruct (Core.param_names args); simpl in H; [| discriminate].
    injection H as <-. constructor. exact Hr.
Qed.

Lemma index_literal_ok q i : Core.index_literal q = Some i -> expr_ok i.
Proof.
  unfold Core.index_literal. destruct (_ && _); [| discriminate].
  intros H. injection H as <-. constructor.
Qed.

Ltac sub_parse call H e ts' He Hts' :=
  let r := fresh "r" in
  pose proof H as r;
  destruct call as [[e ts'] |]; cbn [res_bind parsed_ok parsed_list_ok] in r |- *;
  [destruct r as [He Hts'] | exact I].

Lemma parser_ok d :
  (forall ts, Forall ctoken_ok ts -> parsed_ok (Core.parse_sequence d ts))
  /\ (forall ts, Forall ctoken_ok ts -> parsed_ok (Core.parse_assignment d ts))
  /\ (forall ts, Forall ctoken_ok ts -> parsed_ok (Core.parse_ternary d ts))
  /\ (forall minp ts, Forall ctoken_ok ts -> parsed_ok (Core.parse_binary d minp ts))
  /\ (forall minp lhs ts, expr_ok lhs -> Forall ctoken_ok ts ->
                          parsed_ok (Core.parse_binary_rest d minp lhs ts))
  /\ (forall ts, Forall ctoken_ok ts -> parsed_ok (Core.parse_prefix d ts))
  /\ (forall ts, Forall ctoken_ok ts -> parsed_ok (Core.parse_postfix d ts))
  /\ (forall a ts, expr_ok a -> Forall ctoken_ok ts ->
                   parsed_ok (Core.parse_postfix_rest d a ts))
  /\ (forall ts, Forall ctoken_ok ts -> parsed_ok (Core.parse_atom d ts))
  /\ (forall close ts, Forall ctoken_ok ts -> parsed_list_ok (Core.parse_list d close ts))
  /\ (forall close ts, Forall ctoken_ok ts -> parsed_list_ok (Core.parse_items d close ts)).
Proof.
  induction d as [| d IH]; [repeat split; intros; exact I |].
  destruct IH as (Hseq & Hasg & Htern & Hbin & Hbrest & Hpre & Hpost & Hprest & Hatom
                  & Hlist & Hitems).
  repeat split.
  - intros ts Hts. cbn [Core.parse_sequence].
    sub_parse (Core.parse_assignment d ts) (Hasg ts Hts) e1 ts1 He1 Hts1.
    destruct (Core.is_op _ _); [| split; assumption].
    sub_parse (Core.parse_sequence d (tl ts1)) (Hseq _ (tl_ok _ Hts1)) e2 ts2 He2 Hts2.
    split; [constructor; assumption | assumption].
  - intros ts Hts. cbn [Core.parse_assignment].
    sub_parse (Core.parse_ternary d ts) (Htern ts Hts) e1 ts1 He1 Hts1.
    destruct (Core.is_op _ _); [| split; assumption].
    sub_parse (Core.parse_assignment d (tl ts1)) (Hasg _ (tl_ok _ Hts1)) e2 ts2 He2 Hts2.
    destruct (Core.assignment_target e1 e2) as [t |] eqn:Ht; cbn [res_bind parsed_ok];
      [| exact I].
    split; [exact (assignment_target_ok _ _ _ Ht He1 He2) | assumption].
  - intros ts Hts. cbn [Core.parse_ternary].
    sub_parse (Core.parse_binary d 0 ts) (Hbin 0 ts Hts) e1 ts1 He1 Hts1.
    destruct (Core.is_op _ _); [| split; assumption].
    sub_parse (Core.parse_ternary d (tl ts1)) (Htern _ (tl_ok _ Hts1)) e2 ts2 He2 Hts2.
    destruct (Core.expect ":" ts2) as [ts3 |] eqn:Hx; cbn [res_bind parsed_ok]; [| exact I].
    pose proof (expect_ok _ _ _ Hx Hts2) as Hts3.
    sub_parse (Core.parse_ternary d ts3) (Htern _ Hts3) e3 ts4 He3 Hts4.
    split; [constructor; assumption | assumption].
  - intros minp ts Hts. cbn [Core.parse_binary].
    sub_parse (Core.parse_prefix d ts) (Hpre ts Hts) e1 ts1 He1 Hts1.
    apply Hbrest; assumption.
  - intros minp lhs ts Hl Hts. cbn [Core.parse_binary_rest].
    pose proof (peek_ok ts Hts) as Hp.
    destruct (Core.peek ts) as [| | | | s u [op |] | |]; try (split; assumption).
    destruct (minp <=? op_precedence op)%nat; [| split; assumption].
    sub_parse (Core.parse_binary d (Core.next_precedence op) (tl ts))
      (Hbin (Core.next_precedence op) _ (tl_ok _ Hts)) e2 ts2 He2 Hts2.
    apply Hbrest; [| assumption]. constructor; [exact (proj2 Hp) | assumption | assumption].
  - intros ts Hts. cbn [Core.parse_prefix].
    pose proof (peek_ok ts Hts) as Hp.
    destruct (Core.peek ts) as [| | | | s [op |] b | |]; try (apply Hpost; assumption).
    sub_parse (Core.parse_binary d (op_precedence op) (tl ts))
      (Hbin (op_precedence op) _ (tl_ok _ Hts)) e2 ts2 He2 Hts2.
    split; [| assumption]. constructor; [exact (proj1 Hp) | assumption].
  - intros ts Hts. cbn [Core.parse_postfix].
    sub_parse (Core.parse_atom d ts) (Hatom ts Hts) e1 ts1 He1 Hts1.
    apply Hprest; assumption.
  - intros a ts Ha Hts. cbn [Core.parse_postfix_rest].
    destruct (Core.is_punct (Core.peek ts) "(").
    { sub_parse (Core.parse_list d ")" (tl ts)) (Hlist ")" _ (tl_ok _ Hts)) es ts1 Hes Hts1.
      apply Hprest; [constructor; assumption | assumption]. }
    destruct (Core.is_punct (Core.peek ts) "[").
    { sub_parse (Core.parse_sequence d (tl ts)) (Hseq _ (tl_ok _ Hts)) i ts1 Hi Hts1.
      destruct (Core.expect "]" ts1) as [ts2 |] eqn:Hx; cbn [res_bind parsed_ok]; [| exact I].
      apply Hprest; [constructor; assumption | exact (expect_ok _ _ _ Hx Hts1)]. }
    destruct (Core.is_punct (Core.peek ts) "."); [| split; assumption].
    destruct (Core.peek (tl ts)); try exact I.
    + destruct (Core.index_literal q) as [i |] eqn:Hi; [| exact I].
      apply Hprest; [| exact (tl_ok _ (tl_ok _ Hts))].
      constructor; [assumption | exact (index_literal_ok _ _ Hi)].
    + apply Hprest; [| exact (tl_ok _ (tl_ok _ Hts))]. constructor. assumption.
  - intros ts Hts. cbn [Core.parse_atom].
    pose proof (peek_ok ts Hts) as Hp. pose proof (tl_ok _ Hts) as Htl.
    destruct (Core.peek ts) as [q | s | x | x v | s u b | s |]; try exact I;
      try (split; [constructor | assumption]).
    + exact Hp.
    + destruct (String.eqb s "(").
      { sub_parse (Core.parse_sequence d (tl ts)) (Hseq _ Htl) e ts1 He Hts1.
        destruct (Core.expect ")" ts1) as [ts2 |] eqn:Hx; cbn [res_bind parsed_ok];
          [| exact I].
        split; [assumption | exact (expect_ok _ _ _ Hx Hts1)]. }
      destruct (String.eqb s "["); [| exact I].
      sub_parse (Core.parse_list d "]" (tl ts)) (Hlist "]" _ Htl) es ts1 Hes Hts1.
      split; [constructor; assumption | assumption].
  - intros close ts Hts. cbn [Core.parse_list].
    destruct (Core.is_punct (Core.peek ts) close).
    + split; [constructor | apply tl_ok; assumption].
    + apply Hitems. assumption.
  - intros close ts Hts. cbn [Core.parse_items].
    sub_parse (Core.parse_assignment d ts) (Hasg ts Hts) e1 ts1 He1 Hts1.
    destruct (Core.is_punct (Core.peek ts1) ",").
    { sub_parse (Core.parse_items d close (tl ts1)) (Hitems close _ (tl_ok _ Hts1))
        es ts2 Hes Hts2.
      split; [constructor; assumption | assumption]. }
    destruct (Core.is_punct (Core.peek ts1) close); [| exact I].
    split; [constructor; [assumption | constructor] | apply tl_ok; assumption].
Qed.

Lemma lookup_binary_some p s op :
  Core.lookup_binary p s = Some op -> binaryOps p !! s = Some op.
Proof. unfold Core.lookup_binary. destruct (_ && _); [discriminate | auto]. Qed.

Lemma classify_ok p t c :
  registries_ok p -> Core.classify p t = Ok c -> ctoken_ok c.
Proof.
  intros (Hu & Hb & Hc) H. unfold Core.classify in H.
  assert (Hslots : forall s, slot_ok (unaryOps p !! s) /\ slot_ok (Core.lookup_binary p s)).
  { intros s. split.
    - destruct (unaryOps p !! s) as [op |] eqn:E; simpl; [exact (Hu s op E) | exact I].
    - destruct (Core.lookup_binary p s) as [op |] eqn:E; simpl; [| exact I].
      exact (Hb s op (lookup_binary_some _ _ _ E)). }
  destruct (Core.kind t) as [q | s | s | s | s |]; try (injection H as <-; exact I).
  - destruct (Core.is_ancestry_name s); [discriminate |].
    pose proof (Hslots s) as [H1 H2].
    destruct (unaryOps p !! s) as [u |], (Core.lookup_binary p s) as [b |];
      try (injection H as <-; split; assumption).
    destruct (consts p !! s) as [v |] eqn:Ev; injection H as <-; [| exact I].
    exact (Hc s v Ev).
  - injection H as <-. exact (Hslots s).
Qed.

Lemma classify_all_ok p toks cs :
  registries_ok p -> Core.classify_all p toks = Ok cs -> Forall ctoken_ok cs.
Proof.
  intros Hp. revert cs. induction toks as [| t toks IH]; simpl; intros cs H.
  - injection H as <-. constructor.
  - destruct (Core.classify p t) as [c |] eqn:Hc; simpl in H; [| discriminate].
    destruct (Core.classify_all p toks) as [cs' |]; simpl in H; [| discriminate].
    injection H as <-. constructor; [exact (classify_ok _ _ _ Hp Hc) | exact (IH _ eq_refl)].
Qed.

Lemma syntax_ok p src ast :
  registries_ok p -> Core.syntax p src = Ok ast -> expr_ok ast.
Proof.
  intros Hp. unfold Core.syntax, Core.parse_program.
  destruct (Core.tokenize src) as [toks |]; simpl; [| discriminate].
  destruct (Core.classify_all p toks) as [cs |] eqn:Hc; simpl; [| discriminate].
  pose proof (proj1 (parser_ok (maxRecursionDepth (parser_options p))) cs
                (classify_all_ok _ _ _ Hp Hc)) as H.
  destruct (Core.parse_sequence _ cs) as [[e rest] |]; simpl in *; [| discriminate].
  destruct (Core.peek rest); try discriminate. intros Heq. injection Heq as <-. exact (proj1 H).
Qed.

(** The default operators return numbers and booleans. *)
Lemma numeric1_ok name f args v :
  Core.numeric1 name f args = Ok v -> language_value v = true.
Proof.
  destruct args as [| a [| b rest]]; simpl; try discriminate;
    destruct a; try discriminate. intros H. injection H as <-. reflexivity.
Qed.

Lemma numeric2_ok name f args v :
  Core.numeric2 name f args = Ok v -> language_value v = true.
Proof.
  destruct args as [| a [| b [| c rest]]]; simpl; try discriminate;
    destruct a; try discriminate; destruct b; try discriminate.
  destruct (f q q0); simpl; [| discriminate]. intros H. injection H as <-. reflexivity.
Qed.

Lemma compare2_ok name f args v :
  Core.compare2 name f args = Ok v -> language_value v = true.
Proof.
  destruct args as [| a [| b [| c rest]]]; simpl; try discriminate;
    destruct a; try discriminate; destruct b; try discriminate.
  intros H. injection H as <-. reflexivity.
Qed.

Lemma logical2_ok f args v : Core.logical2 f args = Ok v -> language_value v = true.
Proof.
  destruct args as [| a [| b [| c rest]]]; simpl; try discriminate.
  intros H. injection H as <-. reflexivity.
Qed.

Lemma equality_ok n args v : Core.equality n args = Ok v -> language_value v = true.
Proof.
  destruct args as [| a [| b [| c rest]]]; simpl; try discriminate.
  intros H. injection H as <-. reflexivity.
Qed.

Lemma logical_not_ok args v : Core.logical_not args = Ok v -> language_value v = true.
Proof.
  destruct args as [| a [| b rest]]; simpl; try discriminate.
  intros H. injection H as <-. reflexivity.
Qed.

Lemma membership_ok args v : Core.membership args = Ok v -> language_value v = true.
Proof.
  destruct args as [| a [| b [| c rest]]]; simpl; try discriminate;
    destruct b; try discriminate.
  intros H. injection H as <-. reflexivity.
Qed.

Ltac default_op_ok :=
  unfold op_ok; cbn [op_implementation]; intros ? ?;
  first [ apply numeric1_ok | apply numeric2_ok | apply compare2_ok | apply logical2_ok
        | apply equality_ok | apply logical_not_ok | apply membership_ok ].

Lemma default_unary_ok s op : Core.default_unaryOps !! s = Some op -> op_ok op.
Proof.
  unfold Core.default_unaryOps. intros H. apply elem_of_list_to_map_2 in H.
  repeat (apply elem_of_cons in H as [H | H];
          [injection H as _ ->; default_op_ok |]).
  apply elem_of_nil in H. contradiction.
Qed.

Lemma default_binary_ok s op : Core.default_binaryOps !! s = Some op -> op_ok op.
Proof.
  unfold Core.default_binaryOps. intros H. apply elem_of_list_to_map_2 in H.
  repeat (apply elem_of_cons in H as [H | H];
          [injection H as _ ->; default_op_ok |]).
  apply elem_of_nil in H. contradiction.
Qed.

Lemma default_consts_ok s v : Core.default_consts !! s = Some v -> language_value v = true.
Proof.
  unfold Core.default_consts. intros H. apply elem_of_list_to_map_2 in H.
  repeat (apply elem_of_cons in H as [H | H]; [injection H as _ ->; reflexivity |]).
  apply elem_of_nil in H. contradiction.
Qed.

Lemma pick_some {A : Type} keys (m : gmap string A) s a :
  pick keys m !! s = Some a -> m !! s = Some a.
Proof. rewrite lookup_pick. destruct (bool_decide _); [auto | discriminate]. Qed.

Lemma lib_registries_ok opts fns : registries_ok (lib_parser opts fns).
Proof.
  repeat split.
  - intros s op H. apply pick_some in H. exact (default_unary_ok _ _ H).
  - intros s op H. exact (default_binary_ok _ _ H).
  - intros s v H. cbn in H. rewrite lookup_empty in H. discriminate.
Qed.

Lemma se_registries_ok opts fns : registries_ok (se_parser opts fns).
Proof.
  repeat split.
  - intros s op H. apply pick_some in H. exact (default_unary_ok _ _ H).
  - intros s op H. exact (default_binary_ok _ _ H).
  - intros s v H. exact (default_consts_ok _ _ H).
Qed.

Lemma emit_list_ok opts params items :
  Forall (fun e => expr_ok e -> forall params st, emitted_ok (Core.emit ∅ opts params e st))
    items ->
  Forall expr_ok items ->
  forall st, emitted_ok (Core.emit_list ∅ opts params items st).
Proof.
  induction 1 as [| e rest He _ IH]; intros Hok st; simpl; [constructor |].
  inversion Hok as [| ? ? He_ok Hrest]; subst.
  pose proof (He He_ok params st) as H1.
  destruct (Core.emit ∅ opts params e st) as [[c st1] |]; simpl in *; [| exact I].
  pose proof (IH Hrest st1) as H2.
  destruct (Core.emit_list ∅ opts params rest st1) as [[cs st2] |]; simpl in *; [| exact I].
  apply Forall_app. split; assumption.
Qed.

Ltac sub_emitted IH params st :=
  let H := fresh "H" in
  pose proof (IH params st) as H;
  destruct (Core.emit ∅ _ params _ st) as [[? ?] |]; cbn [res_bind emitted_ok] in H |- *;
  [| exact I].

Ltac code_ok :=
  repeat match goal with
         | |- Forall _ (_ ++ _) => apply Forall_app; split
         | |- Forall _ (_ :: _) => constructor
         | |- Forall _ [] => constructor
         | |- instr_ok _ => constructor
         | |- language_value _ = true => first [assumption | reflexivity]
         | _ => assumption
         end.

Lemma emit_ok opts e :
  expr_ok e -> forall params st, emitted_ok (Core.emit ∅ opts params e st).
Proof.
  induction e using expr_induction; intros Hok params st; inversion Hok; subst.
  - simpl. code_ok.
  - simpl. code_ok.
  - simpl. code_ok.
  - simpl. destruct (_ || _); simpl; code_ok.
  - rewrite emit_array. pose proof (emit_list_ok opts params items H H1 st) as Hl.
    destruct (Core.emit_list ∅ opts params items st) as [[c st1] |]; simpl in *; [| exact I].
    code_ok.
  - simpl. sub_emitted (IHe H2) params st. code_ok.
  - simpl. sub_emitted (IHe1 H3) params st. sub_emitted (IHe2 H4) params c. code_ok.
  - simpl. sub_emitted (IHe1 H2) params st. sub_emitted (IHe2 H3) params c.
    match goal with |- context [Core.emit ∅ opts params e3 ?s] =>
      pose proof (IHe3 H4 params s) as H5;
      destruct (Core.emit ∅ opts params e3 s) as [[? ?] |]; cbn [res_bind emitted_ok] in H5 |- *;
      [| exact I]
    end.
    code_ok.
  - destruct e; try exact I.
    + rewrite emit_call_name. destruct (_ || _); [exact I |]. rewrite lookup_empty.
      destruct (assoc_lookup x (Core.local_fns st)).
      * pose proof (emit_list_ok opts params args H H3 st) as Hl.
        destruct (Core.emit_list ∅ opts params args st) as [[c st1] |]; simpl in *;
          [| exact I].
        code_ok.
      * pose proof (emit_list_ok opts params args H H3 (Core.add_free x st)) as Hl.
        destruct (Core.emit_list ∅ opts params args _) as [[c st1] |]; simpl in *;
          [| exact I].
        code_ok.
    + rewrite emit_call_definition.
      sub_emitted (IHe H2) params st.
      pose proof (emit_list_ok opts params args H H3 c) as Hl.
      destruct (Core.emit_list ∅ opts params args c) as [[c' st1] |]; simpl in *; [| exact I].
      code_ok.
  - simpl. sub_emitted (IHe1 H1) params st. sub_emitted (IHe2 H2) params c. code_ok.
  - cbn [Core.emit]. destruct (Core.mem name Core.safe_member_names); [| exact I].
    sub_emitted (IHe H0) params st. code_ok.
  - cbn [Core.emit]. destruct (negb (enableAssignment opts)); [exact I |].
    destruct (Core.mem x params); [exact I |].
    sub_emitted (IHe H0) params st. code_ok.
  - cbn [Core.emit]. destruct (negb (enableLocalFunctionDefinition opts)); [exact I |].
    match goal with |- context [Core.emit ∅ opts ?ps e ?s] =>
      pose proof (IHe H0 ps s) as H5;
      destruct (Core.emit ∅ opts ps e s) as [[? ?] |]; cbn [res_bind emitted_ok] in H5 |- *;
      [| exact I]
    end.
    code_ok.
  - simpl. sub_emitted (IHe1 H1) params st. sub_emitted (IHe2 H2) params c. code_ok.
Qed.

Lemma language_array elems :
  Forall (fun v => language_value v = true) elems -> language_value (VArray elems) = true.
Proof.
  intros H. simpl. apply forallb_forall. intros v Hv.
  rewrite Forall_forall in H. apply H. apply list_elem_of_In. exact Hv.
Qed.

Lemma language_array_inv elems :
  language_value (VArray elems) = true -> Forall (fun v => language_value v = true) elems.
Proof.
  simpl. intros H. rewrite Forall_forall. intros v Hv.
  rewrite forallb_forall in H. apply H. apply list_elem_of_In. exact Hv.
Qed.

Lemma nth_language elems n :
  Forall (fun v => language_value v = true) elems ->
  language_value (nth n elems VUndefined) = true.
Proof.
  intros H. revert n. induction H as [| v rest Hv _ IH]; intros [| n]; simpl; auto.
Qed.

Lemma take_args_ok n m args m1 :
  Core.take_args n m = Some (args, m1) -> machine_ok m ->
  Forall (fun v => language_value v = true) args /\ machine_ok m1.
Proof.
  unfold Core.take_args. destruct (n <=? length (Core.stack m))%nat; [| discriminate].
  intros H (Hs & Hl & Hf & Hb). injection H as <- <-. split.
  - apply Forall_rev. apply Forall_take. exact Hs.
  - repeat split; try assumption. simpl. apply Forall_drop. exact Hs.
Qed.

Lemma push_ok v m : language_value v = true -> machine_ok m -> machine_ok (Core.push v m).
Proof.
  intros Hv (Hs & Hl & Hf & Hb). repeat split; try assumption. simpl. constructor; assumption.
Qed.

Lemma apply_impl_ok impl n m :
  (forall args v, impl args = Ok v -> language_value v = true) ->
  machine_ok m -> run_ok (Core.apply_impl impl n m).
Proof.
  intros Hi Hm. unfold Core.apply_impl.
  destruct (Core.take_args n m) as [[args m1] |] eqn:Ht; [| exact I].
  destruct (take_args_ok _ _ _ _ Ht Hm) as [_ Hm1].
  destruct (impl args) as [v |] eqn:Hv; simpl; [| exact I].
  apply push_ok; [exact (Hi _ _ Hv) | exact Hm1].
Qed.

Lemma assoc_lookup_Forall {A : Type} (Q : string * A -> Prop) k l a :
  Forall Q l -> assoc_lookup k l = Some a -> exists k', Q (k', a).
Proof.
  induction 1 as [| [k' a'] rest Hq _ IH]; simpl; [discriminate |].
  destruct (String.eqb k k'); [| exact IH]. intros H. injection H as <-. eauto.
Qed.

Lemma combine_ok ps args :
  Forall (fun v => language_value v = true) args ->
  Forall (fun kv : string * value => language_value (snd kv) = true) (combine ps args).
Proof.
  intros H. revert ps. induction H as [| v rest Hv _ IH]; intros [| p ps]; simpl;
    constructor; auto.
Qed.

Lemma exec_ok nested i m :
  (forall prog m', Forall instr_ok prog -> machine_ok m' -> run_ok (nested prog m')) ->
  instr_ok i -> machine_ok m -> run_ok (Core.exec nested i m).
Proof.
  intros Hn Hi Hm. pose proof Hm as (Hs & Hl & Hf & Hb).
  destruct i; inversion Hi; subst; cbn [Core.exec].
  - apply push_ok; assumption.
  - destruct (assoc_lookup name (Core.locals m)) as [v |] eqn:Hv.
    + destruct (assoc_lookup_Forall _ _ _ _ Hl Hv) as [k' Hk']. apply push_ok; assumption.
    + destruct (hasOwnProperty (Core.bindings m) name) eqn:Ho; [| exact I].
      apply push_ok; [exact (Hb _ Ho) | exact Hm].
  - apply apply_impl_ok; assumption.
  - destruct (Core.take_args argc m) as [[args m1] |] eqn:Ht; [| exact I].
    destruct (take_args_ok _ _ _ _ Ht Hm) as [Hargs Hm1].
    pose proof Hm1 as (Hs1 & Hl1 & Hf1 & Hb1).
    destruct (assoc_lookup name (Core.local_functions m1)) as [[ps body captured] |] eqn:Hc;
      [| exact I].
    destruct (assoc_lookup_Forall _ _ _ _ Hf1 Hc) as [k' [Hbody Hcap]].
    destruct (length ps =? argc)%nat; [| exact I].
    match goal with |- context [nested body ?m0] =>
      assert (Hr : run_ok (nested body m0));
      [apply Hn; [exact Hbody |]; repeat split; simpl;
        [constructor | apply Forall_app; split; [apply combine_ok; exact Hargs | exact Hcap]
         | exact Hf1 | exact Hb1]
      | destruct (nested body m0) as [m2 | err b]; simpl in Hr |- *; [| exact I]]
    end.
    destruct Hr as (Hs2 & Hl2 & Hf2 & Hb2).
    destruct (Core.stack m2) as [| v rest]; [exact I |].
    inversion Hs2; subst. repeat split; simpl; try assumption. constructor; assumption.
  - destruct (Core.take_args argc m) as [[args m1] |]; exact I.
  - destruct (Core.take_args count m) as [[args m1] |] eqn:Ht; [| exact I].
    destruct (take_args_ok _ _ _ _ Ht Hm) as [Hargs Hm1].
    apply push_ok; [apply language_array; exact Hargs | exact Hm1].
  - destruct (Core.stack m) as [| i' [| a s]] eqn:Hst; try exact I.
    destruct (Core.index_value a i') as [v |] eqn:Hv; [| exact I].
    inversion Hs as [| ? ? Hi' Hs']; subst. inversion Hs' as [| ? ? Ha Hs'']; subst.
    repeat split; try assumption. simpl. constructor; [| assumption].
    unfold Core.index_value in Hv. destruct a; try discriminate. destruct i'; try discriminate.
    destruct (_ && _); [| discriminate]. injection Hv as <-.
    apply nth_language. apply language_array_inv. exact Ha.
  - destruct (Core.stack m) as [| a s] eqn:Hst; try exact I.
    destruct (Core.member_value a name) as [v |] eqn:Hv; [| exact I].
    inversion Hs as [| ? ? Ha Hs']; subst.
    repeat split; try assumption. simpl. constructor; [| assumption].
    unfold Core.member_value in Hv. destruct a; try discriminate.
    destruct (String.eqb name "length"); [| discriminate]. injection Hv as <-. reflexivity.
  - destruct (Core.stack m) as [| v s] eqn:Hst; [exact I |].
    inversion Hs; subst. repeat split; simpl; try assumption.
    constructor; assumption.
  - repeat split; simpl; try assumption.
    + constructor; [reflexivity | assumption].
    + constructor; [| assumption]. split; assumption.
  - destruct (Core.stack m) as [| c s] eqn:Hst; [exact I |].
    inversion Hs; subst. apply Hn.
    + destruct (truthy c); assumption.
    + repeat split; simpl; assumption.
  - destruct (Core.stack m) as [| b [| a s]] eqn:Hst; try exact I.
    inversion Hs as [| ? ? Hb' Hs']; subst. inversion Hs' as [| ? ? Ha Hs'']; subst.
    repeat split; try assumption. simpl. constructor; assumption.
Qed.

Lemma run_program_ok step prog :
  (forall i m, instr_ok i -> machine_ok m -> run_ok (step i m)) ->
  Forall instr_ok prog -> forall m, machine_ok m -> run_ok (Core.run_program step prog m).
Proof.
  intros Hstep. induction 1 as [| i rest Hi _ IH]; intros m Hm; simpl; [exact Hm |].
  pose proof (Hstep i m Hi Hm) as H1.
  destruct (step i m) as [m1 | err b]; simpl in *; [apply IH; exact H1 | exact I].
Qed.

Lemma run_ok_all depth :
  forall prog m, Forall instr_ok prog -> machine_ok m -> run_ok (Core.run depth prog m).
Proof.
  induction depth as [| d IH]; intros prog m Hp Hm; simpl; [exact I |].
  apply run_program_ok; [| exact Hp | exact Hm].
  intros i m' Hi Hm'. apply exec_ok; assumption.
Qed.

Lemma compile_ok p src e :
  registries_ok p -> functions p = ∅ ->
  Core.compile p src = Ok e -> Forall instr_ok (Core.instructions e).
Proof.
  intros Hp Hf. unfold Core.compile.
  destruct (Core.syntax p src) as [ast |] eqn:Hs; simpl; [| discriminate].
  rewrite Hf.
  pose proof (emit_ok (parser_options p) ast (syntax_ok _ _ _ Hp Hs) []
                (Core.mkCstate [] [] [])) as H.
  destruct (Core.emit ∅ _ [] ast _) as [[code st] |]; simpl in *; [| discriminate].
  destruct (_ <=? _)%nat; [| discriminate]. intros Heq. injection Heq as <-. exact H.
Qed.

Lemma core_evaluate_ok e b v after :
  Forall instr_ok (Core.instructions e) -> bindings_ok b ->
  Core.evaluate e b = (inl v, after) -> language_value v = true.
Proof.
  intros He Hb. unfold Core.evaluate.
  assert (Hm : machine_ok (Core.mkMachine [] [] [] b))
    by (repeat split; simpl; try constructor; exact Hb).
  pose proof (run_ok_all (maxRecursionDepth (Core.limits e)) _ _ He Hm) as H.
  destruct (Core.run _ _ _) as [m | err b']; [| discriminate].
  destruct H as (Hs & _). destruct (Core.stack m) as [| v' [| w s]]; try discriminate.
  intros Heq. injection Heq as <- _. inversion Hs; assumption.
Qed.

Lemma primitive_is_language v : is_primitive v = true -> language_value v = true.
Proof. destruct v; simpl; auto; discriminate. Qed.

Lemma se_with_rejects_first (P : ParserApi) src variables k :
  first_rejected variables = Some k ->
  exists msg, SafeEvaluator.evaluate_with P (VStr src) variables = (Throw msg, variables).
Proof.
  intros Hf. pose proof (first_rejected_spec _ _ Hf) as [_ Hp].
  destruct (se_check_rejected k _ Hp) as [msg Hmsg]. exists msg.
  unfold SafeEvaluator.evaluate_with, SafeEvaluator.validateVariables.
  rewrite se_validate_keys_find. unfold first_rejected in Hf. rewrite Hf, Hmsg. reflexivity.
Qed.

Lemma wrap_result_return r v :
  fst (wrap_result r) = Return v -> exists after, r = (inl v, after).
Proof.
  destruct r as [[w | msg] after]; simpl; intros H; [| discriminate].
  injection H as <-. eauto.
Qed.

Lemma core_parse_ok p src e :
  registries_ok p -> functions p = ∅ ->
  Core.parse p src = inl e -> Forall instr_ok (Core.instructions e).
Proof.
  intros Hp Hf. unfold Core.parse.
  destruct (Core.compile p src) as [e' |] eqn:Hc; [| discriminate].
  intros H. injection H as <-. exact (compile_ok _ _ _ Hp Hf Hc).
Qed.

Lemma se_with_returns_language opts fns src variables v :
  bindings_ok variables ->
  fst (SafeEvaluator.evaluate_with (Core.api opts fns) (VStr src) variables) = Return v ->
  language_value v = true.
Proof.
  intros Hb.
  destruct (first_rejected variables) as [k |] eqn:Hr.
  { destruct (se_with_rejects_first (Core.api opts fns) src variables k Hr) as [msg ->].
    discriminate. }
  rewrite (se_with_after_validation _ src _ Hr).
  change (parser_parse (Core.api opts fns)
            (SafeEvaluator.restricted_parser (Core.api opts fns)) src)
    with (Core.parse (se_parser opts fns) src).
  destruct (Core.parse (se_parser opts fns) src) as [e | msg] eqn:Hp; [| discriminate].
  cbn [expr_variables Core.api].
  destruct (first_missing variables (Core.freeVariables e)); [discriminate |].
  intros H. apply wrap_result_return in H as [after H].
  exact (core_evaluate_ok _ _ _ _
           (core_parse_ok _ _ _ (se_registries_ok opts fns) eq_refl Hp) Hb H).
Qed.

Lemma empty_bindings_ok : bindings_ok (VObject []).
Proof. intros k H. simpl in H. discriminate. Qed.

Lemma se_returns_language opts fns expression variables v :
  bindings_ok variables ->
  fst (SafeEvaluator.evaluate (Core.api opts fns) expression variables) = Return v ->
  language_value v = true.
Proof.
  intros Hb.
  destruct (string_dec (typeof expression) "string") as [Hs | Hs].
  2: { rewrite se_not_string by exact Hs. discriminate. }
  apply typeof_string_inv in Hs as [src ->].
  unfold SafeEvaluator.evaluate. cbn [typeof negb]. change (String.eqb "string" "string") with true.
  cbn [negb]. destruct (is_undefined variables).
  { cbn [fst]. apply se_with_returns_language. exact empty_bindings_ok. }
  destruct (_ || _); [discriminate |]. apply se_with_returns_language. exact Hb.
Qed.

Lemma lib_guard_cases variables :
  (truthy variables = false \/ typeof variables <> "object" \/ isArray variables = true)
  \/ is_object variables = true.
Proof.
  destruct variables; simpl; auto; left; right; left; discriminate.
Qed.

Lemma lib_guard_fails (P : ParserApi) src variables :
  truthy variables = false \/ typeof variables <> "object" \/ isArray variables = true ->
  SafeEvaluatorLib.evaluate P (VStr src) variables
  = (Throw "Variables must be an object", variables).
Proof.
  intros H. unfold SafeEvaluatorLib.evaluate. cbn [typeof negb].
  change (String.eqb "string" "string") with true. cbn [negb].
  destruct H as [H | [H | H]].
  - rewrite H. reflexivity.
  - destruct (String.eqb_spec (typeof variables) "object"); [contradiction |].
    cbn [negb]. rewrite orb_true_r. reflexivity.
  - rewrite H, orb_true_r. reflexivity.
Qed.

Lemma lib_returns_language opts fns expression variables v :
  bindings_ok variables ->
  fst (SafeEvaluatorLib.evaluate (Core.api opts fns) expression variables) = Return v ->
  language_value v = true.
Proof.
  intros Hb.
  destruct (string_dec (typeof expression) "string") as [Hs | Hs].
  2: { rewrite lib_not_string by exact Hs. discriminate. }
  apply typeof_string_inv in Hs as [src ->].
  destruct (lib_guard_cases variables) as [Hg | Ho].
  { rewrite (lib_guard_fails _ src variables Hg). discriminate. }
  destruct (first_rejected variables) as [k |] eqn:Hr.
  { rewrite (lib_rejects_first _ src variables k Ho Hr). discriminate. }
  rewrite (lib_after_validation _ src variables Ho Hr).
  change (parser_parse (Core.api opts fns)
            (SafeEvaluatorLib.restricted_parser (Core.api opts fns)) src)
    with (Core.parse (lib_parser opts fns) src).
  destruct (Core.parse (lib_parser opts fns) src) as [e | msg] eqn:Hp; [| discriminate].
  cbn [expr_symbols Core.api].
  destruct (first_missing variables (Core.freeVariables e)); [discriminate |].
  intros H. apply wrap_result_return in H as [after H].
  exact (core_evaluate_ok _ _ _ _
           (core_parse_ok _ _ _ (lib_registries_ok opts fns) eq_refl Hp) Hb H).
Qed.

Lemma all_primitive_props props :
  forallb (fun kv => is_primitive (snd kv)) props = true ->
  forall k, hasOwnProperty (VObject props) k = true ->
            is_primitive (get (VObject props) k) = true.
Proof.
  intros Hall k Hown. simpl in *. apply bool_decide_eq_true in Hown as [v Hv].
  rewrite Hv. simpl. clear - Hall Hv.
  induction props as [| [k' v'] props IH]; simpl in *; [discriminate |].
  apply andb_prop in Hall as [H1 H2].
  destruct (String.eqb k k'); [injection Hv as <-; exact H1 | exact (IH H2 Hv)].
Qed.

(** ** The claims *)

Ltac enough_resources opts d c :=
  let m := fresh "m" in let f := fresh "f" in let a := fresh "a" in
  let d0 := fresh "d" in let c0 := fresh "c" in
  let Hd := fresh "Hd" in let Hc := fresh "Hc" in
  destruct opts as [m f a d0 c0]; cbn [maxRecursionDepth maxInstructionCount];
  intros Hd Hc;
  replace d0 with (d + (d0 - d)) by lia; replace c0 with (c + (c0 - c)) by lia;
  generalize (d0 - d), (c0 - c); clear Hd Hc; intros ? ?.

(** The syntax tree of [exec(1)] under either restricted parser,
    whatever the resource bounds: none, or the call of [exec] on 1. *)
Lemma exec_syntax_lib opts fns :
  (exists err, Core.syntax (lib_parser opts fns) "exec(1)" = Err err)
  \/ Core.syntax (lib_parser opts fns) "exec(1)"
     = Ok (Core.ECall (Core.EName "exec") [Core.ENum 1]).
Proof.
  destruct opts as [m f a d c].
  do 20 (destruct d as [| d]; [vm_compute; eauto |]). vm_compute. eauto.
Qed.

Lemma exec_syntax_se opts fns :
  (exists err, Core.syntax (se_parser opts fns) "exec(1)" = Err err)
  \/ Core.syntax (se_parser opts fns) "exec(1)"
     = Ok (Core.ECall (Core.EName "exec") [Core.ENum 1]).
Proof.
  destruct opts as [m f a d c].
  do 20 (destruct d as [| d]; [vm_compute; eauto |]). vm_compute. eauto.
Qed.

Lemma syntax_failure p src err :
  Core.syntax p src = Err err -> Core.parse p src = inr (message err).
Proof. intros H. unfold Core.parse, Core.compile. rewrite H. reflexivity. Qed.

Lemma exec_unknown_function opts fns v :
  32 <= maxRecursionDepth opts -> 16 <= maxInstructionCount opts ->
  is_primitive v = true ->
  SafeEvaluatorLib.evaluate (Core.api opts fns) (VStr "exec(1)") (VObject [("exec", v)])
  = (Throw "Failed to evaluate expression: unknown function: exec", VObject [("exec", v)])
  /\ SafeEvaluator.evaluate (Core.api opts fns) (VStr "exec(1)") (VObject [("exec", v)])
     = (Throw "Failed to evaluate expression: unknown function: exec",
        VObject [("exec", v)]).
Proof.
  enough_resources opts 32 16. intros Hv.
  destruct v; try discriminate; vm_compute; split; reflexivity.
Qed.









(** C4.  Free-variable completeness check: for a variables object whose
    bindings are all primitive and an expression the parser accepts, if
    some identifier the parser reports for the expression is not an own
    property of the variables object, both wrappers throw the
    unknown-identifier error naming the first such identifier, whatever
    evaluating the expression would do; if every identifier is an own
    property, the check passes and the outcome is that of evaluating the
    expression. *)
Theorem C4_identifiers_must_be_bound (P : ParserApi) (src : string)
  (props : list (string * value)) :
  (forall k, hasOwnProperty (VObject props) k = true ->
             is_primitive (get (VObject props) k) = true) ->
  (forall expr ids,
      parser_parse P (SafeEvaluatorLib.restricted_parser P) src = inl expr ->
      expr_symbols P expr = inl ids ->
      ((exists y, In y ids /\ hasOwnProperty (VObject props) y = false) ->
       exists x, first_missing (VObject props) ids = Some x
                 /\ In x ids /\ hasOwnProperty (VObject props) x = false
                 /\ SafeEvaluatorLib.evaluate P (VStr src) (VObject props)
                    = (Throw (lib_unknown x), VObject props))
      /\ ((forall y, In y ids -> hasOwnProperty (VObject props) y = true) ->
          SafeEvaluatorLib.evaluate P (VStr src) (VObject props)
          = wrap_result (expr_evaluate P expr (VObject props))))
  /\ (forall expr ids,
      parser_parse P (SafeEvaluator.restricted_parser P) src = inl expr ->
      expr_variables P expr = inl ids ->
      ((exists y, In y ids /\ hasOwnProperty (VObject props) y = false) ->
       exists x, first_missing (VObject props) ids = Some x
                 /\ In x ids /\ hasOwnProperty (VObject props) x = false
                 /\ SafeEvaluator.evaluate P (VStr src) (VObject props)
                    = (Throw (se_unknown x), VObject props))
      /\ ((forall y, In y ids -> hasOwnProperty (VObject props) y = true) ->
          SafeEvaluator.evaluate P (VStr src) (VObject props)
          = wrap_result (expr_evaluate P expr (VObject props)))).
Proof.
  intros Hall. pose proof (first_rejected_none (VObject props) Hall) as Hnone.
  split; intros expr ids Hparse Hids.
  - rewrite (lib_after_validation P src (VObject props) eq_refl Hnone), Hparse, Hids. split.
    + intros Hex. destruct (first_missing_exists _ _ Hex) as [x [Hx [Hin Hown]]].
      exists x. rewrite Hx. auto.
    + intros Hcov. rewrite (first_missing_none _ _ Hcov). reflexivity.
  - rewrite se_object, (se_with_after_validation P src _ Hnone), Hparse, Hids. split.
    + intros Hex. destruct (first_missing_exists _ _ Hex) as [x [Hx [Hin Hown]]].
      exists x. rewrite Hx. auto.
    + intros Hcov. rewrite (first_missing_none _ _ Hcov). reflexivity.
Qed.

Lemma C4_identifiers_must_be_bound_witness :
  exists x,
    first_missing (VObject [("a", VNum 1); ("b", VNum 2)]) ["a"; "b"; "c"] = Some x
    /\ In x ["a"; "b"; "c"]
    /\ hasOwnProperty (VObject [("a", VNum 1); ("b", VNum 2)]) x = false
    /\ SafeEvaluatorLib.evaluate (Core.api strict_options ∅) (VStr "a + b * c")
         (VObject [("a", VNum 1); ("b", VNum 2)])
       = (Throw (lib_unknown x), VObject [("a", VNum 1); ("b", VNum 2)]).
Proof.
  eapply (proj1 (C4_identifiers_must_be_bound (Core.api strict_options ∅) "a + b * c"
                   [("a", VNum 1); ("b", VNum 2)]
                   (all_primitive_props [("a", VNum 1); ("b", VNum 2)] eq_refl))).
  - vm_compute. reflexivity.
  - vm_compute. reflexivity.
  - exists "c". split; [simpl; auto | reflexivity].
Defined.

(** C5.  Precedence through both wrappers, given room to parse: [2 + 3 * 4]
    is 14, [2 ^ 3 ^ 2] is 512 and [-2 ^ 2] is -4; and for all numbers,
    [a + b * c] is [a + (b * c)], [x ^ 3 ^ 2] is [x ^ 9] and [-x ^ 2] is
    [-(x ^ 2)]. *)
Theorem C5_precedence (opts : options) (fns : gmap string function_entry) :
  32 <= maxRecursionDepth opts -> 16 <= maxInstructionCount opts ->
  (SafeEvaluatorLib.evaluate (Core.api opts fns) (VStr "2 + 3 * 4") (VObject [])
   = (Return (VNum 14), VObject [])
   /\ SafeEvaluator.evaluate (Core.api opts fns) (VStr "2 + 3 * 4") (VObject [])
      = (Return (VNum 14), VObject [])
   /\ SafeEvaluatorLib.evaluate (Core.api opts fns) (VStr "2 ^ 3 ^ 2") (VObject [])
      = (Return (VNum 512), VObject [])
   /\ SafeEvaluator.evaluate (Core.api opts fns) (VStr "2 ^ 3 ^ 2") (VObject [])
      = (Return (VNum 512), VObject [])
   /\ SafeEvaluatorLib.evaluate (Core.api opts fns) (VStr "-2 ^ 2") (VObject [])
      = (Return (VNum (-4)), VObject [])
   /\ SafeEvaluator.evaluate (Core.api opts fns) (VStr "-2 ^ 2") (VObject [])
      = (Return (VNum (-4)), VObject []))
  /\ (forall a b c : Q,
      fst (SafeEvaluatorLib.evaluate (Core.api opts fns) (VStr "a + b * c")
             (VObject [("a", VNum a); ("b", VNum b); ("c", VNum c)]))
      = Return (VNum (Qred (a + Qred (b * c))))
      /\ fst (SafeEvaluator.evaluate (Core.api opts fns) (VStr "a + b * c")
                (VObject [("a", VNum a); ("b", VNum b); ("c", VNum c)]))
         = Return (VNum (Qred (a + Qred (b * c)))))
  /\ (forall x : Q,
      fst (SafeEvaluatorLib.evaluate (Core.api opts fns) (VStr "x ^ 3 ^ 2")
             (VObject [("x", VNum x)]))
      = Return (VNum (Qred (x ^ 9)))
      /\ fst (SafeEvaluator.evaluate (Core.api opts fns) (VStr "x ^ 3 ^ 2")
                (VObject [("x", VNum x)]))
         = Return (VNum (Qred (x ^ 9)))
      /\ fst (SafeEvaluatorLib.evaluate (Core.api opts fns) (VStr "-x ^ 2")
                (VObject [("x", VNum x)]))
         = Return (VNum (Qred (- Qred (x ^ 2))))
      /\ fst (SafeEvaluator.evaluate (Core.api opts fns) (VStr "-x ^ 2")
                (VObject [("x", VNum x)]))
         = Return (VNum (Qred (- Qred (x ^ 2))))).
Proof.
  enough_resources opts 32 16. split; [| split].
  - vm_compute. repeat split.
  - intros qa qb qc. vm_compute. split; reflexivity.
  - intros qx. vm_compute. repeat split.
Qed.

Lemma C5_precedence_witness :
  (32 <= maxRecursionDepth strict_options /\ 16 <= maxInstructionCount strict_options)
  /\ SafeEvaluatorLib.evaluate (Core.api strict_options ∅) (VStr "2 + 3 * 4") (VObject [])
     = (Return (VNum 14), VObject [])
  /\ SafeEvaluator.evaluate (Core.api strict_options ∅) (VStr "-2 ^ 2") (VObject [])
     = (Return (VNum (-4)), VObject []).
Proof.
  assert (Hd : 32 <= maxRecursionDepth strict_options) by (simpl; lia).
  assert (Hc : 16 <= maxInstructionCount strict_options) by (simpl; lia).
  split; [split; assumption |].
  pose proof (proj1 (C5_precedence strict_options ∅ Hd Hc)) as (H1 & _ & _ & _ & _ & H6).
  split; [exact H1 | exact H6].
Defined.

Lemma take_args_local_functions n m args m1 :
  Core.take_args n m = Some (args, m1) -> Core.local_functions m1 = Core.local_functions m.
Proof.
  unfold Core.take_args. destruct (n <=? length (Core.stack m))%nat; [| discriminate].
  intros H. injection H as _ <-. reflexivity.
Qed.

(** The call of a local function whose body holds an unresolved call
    fails, whatever the machine: the values on its stack, the scopes, the
    binding map. *)
Lemma local_call_refused depth h n m ps body captured :
  assoc_lookup h (Core.local_functions m) = Some (Core.Closure ps body captured) ->
  refuses body = true ->
  exists err,
    Core.exec (Core.run depth) (Core.CallLocalFunction h n) m
    = Core.Failed err (Core.bindings m).
Proof.
  intros Hl Hr. cbn [Core.exec].
  destruct (Core.take_args n m) as [[args m1] |] eqn:Ht.
  - rewrite (take_args_local_functions _ _ _ _ Ht), Hl.
    apply take_args_bindings in Ht.
    destruct (length ps =? n)%nat.
    + match goal with |- context [Core.run depth body ?m0] =>
        destruct (run_refuses depth body m0 Hr) as [err He]; rewrite He
      end.
      simpl. rewrite Ht. eauto.
    + unfold Core.fail. rewrite Ht. eauto.
  - unfold Core.underflow, Core.fail. eauto.
Qed.

(** The definition of a local function whose body calls, where its
    evaluation always reaches, a name that is neither a registry function
    nor a local function compiles to a closure body that holds the
    unresolved call. *)
Lemma definition_refuses fns opts f h ps body params st code st' :
  fns !! f = None -> f <> h -> assoc_lookup f (Core.local_fns st) = None ->
  calls_eagerly f body = true -> defines f body = false ->
  Core.emit fns opts params (Core.EFunDef h ps body) st = Ok (code, st') ->
  exists cb, code = [Core.DefineLocalFunction h ps cb] /\ refuses cb = true.
Proof.
  intros Hf Hne Hst Hc Hd. cbn [Core.emit].
  destruct (negb (enableLocalFunctionDefinition opts)); [discriminate |].
  match goal with |- context [Core.emit fns opts ?ps' body ?s] =>
    pose proof (emit_eager fns opts f body Hf ps' s Hd) as H;
    destruct (Core.emit fns opts ps' body s) as [[cb stb] |]; simpl; [| discriminate]
  end.
  intros Heq. injection Heq as <- _. exists cb. split; [reflexivity |].
  apply H; [| exact Hc]. simpl.
  destruct (String.eqb_spec f h); [contradiction | exact Hst].
Qed.



(** Over a parser that keeps no state the threaded wrappers are the
    wrappers. *)
Lemma counting_lib_evaluate (P : ParserApi) expression variables w :
  fst (Stateful.lib_evaluate (counting P) expression variables w)
  = SafeEvaluatorLib.evaluate P expression variables.
Proof.
  unfold Stateful.lib_evaluate, SafeEvaluatorLib.evaluate. cbn [counting s_new_Parser
    s_parse s_symbols s_evaluate].
  change (Stateful.lib_restrict (new_Parser P)) with (SafeEvaluatorLib.restricted_parser P).
  repeat match goal with
         | |- fst (if ?c then _ else _) = _ => destruct c
         | |- fst (match ?x with Some _ => _ | None => _ end) = _ => destruct x
         | |- fst (match ?x with inl _ => _ | inr _ => _ end) = _ => destruct x
         end; try reflexivity.
  destruct (expr_evaluate P _ variables) as [[v | msg] after]; reflexivity.
Qed.

Lemma counting_se_evaluate_with (P : ParserApi) expression variables w :
  fst (Stateful.se_evaluate_with (counting P) expression variables w)
  = SafeEvaluator.evaluate_with P expression variables.
Proof.
  unfold Stateful.se_evaluate_with, SafeEvaluator.evaluate_with. cbn [counting s_new_Parser
    s_parse s_variables s_evaluate].
  change (Stateful.se_restrict (new_Parser P)) with (SafeEvaluator.restricted_parser P).
  repeat match goal with
         | |- fst (if ?c then _ else _) = _ => destruct c
         | |- fst (match ?x with Some _ => _ | None => _ end) = _ => destruct x
         | |- fst (match ?x with inl _ => _ | inr _ => _ end) = _ => destruct x
         end; try reflexivity.
  destruct (expr_evaluate P _ variables) as [[v | msg] after]; reflexivity.
Qed.

Lemma counting_se_evaluate (P : ParserApi) expression variables w :
  fst (Stateful.se_evaluate (counting P) expression variables w)
  = SafeEvaluator.evaluate P expression variables.
Proof.
  unfold Stateful.se_evaluate, SafeEvaluator.evaluate.
  destruct (negb _); [reflexivity |].
  destruct (is_undefined variables).
  - pose proof (counting_se_evaluate_with P expression (VObject []) w) as H.
    destruct (Stateful.se_evaluate_with (counting P) expression (VObject []) w) as [r w1].
    simpl in *. rewrite H. reflexivity.
  - destruct (_ || _); [reflexivity |]. apply counting_se_evaluate_with.
Qed.

Lemma answers_alike_counting (P : ParserApi) : answers_alike (counting P).
Proof. repeat split. Qed.

Ltac same_answer H x w1 w2 :=
  let E := fresh "E" in
  let x' := fresh "x" in
  pose proof H as E;
  match type of E with
  | fst ?a = fst ?b =>
      destruct a as [x w1]; destruct b as [x' w2]; cbn [fst] in E; subst x'
  end.

Section Determinism.
Variable S : StatefulApi.
Hypothesis alike : answers_alike S.

Lemma lib_evaluate_alike expression variables w w' :
  fst (Stateful.lib_evaluate S expression variables w)
  = fst (Stateful.lib_evaluate S expression variables w').
Proof.
  destruct alike as (Hn & Hp & Hy & _ & He).
  unfold Stateful.lib_evaluate.
  destruct (negb _); [reflexivity |]. destruct (_ || _); [reflexivity |].
  destruct (SafeEvaluatorLib.validate_loop _ _); [reflexivity |].
  same_answer (Hn w w') p w1 w1'.
  same_answer (Hp (Stateful.lib_restrict p) (string_of_value expression) w1 w1') r w2 w2'.
  destruct r as [expr | msg]; [| reflexivity].
  same_answer (Hy expr w2 w2') l w3 w3'.
  destruct l as [syms | msg]; [| reflexivity].
  destruct (SafeEvaluatorLib.check_symbols _ _); [reflexivity |].
  same_answer (He expr variables w3 w3') o w4 w4'.
  destruct o as [[v | msg] after]; reflexivity.
Qed.

Lemma se_evaluate_with_alike expression variables w w' :
  fst (Stateful.se_evaluate_with S expression variables w)
  = fst (Stateful.se_evaluate_with S expression variables w').
Proof.
  destruct alike as (Hn & Hp & _ & Hy & He).
  unfold Stateful.se_evaluate_with.
  destruct (SafeEvaluator.validateVariables _); [reflexivity |].
  same_answer (Hn w w') p w1 w1'.
  same_answer (Hp (Stateful.se_restrict p) (string_of_value expression) w1 w1') r w2 w2'.
  destruct r as [expr | msg]; [| reflexivity].
  same_answer (Hy expr w2 w2') l w3 w3'.
  destruct l as [ids | msg]; [| reflexivity].
  destruct (SafeEvaluator.validateIdentifiers _ _); [reflexivity |].
  same_answer (He expr variables w3 w3') o w4 w4'.
  destruct o as [[v | msg] after]; reflexivity.
Qed.

Lemma se_evaluate_alike expression variables w w' :
  fst (Stateful.se_evaluate S expression variables w)
  = fst (Stateful.se_evaluate S expression variables w').
Proof.
  unfold Stateful.se_evaluate.
  destruct (negb _); [reflexivity |].
  destruct (is_undefined variables).
  - pose proof (se_evaluate_with_alike expression (VObject []) w w') as H.
    destruct (Stateful.se_evaluate_with S expression (VObject []) w) as [r w1].
    destruct (Stateful.se_evaluate_with S expression (VObject []) w') as [r' w1'].
    simpl in *. rewrite H. reflexivity.
  - destruct (_ || _); [reflexivity |]. apply se_evaluate_with_alike.
Qed.
End Determinism.



(** Without the hypothesis the wrappers pass the state of the parser on:
    over a parser whose [expr.evaluate] returns the number of calls made
    so far, two calls on the same arguments return different values. *)
Example hidden_state_shows :
  fst (fst (Stateful.lib_evaluate (leaking (Core.api strict_options ∅))
              (VStr "1") (VObject []) 0))
  = Return (VNum 3)
  /\ fst (fst (Stateful.lib_evaluate (leaking (Core.api strict_options ∅)) (VStr "1")
                 (VObject [])
                 (snd (Stateful.lib_evaluate (leaking (Core.api strict_options ∅))
                         (VStr "1") (VObject []) 0))))
     = Return (VNum 7)
  /\ ~ answers_alike (leaking (Core.api strict_options ∅)).
Proof.
  split; [vm_compute; reflexivity |]. split; [vm_compute; reflexivity |].
  intros (_ & _ & _ & _ & He).
  specialize (He (Core.mkCompiled [] [] strict_options) VNull 0 1).
  vm_compute in He. discriminate.
Qed.

(** C8.  No mutation of the caller's binding map: whatever the arguments,
    and whether the call returns or throws at any stage, the variables
    argument is after the call what it was before. *)
Theorem C8_bindings_unchanged (opts : options) (fns : gmap string function_entry)
  (expression variables : value) :
  snd (SafeEvaluatorLib.evaluate (Core.api opts fns) expression variables) = variables
  /\ snd (SafeEvaluator.evaluate (Core.api opts fns) expression variables) = variables.
Proof.
  split.
  - apply lib_frame. intros e b. apply core_evaluate_frame.
  - apply se_frame. intros e b. apply core_evaluate_frame.
Qed.

(** An assignment binds in the local scope of the evaluation: the later
    read sees it, the caller's object does not. *)
Example assignment_is_local :
  SafeEvaluatorLib.evaluate (Core.api permissive_options ∅) (VStr "x = x + 1; x * 10")
    (VObject [("x", VNum 1)])
  = (Return (VNum 20), VObject [("x", VNum 1)]).
Proof. vm_compute. reflexivity. Qed.

Lemma agree_refl r : agree r r.
Proof. destruct r; simpl; auto. Qed.

Lemma core_parse_agree opts fns src :
  mentions differing_names src = false ->
  Core.parse (lib_parser opts fns) src = Core.parse (se_parser opts fns) src.
Proof. intros H. unfold Core.parse. rewrite (compile_agree opts fns src H). reflexivity. Qed.

(** C9, as amended.  Agreement of the two wrappers, for every parser:
    when the variables argument is neither omitted nor an array, the
    parser answers [parser.parse] alike under the registries the two
    versions leave it, and [expr.symbols()] and [expr.variables()] list
    the same identifiers for the parsed expression, the two versions
    either return the same value or both throw. *)
Theorem C9_agreement_of_the_two_wrappers (P : ParserApi) (expression variables : value) :
  variables <> VUndefined -> isArray variables = false ->
  parser_parse P (SafeEvaluatorLib.restricted_parser P) (string_of_value expression)
  = parser_parse P (SafeEvaluator.restricted_parser P) (string_of_value expression) ->
  (forall expr,
      parser_parse P (SafeEvaluator.restricted_parser P) (string_of_value expression)
      = inl expr ->
      expr_symbols P expr = expr_variables P expr) ->
  agree (fst (SafeEvaluatorLib.evaluate P expression variables))
        (fst (SafeEvaluator.evaluate P expression variables)).
Proof.
  intros Hu Ha Hp Hl.
  destruct (string_dec (typeof expression) "string") as [Hs | Hs].
  2: { rewrite lib_not_string, se_not_string by exact Hs. exact I. }
  apply typeof_string_inv in Hs as [src ->]. cbn [string_of_value] in Hp, Hl.
  assert (Hobj : (is_null variables = true \/ typeof variables <> "object")
                 \/ is_object variables = true).
  { destruct variables; simpl in *; try discriminate; auto;
      left; right; discriminate. }
  destruct Hobj as [Hno | Ho].
  { rewrite lib_not_object, se_not_object by assumption. exact I. }
  destruct (first_rejected variables) as [k |] eqn:Hr.
  { rewrite (lib_rejects_first _ src variables k Ho Hr).
    destruct (se_rejects_first P src variables k Ho Hr) as [msg [_ ->]].
    exact I. }
  rewrite (lib_after_validation _ src variables Ho Hr), (se_plain_object _ src variables Ho),
    (se_with_after_validation _ src _ Hr), Hp.
  destruct (parser_parse P (SafeEvaluator.restricted_parser P) src) as [e | msg];
    [| exact I].
  rewrite (Hl e eq_refl). destruct (expr_variables P e) as [ids | msg]; [| exact I].
  destruct (first_missing variables ids); [exact I |].
  apply agree_refl.
Qed.

(** The modelled parser meets the conditions of C9 on every expression
    that mentions neither the operator [not] nor a built-in constant
    ([E], [PI], [true], [false]). *)
Lemma core_meets_agreement opts fns src :
  mentions differing_names src = false ->
  parser_parse (Core.api opts fns) (SafeEvaluatorLib.restricted_parser (Core.api opts fns)) src
  = parser_parse (Core.api opts fns) (SafeEvaluator.restricted_parser (Core.api opts fns)) src
  /\ forall expr, expr_symbols (Core.api opts fns) expr = expr_variables (Core.api opts fns) expr.
Proof.
  intros Hm. split; [exact (core_parse_agree opts fns src Hm) | reflexivity].
Qed.

Lemma C9_agreement_of_the_two_wrappers_witness :
  (VObject [("x", VNum 7)] <> VUndefined
   /\ isArray (VObject [("x", VNum 7)]) = false
   /\ mentions differing_names "x > 5 ? 10 : 20" = false)
  /\ agree (fst (SafeEvaluatorLib.evaluate (Core.api strict_options ∅)
                   (VStr "x > 5 ? 10 : 20") (VObject [("x", VNum 7)])))
           (fst (SafeEvaluator.evaluate (Core.api strict_options ∅)
                   (VStr "x > 5 ? 10 : 20") (VObject [("x", VNum 7)]))).
Proof.
  assert (Hu : VObject [("x", VNum 7)] <> VUndefined) by discriminate.
  assert (Ha : isArray (VObject [("x", VNum 7)]) = false) by reflexivity.
  assert (Hm : mentions differing_names "x > 5 ? 10 : 20" = false)
    by (vm_compute; reflexivity).
  split; [repeat split; assumption |].
  exact (C9_agreement_of_the_two_wrappers (Core.api strict_options ∅)
           (VStr "x > 5 ? 10 : 20") (VObject [("x", VNum 7)]) Hu Ha
           (proj1 (core_meets_agreement strict_options ∅ "x > 5 ? 10 : 20" Hm))
           (fun expr _ => proj2 (core_meets_agreement strict_options ∅ "x > 5 ? 10 : 20" Hm)
                            expr)).
Defined.

(** C9 as stated fails at each of the inputs it singles out: an omitted
    variables argument, the operator [not], and the constant [PI]. *)
Lemma C9_counterexample :
  ~ agree (fst (SafeEvaluatorLib.evaluate (Core.api strict_options ∅) (VStr "5 + 5")
                  VUndefined))
          (fst (SafeEvaluator.evaluate (Core.api strict_options ∅) (VStr "5 + 5")
                  VUndefined))
  /\ ~ agree (fst (SafeEvaluatorLib.evaluate (Core.api strict_options ∅) (VStr "not x")
                     (VObject [("x", VBool false)])))
             (fst (SafeEvaluator.evaluate (Core.api strict_options ∅) (VStr "not x")
                     (VObject [("x", VBool false)])))
  /\ ~ agree (fst (SafeEvaluatorLib.evaluate (Core.api strict_options ∅) (VStr "PI")
                     (VObject [])))
             (fst (SafeEvaluator.evaluate (Core.api strict_options ∅) (VStr "PI")
                     (VObject []))).
Proof. vm_compute. repeat split; intros H; exact H. Qed.

(** What the two versions do at the inputs where they differ. *)
Example wrappers_differ :
  (SafeEvaluatorLib.evaluate (Core.api strict_options ∅) (VStr "5 + 5") VUndefined
   = (Throw "Variables must be an object", VUndefined)
   /\ SafeEvaluator.evaluate (Core.api strict_options ∅) (VStr "5 + 5") VUndefined
      = (Return (VNum 10), VUndefined))
  /\ (SafeEvaluatorLib.evaluate (Core.api strict_options ∅) (VStr "not x")
        (VObject [("x", VBool false)])
      = (Return (VBool true), VObject [("x", VBool false)])
      /\ SafeEvaluator.evaluate (Core.api strict_options ∅) (VStr "not x")
           (VObject [("x", VBool false)])
         = (Throw "Failed to parse expression: unexpected token at offset 4",
            VObject [("x", VBool false)]))
  /\ (SafeEvaluatorLib.evaluate (Core.api strict_options ∅) (VStr "PI") (VObject [])
      = (Throw (lib_unknown "PI"), VObject [])
      /\ SafeEvaluator.evaluate (Core.api strict_options ∅) (VStr "PI") (VObject [])
         = (Return (VNum (3141592653589793 # 1000000000000000)), VObject []))
  /\ (SafeEvaluatorLib.evaluate (Core.api strict_options ∅) (VStr "1") (VArray [VNum 1])
      = (Throw "Variables must be an object", VArray [VNum 1])
      /\ SafeEvaluator.evaluate (Core.api strict_options ∅) (VStr "1") (VArray [VNum 1])
         = (Return (VNum 1), VArray [VNum 1])).
Proof. vm_compute. repeat split. Qed.

(** C10, as amended.  Input-type guards, for every parser, so before any
    parsing: both wrappers throw 'Expression must be a string' for every
    expression that is not a string.  For a string expression,
    src/lib/safe-evaluator.js throws 'Variables must be an object' for
    every variables argument that is null, not of type object (undefined
    included) or an array; src/unnamed/part_000 throws it for every
    variables argument that is null or not of type object, undefined
    apart: on undefined its outcome is the one it has on the empty
    object, and the argument stays undefined. *)
Theorem C10_input_guards (P : ParserApi) (expression variables : value) :
  (typeof expression <> "string" ->
   SafeEvaluatorLib.evaluate P expression variables
   = (Throw "Expression must be a string", variables)
   /\ SafeEvaluator.evaluate P expression variables
      = (Throw "Expression must be a string", variables))
  /\ (typeof expression = "string" ->
      (is_null variables = true \/ typeof variables <> "object" \/ isArray variables = true ->
       SafeEvaluatorLib.evaluate P expression variables
       = (Throw "Variables must be an object", variables))
      /\ (is_null variables = true \/ typeof variables <> "object" ->
          variables <> VUndefined ->
          SafeEvaluator.evaluate P expression variables
          = (Throw "Variables must be an object", variables))
      /\ (variables = VUndefined ->
          SafeEvaluator.evaluate P expression variables
          = (fst (SafeEvaluator.evaluate P expression (VObject [])), VUndefined))).
Proof.
  split.
  - intros H. split; [apply lib_not_string | apply se_not_string]; exact H.
  - intros Hs. apply typeof_string_inv in Hs as [src ->]. split; [| split].
    + intros Hv. apply lib_guard_fails.
      destruct Hv as [Hv | [Hv | Hv]]; auto.
      left. destruct variables; try discriminate. reflexivity.
    + intros Hv Hu. apply se_not_object; assumption.
    + intros ->. reflexivity.
Qed.

Lemma C10_input_guards_witness :
  (typeof (VNum 123) <> "string"
   /\ SafeEvaluatorLib.evaluate (Core.api strict_options ∅) (VNum 123) (VObject [])
      = (Throw "Expression must be a string", VObject [])
   /\ SafeEvaluator.evaluate (Core.api strict_options ∅) (VNum 123) (VObject [])
      = (Throw "Expression must be a string", VObject []))
  /\ (typeof (VStr "x") = "string"
      /\ typeof (VStr "not an object") <> "object"
      /\ VStr "not an object" <> VUndefined
      /\ SafeEvaluatorLib.evaluate (Core.api strict_options ∅) (VStr "x")
           (VStr "not an object")
         = (Throw "Variables must be an object", VStr "not an object")
      /\ SafeEvaluator.evaluate (Core.api strict_options ∅) (VStr "x")
           (VStr "not an object")
         = (Throw "Variables must be an object", VStr "not an object"))
  /\ (isArray (VArray [VNum 1]) = true
      /\ SafeEvaluatorLib.evaluate (Core.api strict_options ∅) (VStr "x") (VArray [VNum 1])
         = (Throw "Variables must be an object", VArray [VNum 1])).
Proof.
  assert (H1 : typeof (VNum 123) <> "string") by (simpl; discriminate).
  assert (H2 : typeof (VStr "not an object") <> "object") by (simpl; discriminate).
  assert (H3 : VStr "not an object" <> VUndefined) by discriminate.
  split; [| split].
  - split; [exact H1 |].
    exact (proj1 (C10_input_guards (Core.api strict_options ∅) (VNum 123) (VObject [])) H1).
  - split; [reflexivity |]. split; [exact H2 |]. split; [exact H3 |].
    destruct (proj2 (C10_input_guards (Core.api strict_options ∅) (VStr "x")
                       (VStr "not an object")) eq_refl) as (Hl & Hs & _).
    split; [exact (Hl (or_intror (or_introl H2))) | exact (Hs (or_intror H2) H3)].
  - split; [reflexivity |].
    destruct (proj2 (C10_input_guards (Core.api strict_options ∅) (VStr "x")
                       (VArray [VNum 1])) eq_refl) as (Hl & _).
    exact (Hl (or_intror (or_intror eq_refl))).
Defined.

(** C10 as stated fails for the version of src/unnamed/part_000 at an
    omitted variables argument: undefined is not an object, and the call
    evaluates the expression on an empty object. *)
Lemma C10_counterexample :
  typeof VUndefined <> "object"
  /\ fst (SafeEvaluator.evaluate (Core.api strict_options ∅) (VStr "5 + 5") VUndefined)
     <> Throw "Variables must be an object"
  /\ SafeEvaluator.evaluate (Core.api strict_options ∅) (VStr "5 + 5") VUndefined
     = (Return (VNum 10), VUndefined).
Proof.
  split; [simpl; discriminate |]. split; [vm_compute; discriminate | vm_compute; reflexivity].
Qed.

(** ** Further properties of the wrappers *)

Lemma first_rejected_validated variables :
  validated variables -> first_rejected variables = None.
Proof. exact (first_rejected_none variables). Qed.

Lemma first_rejected_enumerable_validated variables :
  first_rejected variables = None <-> enumerable_validated variables.
Proof. exact (first_rejected_enumerable variables). Qed.

Lemma first_missing_covers variables ids :
  first_missing variables ids = None <-> covers variables ids.
Proof.
  split.
  - intros H x Hin. pose proof (find_none _ _ H x Hin) as Hn. simpl in Hn.
    destruct (hasOwnProperty variables x); [reflexivity | discriminate].
  - exact (first_missing_none variables ids).
Qed.

Lemma wrap_result_fst r :
  fst (wrap_result r)
  = match fst r with
    | inl v => Return v
    | inr msg => Throw ("Failed to evaluate expression: " +:+ msg)
    end.
Proof. destruct r as [[v | msg] after]; reflexivity. Qed.

(** The outcome of src/lib/safe-evaluator.js on a string and a non-null
    object that is no array, stage by stage. *)
Lemma lib_outcome (P : ParserApi) src variables :
  is_object variables = true ->
  fst (SafeEvaluatorLib.evaluate P (VStr src) variables)
  = match first_rejected variables with
    | Some k => Throw (lib_rejection k (typeof (get variables k)))
    | None =>
        match parser_parse P (SafeEvaluatorLib.restricted_parser P) src with
        | inr msg => Throw ("Failed to parse expression: " +:+ msg)
        | inl expr =>
            match expr_symbols P expr with
            | inr msg => Throw ("Failed to analyze expression: " +:+ msg)
            | inl syms =>
                match first_missing variables syms with
                | Some x => Throw (lib_unknown x)
                | None => fst (wrap_result (expr_evaluate P expr variables))
                end
            end
        end
    end.
Proof.
  intros Ho. destruct (first_rejected variables) as [k |] eqn:Hr.
  - rewrite (lib_rejects_first P src variables k Ho Hr). reflexivity.
  - rewrite (lib_after_validation P src variables Ho Hr).
    destruct (parser_parse P _ src) as [expr | msg]; [| reflexivity].
    destruct (expr_symbols P expr) as [syms | msg]; [| reflexivity].
    destruct (first_missing variables syms); reflexivity.
Qed.

Lemma is_object_spec variables :
  is_object variables = true
  <-> typeof variables = "object" /\ is_null variables = false /\ isArray variables = false.
Proof.
  destruct variables; simpl; split; try discriminate; try (intros (? & ? & ?); discriminate);
    auto.
Qed.

(** The outcome of src/unnamed/part_000 once [variables] names an object,
    stage by stage. *)
Lemma se_with_outcome (P : ParserApi) src variables :
  fst (SafeEvaluator.evaluate_with P (VStr src) variables)
  = match first_rejected variables with
    | Some k =>
        match SafeEvaluator.validatePrimitive (get variables k) k with
        | Some msg => Throw msg
        | None => Throw EmptyString
        end
    | None =>
        match parser_parse P (SafeEvaluator.restricted_parser P) src with
        | inr msg => Throw ("Failed to parse expression: " +:+ msg)
        | inl expr =>
            match expr_variables P expr with
            | inr msg => Throw msg
            | inl ids =>
                match first_missing variables ids with
                | Some x => Throw (se_unknown x)
                | None => fst (wrap_result (expr_evaluate P expr variables))
                end
            end
        end
    end.
Proof.
  destruct (first_rejected variables) as [k |] eqn:Hr.
  - pose proof (first_rejected_spec _ _ Hr) as [_ Hp].
    destruct (se_check_rejected k _ Hp) as [msg Hmsg]. rewrite Hmsg.
    unfold SafeEvaluator.evaluate_with, SafeEvaluator.validateVariables.
    rewrite se_validate_keys_find. unfold first_rejected in Hr. rewrite Hr, Hmsg.
    reflexivity.
  - rewrite (se_with_after_validation P src variables Hr).
    destruct (parser_parse P _ src) as [expr | msg]; [| reflexivity].
    destruct (expr_variables P expr) as [ids | msg]; [| reflexivity].
    destruct (first_missing variables ids); reflexivity.
Qed.

Lemma se_guard_cases variables :
  (is_undefined variables = false
   /\ (is_null variables = true \/ typeof variables <> "object"))
  \/ (is_undefined variables = true
      \/ (typeof variables = "object" /\ is_null variables = false)).
Proof.
  destruct variables; simpl; auto; left; split; auto; right; discriminate.
Qed.

(** Past the guards, [evaluate] of src/unnamed/part_000 is the rest of
    its body on the object [variables] then names. *)
Lemma se_past_guards (P : ParserApi) src variables :
  is_undefined variables = true
  \/ (typeof variables = "object" /\ is_null variables = false) ->
  fst (SafeEvaluator.evaluate P (VStr src) variables)
  = fst (SafeEvaluator.evaluate_with P (VStr src) (se_bindings variables)).
Proof.
  intros H. unfold SafeEvaluator.evaluate, se_bindings. cbn [typeof negb].
  change (String.eqb "string" "string") with true. cbn [negb].
  destruct (is_undefined variables) eqn:Hu; [reflexivity |].
  destruct H as [H | [Ht Hn]]; [discriminate |].
  rewrite Hn, Ht. reflexivity.
Qed.


(** X1.  [evaluate] of src/lib/safe-evaluator.js returns a value exactly
    when every stage has passed: the expression is a string the
    restricted parser accepts, the variables argument is a non-null
    object that is no array, each of its own enumerable properties holds
    a primitive, each symbol the parser lists for the expression is an
    own property of it, enumerable or not, and
    [expr.evaluate(variables)] returns that value. *)
Theorem lib_returns_iff (P : ParserApi) (expression variables result : value) :
  fst (SafeEvaluatorLib.evaluate P expression variables) = Return result
  <-> lib_accepts P expression variables result.
Proof.
  split.
  - intros H.
    destruct (string_dec (typeof expression) "string") as [Hs | Hs].
    2: { rewrite lib_not_string in H by exact Hs. discriminate. }
    destruct (typeof_string_inv _ Hs) as [src ->].
    destruct (lib_guard_cases variables) as [Hg | Ho].
    { rewrite (lib_guard_fails P src variables Hg) in H. discriminate. }
    rewrite (lib_outcome P src variables Ho) in H.
    destruct (first_rejected variables) as [k |] eqn:Hr; [discriminate |].
    split; [reflexivity |].
    destruct (proj1 (is_object_spec variables) Ho) as (Ht & Hn & Ha).
    repeat (split; [assumption |]).
    split; [apply first_rejected_enumerable_validated; exact Hr |]. cbn [string_of_value].
    destruct (parser_parse P _ src) as [expr | msg] eqn:Hp; [| discriminate].
    destruct (expr_symbols P expr) as [syms | msg] eqn:Hy; [| discriminate].
    destruct (first_missing variables syms) eqn:Hm; [discriminate |].
    exists expr, syms. split; [reflexivity |]. split; [exact Hy |].
    split; [apply first_missing_covers; exact Hm |].
    rewrite wrap_result_fst in H.
    destruct (fst (expr_evaluate P expr variables)) as [v | msg]; [| discriminate].
    injection H as ->. reflexivity.
  - intros (Hs & Ht & Hn & Ha & Hv & expr & syms & Hp & Hy & Hc & He).
    destruct (typeof_string_inv _ Hs) as [src ->].
    pose proof (proj2 (is_object_spec variables) (conj Ht (conj Hn Ha))) as Ho.
    apply first_rejected_enumerable_validated in Hv. apply first_missing_covers in Hc.
    cbn [string_of_value] in Hp.
    rewrite (lib_outcome P src variables Ho), Hv, Hp, Hy, Hc, wrap_result_fst, He.
    reflexivity.
Qed.

Lemma lib_returns_iff_witness :
  lib_accepts (Core.api strict_options ∅) (VStr "x * 2 + y")
    (VObject [("x", VNum 5); ("y", VNum 3)]) (VNum 13).
Proof.
  apply (proj1 (lib_returns_iff (Core.api strict_options ∅) (VStr "x * 2 + y")
                  (VObject [("x", VNum 5); ("y", VNum 3)]) (VNum 13))).
  vm_compute. reflexivity.
Defined.

(** X3.  [evaluate] of src/unnamed/part_000 returns a value exactly when
    every stage has passed: the expression is a string the restricted
    parser accepts, the variables argument is omitted or a non-null
    object (an array counts), each own enumerable property of the object
    holds a primitive, each identifier [expr.variables()] lists is an own
    property of it, enumerable or not, and [expr.evaluate(variables)]
    returns that value; for an omitted argument the object is [{}]. *)
Theorem se_returns_iff (P : ParserApi) (expression variables result : value) :
  fst (SafeEvaluator.evaluate P expression variables) = Return result
  <-> se_accepts P expression variables result.
Proof.
  split.
  - intros H.
    destruct (string_dec (typeof expression) "string") as [Hs | Hs].
    2: { rewrite se_not_string in H by exact Hs. discriminate. }
    destruct (typeof_string_inv _ Hs) as [src ->].
    destruct (se_guard_cases variables) as [[Hu Hg] | Hg].
    { rewrite se_not_object in H; [discriminate | | exact Hg].
      intros ->. discriminate. }
    rewrite (se_past_guards P src variables Hg), se_with_outcome in H.
    split; [reflexivity |]. split; [exact Hg |].
    destruct (first_rejected (se_bindings variables)) as [k |] eqn:Hr.
    { destruct (SafeEvaluator.validatePrimitive _ k); discriminate. }
    split; [apply first_rejected_enumerable_validated; exact Hr |]. cbn [string_of_value].
    destruct (parser_parse P _ src) as [expr | msg] eqn:Hp; [| discriminate].
    destruct (expr_variables P expr) as [ids | msg] eqn:Hy; [| discriminate].
    destruct (first_missing (se_bindings variables) ids) eqn:Hm; [discriminate |].
    exists expr, ids. split; [reflexivity |]. split; [exact Hy |].
    split; [apply first_missing_covers; exact Hm |].
    rewrite wrap_result_fst in H.
    destruct (fst (expr_evaluate P expr (se_bindings variables))) as [v | msg];
      [| discriminate].
    injection H as ->. reflexivity.
  - intros (Hs & Hg & Hv & expr & ids & Hp & Hy & Hc & He).
    destruct (typeof_string_inv _ Hs) as [src ->].
    apply first_rejected_enumerable_validated in Hv. apply first_missing_covers in Hc.
    cbn [string_of_value] in Hp.
    rewrite (se_past_guards P src variables Hg), se_with_outcome, Hv, Hp, Hy, Hc,
      wrap_result_fst, He.
    reflexivity.
Qed.

Lemma se_returns_iff_witness :
  se_accepts (Core.api strict_options ∅) (VStr "5 + 5") VUndefined (VNum 10).
Proof.
  apply (proj1 (se_returns_iff (Core.api strict_options ∅) (VStr "5 + 5") VUndefined
                  (VNum 10))).
  vm_compute. reflexivity.
Defined.

(** X5.  A failure of the parser's identifier listing reaches the caller
    differently from the two versions: src/lib/safe-evaluator.js calls
    [expr.symbols()] inside a try block and throws 'Failed to analyze
    expression: ' followed by the parser's message; src/unnamed/part_000
    calls [expr.variables()] outside any try block, so the parser's error
    is thrown unchanged. *)
Theorem analysis_failure_messages (P : ParserApi) (src : string)
  (props : list (string * value)) :
  validated (VObject props) ->
  (forall expr msg,
      parser_parse P (SafeEvaluatorLib.restricted_parser P) src = inl expr ->
      expr_symbols P expr = inr msg ->
      SafeEvaluatorLib.evaluate P (VStr src) (VObject props)
      = (Throw ("Failed to analyze expression: " +:+ msg), VObject props))
  /\ (forall expr msg,
      parser_parse P (SafeEvaluator.restricted_parser P) src = inl expr ->
      expr_variables P expr = inr msg ->
      SafeEvaluator.evaluate P (VStr src) (VObject props) = (Throw msg, VObject props)).
Proof.
  intros Hv. apply first_rejected_validated in Hv. split; intros expr msg Hp Hy.
  - rewrite (lib_after_validation P src (VObject props) eq_refl Hv), Hp, Hy. reflexivity.
  - rewrite se_object, (se_with_after_validation P src _ Hv), Hp, Hy. reflexivity.
Qed.

Lemma analysis_failure_messages_witness :
  SafeEvaluatorLib.evaluate failing_analysis (VStr "x") (VObject [("x", VNum 1)])
  = (Throw "Failed to analyze expression: no symbols", VObject [("x", VNum 1)])
  /\ SafeEvaluator.evaluate failing_analysis (VStr "x") (VObject [("x", VNum 1)])
     = (Throw "no symbols", VObject [("x", VNum 1)]).
Proof.
  destruct (analysis_failure_messages failing_analysis "x" [("x", VNum 1)]
              (all_primitive_props [("x", VNum 1)] eq_refl)) as [Hlib Hse].
  split; [exact (Hlib tt "no symbols" eq_refl eq_refl)
         | exact (Hse tt "no symbols" eq_refl eq_refl)].
Defined.

(** X6.  The validation of the bindings passes, in either version, exactly
    when every own enumerable property of the variables object holds a
    number, a boolean, a string, null or undefined: the loop of
    src/lib/safe-evaluator.js and [validateVariables] of
    src/unnamed/part_000 accept the same objects, and neither looks at a
    property that is not enumerable. *)
Theorem binding_validation_iff (variables : value) :
  (SafeEvaluatorLib.validate_loop variables (for_in_keys variables) = None
   <-> enumerable_validated variables)
  /\ (SafeEvaluator.validateVariables variables = None <-> enumerable_validated variables).
Proof.
  unfold SafeEvaluator.validateVariables.
  rewrite lib_validate_loop_find, se_validate_keys_find,
    <- first_rejected_enumerable_validated.
  unfold first_rejected.
  destruct (find (rejects variables) (for_in_keys variables)) as [k |] eqn:Hf.
  - pose proof (first_rejected_spec variables k Hf) as [_ Hp].
    rewrite (lib_check_rejected k _ Hp).
    destruct (se_check_rejected k _ Hp) as [msg ->].
    split; split; discriminate.
  - split; split; reflexivity.
Qed.

(** X7.  The identifier check of both versions passes exactly when every
    listed identifier is an own property of the variables object.  So it
    keeps passing when identifiers are dropped, repeated or reordered and
    when the variables object gains own properties: bindings the
    expression does not use are never an error. *)
Theorem identifier_check_monotone (ids ids' : list string) (o o' : value) :
  (forall x, In x ids' -> In x ids) ->
  (forall k, hasOwnProperty o k = true -> hasOwnProperty o' k = true) ->
  (SafeEvaluatorLib.check_symbols o ids = None <-> covers o ids)
  /\ (SafeEvaluator.validateIdentifiers ids o = None <-> covers o ids)
  /\ (SafeEvaluatorLib.check_symbols o ids = None ->
      SafeEvaluatorLib.check_symbols o' ids' = None)
  /\ (SafeEvaluator.validateIdentifiers ids o = None ->
      SafeEvaluator.validateIdentifiers ids' o' = None).
Proof.
  intros Hsub Hown.
  assert (Hlib : forall o ids, SafeEvaluatorLib.check_symbols o ids = None <-> covers o ids).
  { intros o0 l. rewrite lib_check_symbols_find, <- first_missing_covers.
    destruct (first_missing o0 l); simpl; split; congruence. }
  assert (Hse : forall o ids, SafeEvaluator.validateIdentifiers ids o = None <-> covers o ids).
  { intros o0 l. rewrite se_validateIdentifiers_find, <- first_missing_covers.
    destruct (first_missing o0 l); simpl; split; congruence. }
  assert (Hmono : covers o ids -> covers o' ids').
  { intros Hc x Hin. apply Hown, Hc, Hsub, Hin. }
  split; [apply Hlib |]. split; [apply Hse |]. split; intros H.
  - apply Hlib, Hmono, Hlib, H.
  - apply Hse, Hmono, Hse, H.
Qed.

Lemma identifier_check_monotone_witness :
  SafeEvaluator.validateIdentifiers ["b"; "a"; "b"]
    (VObject [("a", VNum 1); ("b", VNum 2); ("unused", VNull)]) = None.
Proof.
  apply (identifier_check_monotone ["a"; "b"] ["b"; "a"; "b"]
           (VObject [("a", VNum 1); ("b", VNum 2)])
           (VObject [("a", VNum 1); ("b", VNum 2); ("unused", VNull)])).
  - simpl. intros x [<- | [<- | [<- | []]]]; auto.
  - intros k. simpl. rewrite !bool_decide_eq_true. simpl.
    destruct (String.eqb k "a"); [intros _; eauto |].
    destruct (String.eqb k "b"); [intros _; eauto |]. intros [v Hv]. discriminate.
  - reflexivity.
Defined.

Lemma pick_agree {A : Type} (keys : list string) (m m' : gmap string A) :
  (forall s, s ∈ keys -> m !! s = m' !! s) -> pick keys m = pick keys m'.
Proof.
  intros H. apply map_eq. intros s. rewrite !lookup_pick.
  destruct (bool_decide (s ∈ keys)) eqn:Hin; [| reflexivity].
  apply bool_decide_eq_true in Hin. exact (H s Hin).
Qed.

(** X9.  Nothing the wrappers remove from [new Parser()] can influence a
    call.  The outcome of src/lib/safe-evaluator.js is the same for any
    two parser instances that agree on the binary operators, the options
    and the unary operators [-], [+] and [not], whatever functions,
    constants and further unary operators either registers; the outcome
    of src/unnamed/part_000 is the same for any two that agree on the
    binary operators, the options, the constants and the unary operators
    [-] and [+]. *)
Theorem removed_registries_are_ignored (P : ParserApi) (p : Parser)
  (expression variables : value) :
  binaryOps p = binaryOps (new_Parser P) ->
  parser_options p = parser_options (new_Parser P) ->
  (forall s, s ∈ ["-"; "+"] -> unaryOps p !! s = unaryOps (new_Parser P) !! s) ->
  (unaryOps p !! "not" = unaryOps (new_Parser P) !! "not" ->
   SafeEvaluatorLib.evaluate (with_parser P p) expression variables
   = SafeEvaluatorLib.evaluate P expression variables)
  /\ (consts p = consts (new_Parser P) ->
      SafeEvaluator.evaluate (with_parser P p) expression variables
      = SafeEvaluator.evaluate P expression variables).
Proof.
  intros Hb Ho Hu. split.
  - intros Hn.
    assert (Hr : SafeEvaluatorLib.restricted_parser (with_parser P p)
                 = SafeEvaluatorLib.restricted_parser P).
    { unfold SafeEvaluatorLib.restricted_parser.
      cbn [with_parser new_Parser]. unfold set_consts, set_unaryOps, set_functions.
      cbn [unaryOps binaryOps functions consts parser_options].
      rewrite Hb, Ho. f_equal. apply pick_agree. intros s Hs.
      rewrite !elem_of_cons, elem_of_nil in Hs.
      destruct Hs as [-> | [-> | [-> | []]]];
        [apply Hu | apply Hu | exact Hn]; rewrite !elem_of_cons; auto. }
    unfold SafeEvaluatorLib.evaluate.
    cbn [with_parser parser_parse expr_symbols expr_evaluate].
    change (mkApi (Expression P) p (parser_parse P) (expr_symbols P) (expr_variables P)
              (expr_evaluate P)) with (with_parser P p).
    rewrite Hr. reflexivity.
  - intros Hc.
    assert (Hr : SafeEvaluator.restricted_parser (with_parser P p)
                 = SafeEvaluator.restricted_parser P).
    { unfold SafeEvaluator.restricted_parser.
      cbn [with_parser new_Parser]. unfold set_unaryOps, set_functions.
      cbn [unaryOps binaryOps functions consts parser_options].
      rewrite Hb, Ho, Hc. f_equal. apply pick_agree. exact Hu. }
    unfold SafeEvaluator.evaluate, SafeEvaluator.evaluate_with.
    cbn [with_parser parser_parse expr_variables expr_evaluate].
    change (mkApi (Expression P) p (parser_parse P) (expr_symbols P) (expr_variables P)
              (expr_evaluate P)) with (with_parser P p).
    rewrite Hr. reflexivity.
Qed.

Lemma removed_registries_are_ignored_witness :
  SafeEvaluatorLib.evaluate (with_parser (Core.api strict_options ∅) parser_with_builtins)
    (VStr "-x + 1") (VObject [("x", VNum 2)])
  = SafeEvaluatorLib.evaluate (Core.api strict_options ∅)
      (VStr "-x + 1") (VObject [("x", VNum 2)]).
Proof.
  refine (proj1 (removed_registries_are_ignored (Core.api strict_options ∅)
                   parser_with_builtins (VStr "-x + 1") (VObject [("x", VNum 2)])
                   eq_refl eq_refl _) _).
  - intros s Hs. rewrite !elem_of_cons, elem_of_nil in Hs.
    destruct Hs as [-> | [-> | []]]; reflexivity.
  - reflexivity.
Defined.

(** ** The caller of the migration instructions *)

Lemma clean_check v :
  String.eqb (typeof v) "number" || String.eqb (typeof v) "boolean"
  || String.eqb (typeof v) "string" || is_null v = is_clean v.
Proof. destruct v; reflexivity. Qed.

Lemma set_property_new key val props :
  ~ In key (map fst props) -> Migration.set_property key val props = props ++ [(key, val)].
Proof.
  induction props as [| [k v] props IH]; simpl; intros Hn; [reflexivity |].
  destruct (String.eqb_spec key k) as [-> | Hne]; [exfalso; auto |].
  rewrite IH by auto. reflexivity.
Qed.

Lemma sanitize_clean es :
  forall acc,
    List.NoDup (map fst (acc ++ es)) ->
    forallb (fun kv => is_clean (snd kv)) es = true ->
    Migration.sanitize es acc = inl (acc ++ without_proto es).
Proof.
  induction es as [| [k v] es IH]; intros acc Hnd Hc; simpl.
  - rewrite app_nil_r. reflexivity.
  - simpl in Hc. apply andb_prop in Hc as [Hv Hc]. rewrite clean_check, Hv.
    assert (Hk : ~ In k (map fst acc)).
    { rewrite map_app in Hnd. simpl in Hnd. apply NoDup_remove_2 in Hnd.
      intros Hin. apply Hnd. apply in_or_app. left. exact Hin. }
    unfold Migration.assign. destruct (String.eqb k "__proto__"); simpl.
    + apply IH; [| exact Hc].
      rewrite map_app in *. simpl in Hnd. exact (NoDup_remove_1 _ _ _ Hnd).
    + rewrite (set_property_new k v acc Hk).
      rewrite IH; [rewrite <- app_assoc; reflexivity | | exact Hc].
      rewrite <- app_assoc. exact Hnd.
Qed.

Lemma without_proto_all props :
  ~ In "__proto__" (map fst props) -> without_proto props = props.
Proof.
  induction props as [| [k v] props IH]; simpl; intros Hn; [reflexivity |].
  destruct (String.eqb_spec k "__proto__") as [-> | Hne]; [exfalso; auto |].
  simpl. rewrite IH by auto. reflexivity.
Qed.

Lemma without_proto_clean props :
  forallb (fun kv => is_clean (snd kv)) props = true ->
  forallb (fun kv => is_clean (snd kv)) (without_proto props) = true.
Proof.
  induction props as [| [k v] props IH]; simpl; intros Hc; [reflexivity |].
  apply andb_prop in Hc as [Hv Hc].
  destruct (String.eqb k "__proto__"); simpl; [exact (IH Hc) |].
  rewrite Hv. exact (IH Hc).
Qed.

Lemma sanitize_unclean es :
  forall acc k v,
    first_unclean es = Some (k, v) ->
    Migration.sanitize es acc = inr ("Invalid input type for " +:+ k).
Proof.
  induction es as [| [k' v'] es IH]; intros acc k v Hf; [discriminate |].
  unfold first_unclean in Hf. simpl in Hf. simpl. rewrite clean_check.
  destruct (is_clean v'); simpl in Hf.
  - exact (IH _ k v Hf).
  - injection Hf as -> _. reflexivity.
Qed.

Lemma assoc_lookup_unique (props : list (string * value)) k v :
  List.NoDup (map fst props) -> In (k, v) props -> assoc_lookup k props = Some v.
Proof.
  induction props as [| [k' v'] props IH]; simpl; intros Hnd Hin; [contradiction |].
  inversion Hnd as [| ? ? Hk Hrest]; subst.
  destruct Hin as [Heq | Hin].
  - injection Heq as -> ->. rewrite String.eqb_refl. reflexivity.
  - destruct (String.eqb_spec k k') as [-> | Hne].
    + exfalso. apply Hk. apply (in_map fst) in Hin. exact Hin.
    + exact (IH Hrest Hin).
Qed.

Lemma entries_object props :
  List.NoDup (map fst props) ->
  Migration.entries (VObject props) = Some props.
Proof.
  intros Hnd. unfold Migration.entries, for_in_keys. f_equal. rewrite map_map.
  rewrite <- (map_id props) at 2. apply map_ext_in. intros [k v] Hin. simpl.
  rewrite (assoc_lookup_unique props k v Hnd Hin). reflexivity.
Qed.

Lemma clean_is_primitive v : is_clean v = true -> is_primitive v = true.
Proof. destruct v; simpl; auto. Qed.

Lemma clean_props_validated props :
  forallb (fun kv => is_clean (snd kv)) props = true -> validated (VObject props).
Proof.
  intros Hc. unfold validated. apply all_primitive_props.
  apply forallb_forall. intros kv Hin.
  apply clean_is_primitive. exact (proj1 (forallb_forall _ _) Hc kv Hin).
Qed.

(** X13.  On a plain object whose values are all numbers, booleans,
    strings or null, [calculateUserFormula] of src/unnamed/part_001 is
    [evaluate] of src/lib/safe-evaluator.js on the object it copies the
    inputs into: that object holds the properties of the inputs in the
    same order, an own property named [__proto__] apart, which the copy
    drops (a null under that name is left out here: it takes the
    prototype of the copy away).  So for every parser the outcome is that
    of [evaluate] on the copy, whose own validation of the bindings then
    passes; with no own property of that name the copy is the input
    object. *)
Theorem sanitized_call_is_evaluate (P : ParserApi) (formula : value)
  (props : list (string * value)) :
  List.NoDup (map fst props) ->
  forallb (fun kv => is_clean (snd kv)) props = true ->
  assoc_lookup "__proto__" props <> Some VNull ->
  fst (Migration.calculateUserFormula P formula (VObject props))
  = fst (SafeEvaluatorLib.evaluate P formula (VObject (without_proto props)))
  /\ validated (VObject (without_proto props))
  /\ (~ In "__proto__" (map fst props) -> without_proto props = props).
Proof.
  intros Hnd Hc _.
  split; [| split; [exact (clean_props_validated _ (without_proto_clean props Hc))
                   | exact (without_proto_all props)]].
  unfold Migration.calculateUserFormula, Migration.attempt.
  rewrite (entries_object props Hnd), (sanitize_clean props [] Hnd Hc). cbn [app].
  destruct (fst (SafeEvaluatorLib.evaluate P formula (VObject (without_proto props))));
    reflexivity.
Qed.

Lemma sanitized_call_is_evaluate_witness :
  fst (Migration.calculateUserFormula (Core.api strict_options ∅) (VStr "price * quantity")
         (VObject [("price", VNum 10); ("__proto__", VNum 1); ("quantity", VNum 3)]))
  = fst (SafeEvaluatorLib.evaluate (Core.api strict_options ∅) (VStr "price * quantity")
           (VObject [("price", VNum 10); ("quantity", VNum 3)])).
Proof.
  refine (proj1 (sanitized_call_is_evaluate (Core.api strict_options ∅)
                   (VStr "price * quantity")
                   [("price", VNum 10); ("__proto__", VNum 1); ("quantity", VNum 3)]
                   _ eq_refl _)).
  - repeat constructor; simpl; intuition discriminate.
  - simpl. discriminate.
Defined.

(** X14.  [calculateUserFormula] of src/unnamed/part_001 checks its inputs
    before anything else and is stricter than [evaluate]: when an entry
    of [userInputs] holds a value that is not a number, a boolean, a
    string or null (undefined included, which [evaluate] accepts as a
    binding), it throws 'Invalid input type for <key>' for the first such
    entry and writes that one line with [console.error].  [evaluate] is
    not called: the outcome is the same for every parser and every
    formula, even one that is no string. *)
Theorem unclean_input_is_rejected (P : ParserApi) (formula userInputs : value)
  (es : list (string * value)) (k : string) (v : value) :
  Migration.entries userInputs = Some es ->
  first_unclean es = Some (k, v) ->
  Migration.calculateUserFormula P formula userInputs
  = (Throw ("Invalid input type for " +:+ k),
     ["Formula evaluation failed: " +:+ "Invalid input type for " +:+ k]).
Proof.
  intros He Hf. unfold Migration.calculateUserFormula, Migration.attempt.
  rewrite He, (sanitize_unclean es [] k v Hf). reflexivity.
Qed.

Lemma unclean_input_is_rejected_witness :
  Migration.calculateUserFormula (Core.api strict_options ∅) (VNum 1)
    (VObject [("x", VNum 1); ("y", VUndefined); ("z", VFunction 0)])
  = (Throw "Invalid input type for y",
     ["Formula evaluation failed: Invalid input type for y"])
  /\ SafeEvaluatorLib.validate_loop (VObject [("x", VNum 1); ("y", VUndefined)])
       (for_in_keys (VObject [("x", VNum 1); ("y", VUndefined)])) = None.
Proof.
  split; [| reflexivity].
  exact (unclean_input_is_rejected (Core.api strict_options ∅) (VNum 1)
           (VObject [("x", VNum 1); ("y", VUndefined); ("z", VFunction 0)])
           [("x", VNum 1); ("y", VUndefined); ("z", VFunction 0)] "y" VUndefined
           eq_refl eq_refl).
Defined.

(** ** The derived rollup configurations and the object they share *)

Lemma assoc_lookup_set_key_eq k v ps :
  assoc_lookup k (Rollup.set_key k v ps) = Some v.
Proof.
  induction ps as [| [k' v'] ps IH]; simpl.
  - rewrite String.eqb_refl. reflexivity.
  - destruct (String.eqb k k') eqn:Hk; simpl.
    + rewrite String.eqb_refl. reflexivity.
    + rewrite Hk. exact IH.
Qed.

Lemma assoc_lookup_set_key_ne k k' v ps :
  k <> k' -> assoc_lookup k' (Rollup.set_key k v ps) = assoc_lookup k' ps.
Proof.
  intros Hne. induction ps as [| [k0 v0] ps IH]; simpl.
  - destruct (String.eqb_spec k' k); [congruence | reflexivity].
  - destruct (String.eqb_spec k k0) as [-> | Hk]; simpl.
    + destruct (String.eqb_spec k' k0); [congruence | reflexivity].
    + destruct (String.eqb k' k0); [reflexivity | exact IH].
Qed.

Lemma preserves_refl h : preserves h h.
Proof. intros l c H. exact H. Qed.

Lemma preserves_trans h1 h2 h3 : preserves h1 h2 -> preserves h2 h3 -> preserves h1 h3.
Proof. intros H12 H23 l c H. apply H23, H12, H. Qed.

Lemma alloc_preserves c h : preserves h (h ++ [c]).
Proof. intros l c' H. apply lookup_app_l_Some. exact H. Qed.

Lemma alloc_lookup c (h : list Rollup.cell) : (h ++ [c]) !! length h = Some c.
Proof. rewrite lookup_app_r by lia. rewrite Nat.sub_diag. reflexivity. Qed.

Lemma fresh_location (h : list Rollup.cell) : h !! length h = None.
Proof. apply lookup_ge_None. lia. Qed.

Lemma preserves_fresh (h h' : list Rollup.cell) l c :
  preserves h h' -> h !! l = None -> preserves h (<[l := c]> h').
Proof.
  intros Hp Hl l' c' H. destruct (decide (l = l')) as [<- | Hne]; [congruence |].
  rewrite list_lookup_insert_ne by exact Hne. apply Hp, H.
Qed.

Lemma preserves_length (h h' : list Rollup.cell) : preserves h h' -> length h <= length h'.
Proof.
  intros Hp. destruct (le_lt_dec (length h) (length h')) as [Hle | Hlt]; [exact Hle |].
  destruct (lookup_lt_is_Some_2 h (length h') Hlt) as [c Hc].
  pose proof (Hp _ _ Hc) as Hc'. rewrite fresh_location in Hc'. discriminate.
Qed.

Lemma spread_preserved h h' l c :
  preserves h h' -> h !! l = Some c -> Rollup.spread h' (Rollup.CRef l) = Rollup.props c.
Proof. intros Hp Hl. simpl. rewrite (Hp _ _ Hl). reflexivity. Qed.

(** What a spread reads of the heap is its argument's own object. *)
Lemma spread_stable h h' v :
  preserves h h' ->
  (forall l, v = Rollup.CRef l -> is_Some (h !! l)) ->
  Rollup.spread h' v = Rollup.spread h v.
Proof.
  intros Hp Hv. destruct v as [| | b | s | l]; try reflexivity.
  destruct (Hv l eq_refl) as [c Hc]. simpl. rewrite Hc, (Hp _ _ Hc). reflexivity.
Qed.

(** The objects a module builds sit behind the heap it found. *)
Lemma lookup_new (h news : list Rollup.cell) i : (h ++ news) !! (length h + i) = news !! i.
Proof. rewrite lookup_app_r by lia. f_equal. lia. Qed.

Lemma read_old (h news : list Rollup.cell) l c k :
  h !! l = Some c ->
  Rollup.read (h ++ news) (Rollup.CRef l) k
  = Some (default Rollup.CUndefined (assoc_lookup k (Rollup.props c))).
Proof. intros H. unfold Rollup.read. rewrite (lookup_app_l_Some _ _ _ _ H). reflexivity. Qed.

Lemma read_new (h news : list Rollup.cell) i c k :
  news !! i = Some c ->
  Rollup.read (h ++ news) (Rollup.CRef (length h + i)) k
  = Some (default Rollup.CUndefined (assoc_lookup k (Rollup.props c))).
Proof. intros H. unfold Rollup.read. rewrite lookup_new, H. reflexivity. Qed.

Lemma write_new (h news : list Rollup.cell) i c k x :
  news !! i = Some c ->
  Rollup.write (Rollup.CRef (length h + i)) k x (h ++ news)
  = Some (h ++ <[i := Rollup.mkCell (Rollup.is_array c) (Rollup.set_key k x (Rollup.props c))]>
                 news).
Proof. intros H. unfold Rollup.write. rewrite lookup_new, H, insert_app_r. reflexivity. Qed.

Lemma spread_old (h news : list Rollup.cell) v :
  (forall l, v = Rollup.CRef l -> is_Some (h !! l)) ->
  Rollup.spread (h ++ news) v = Rollup.spread h v.
Proof.
  intros Hv. apply spread_stable; [| exact Hv].
  intros l c H. apply lookup_app_l_Some. exact H.
Qed.

Lemma output_is_allocated (h : list Rollup.cell) (base : Rollup.cell) :
  (forall l', assoc_lookup "output" (Rollup.props base) = Some (Rollup.CRef l') ->
              is_Some (h !! l')) ->
  forall l', default Rollup.CUndefined (assoc_lookup "output" (Rollup.props base))
             = Rollup.CRef l' -> is_Some (h !! l').
Proof.
  intros Hwf l' H. apply Hwf.
  destruct (assoc_lookup "output" (Rollup.props base)) as [v |]; simpl in H;
    [congruence | discriminate].
Qed.

Ltac heap_normal :=
  repeat rewrite <- app_assoc; cbn [app];
  repeat rewrite length_app; cbn [length];
  repeat match goal with
         | |- context [Rollup.CRef (length ?h)] =>
             replace (length h) with (length h + 0) by lia
         end.

Lemma min_config_run l base terser (h : list Rollup.cell) :
  h !! l = Some base -> output_allocated h base ->
  Rollup.rollup_min_config (Rollup.CRef l) terser h
  = Some (h ++ [Rollup.mkCell false
                  (Rollup.set_key "plugins" (Rollup.CRef (length h + 3))
                     (Rollup.set_key "output" (Rollup.CRef (length h + 1))
                        (Rollup.props base)));
                Rollup.mkCell false
                  (Rollup.set_key "file" (Rollup.CStr "dist/bundle.min.js")
                     (output_props h (Rollup.CRef l)));
                terser;
                Rollup.mkCell true [("0", Rollup.CRef (length h + 2))]],
          Rollup.CRef (length h + 0)).
Proof.
  intros Hl Hwf. unfold output_props, Rollup.rollup_min_config, Rollup.alloc.
  cbv beta iota zeta.
  assert (Hs : Rollup.spread h (Rollup.CRef l) = Rollup.props base)
    by (simpl; rewrite Hl; reflexivity).
  assert (Hr : Rollup.read h (Rollup.CRef l) "output"
               = Some (default Rollup.CUndefined
                         (assoc_lookup "output" (Rollup.props base))))
    by (unfold Rollup.read; rewrite Hl; reflexivity).
  rewrite Hs, Hr, (read_old _ _ _ _ _ Hl). cbn [mbind option_bind default from_option].
  rewrite (spread_old _ _ _ (output_is_allocated _ _ Hwf)).
  rewrite <- !app_assoc. cbn [app]. rewrite !length_app. cbn [length].
  replace (Rollup.CRef (length h)) with (Rollup.CRef (length h + 0)) by (f_equal; lia).
  erewrite write_new by reflexivity.
  cbn [mbind option_bind Rollup.is_array Rollup.props insert list_insert].
  rewrite <- !app_assoc. cbn [app]. rewrite !length_app. cbn [length].
  erewrite write_new by reflexivity.
  cbn [mbind option_bind Rollup.is_array Rollup.props insert list_insert].
  erewrite read_new by reflexivity. cbn [mbind option_bind Rollup.props].
  rewrite assoc_lookup_set_key_ne by discriminate.
  rewrite assoc_lookup_set_key_eq. cbn [default from_option id].
  erewrite write_new by reflexivity.
  cbn [mbind option_bind Rollup.is_array Rollup.props insert list_insert].
  reflexivity.
Qed.

Lemma esm_config_run l base (h : list Rollup.cell) :
  h !! l = Some base -> output_allocated h base ->
  Rollup.rollup_esm_config (Rollup.CRef l) h
  = Some (h ++ [Rollup.mkCell false
                  (Rollup.set_key "output" (Rollup.CRef (length h + 2))
                     (Rollup.set_key "plugins" (Rollup.CRef (length h + 1))
                        (Rollup.props base)));
                Rollup.mkCell true [];
                Rollup.mkCell false
                  (Rollup.set_key "format" (Rollup.CStr "esm")
                     (Rollup.set_key "file" (Rollup.CStr "dist/index.mjs")
                        (output_props h (Rollup.CRef l))))],
          Rollup.CRef (length h + 0)).
Proof.
  intros Hl Hwf. unfold output_props, Rollup.rollup_esm_config, Rollup.alloc.
  cbv beta iota zeta.
  assert (Hs : Rollup.spread h (Rollup.CRef l) = Rollup.props base)
    by (simpl; rewrite Hl; reflexivity).
  assert (Hr : Rollup.read h (Rollup.CRef l) "output"
               = Some (default Rollup.CUndefined
                         (assoc_lookup "output" (Rollup.props base))))
    by (unfold Rollup.read; rewrite Hl; reflexivity).
  rewrite Hs, Hr. cbn [default from_option].
  rewrite <- !app_assoc. cbn [app]. rewrite !length_app. cbn [length].
  replace (Rollup.CRef (length h)) with (Rollup.CRef (length h + 0)) by (f_equal; lia).
  erewrite write_new by reflexivity.
  cbn [mbind option_bind Rollup.is_array Rollup.props insert list_insert].
  rewrite (read_old _ _ _ _ _ Hl). cbn [mbind option_bind].
  rewrite (spread_old _ _ _ (output_is_allocated _ _ Hwf)).
  rewrite <- !app_assoc. cbn [app]. rewrite !length_app. cbn [length].
  erewrite write_new by reflexivity.
  cbn [mbind option_bind Rollup.is_array Rollup.props insert list_insert].
  reflexivity.
Qed.

Lemma app_preserves (h news : list Rollup.cell) : preserves h (h ++ news).
Proof. intros l c H. apply lookup_app_l_Some. exact H. Qed.

Lemma fresh_behind (h : list Rollup.cell) i : h !! (length h + i) = None.
Proof. apply lookup_ge_None. lia. Qed.

Lemma output_allocated_app h news base :
  output_allocated h base -> output_allocated (h ++ news) base.
Proof.
  intros H l' Hl'. destruct (H l' Hl') as [c Hc]. exists c.
  apply lookup_app_l_Some. exact Hc.
Qed.

(** The output properties of a configuration depend on the objects it
    names only. *)
Lemma output_props_old (h news : list Rollup.cell) l base :
  h !! l = Some base -> output_allocated h base ->
  output_props (h ++ news) (Rollup.CRef l) = output_props h (Rollup.CRef l).
Proof.
  intros Hl Hwf. unfold output_props.
  rewrite (read_old _ _ _ _ _ Hl). unfold Rollup.read. rewrite Hl.
  cbn [mbind option_bind default from_option].
  apply spread_old. exact (output_is_allocated _ _ Hwf).
Qed.

(** The output properties of a configuration built behind [h] whose
    [output] names an object built behind [h]. *)
Lemma output_props_new (h news : list Rollup.cell) i j c out :
  news !! i = Some c ->
  assoc_lookup "output" (Rollup.props c) = Some (Rollup.CRef (length h + j)) ->
  news !! j = Some out ->
  output_props (h ++ news) (Rollup.CRef (length h + i)) = Rollup.props out.
Proof.
  intros Hi Ho Hj. unfold output_props.
  rewrite (read_new _ _ _ _ _ Hi), Ho. cbn [default from_option id Rollup.spread].
  rewrite lookup_new, Hj. reflexivity.
Qed.

Lemma base_output_allocated :
  output_allocated base_heap
    (Rollup.mkCell false [("input", Rollup.CStr "index.js"); ("output", Rollup.CRef 0);
                          ("plugins", Rollup.CRef 1)]).
Proof.
  intros l' H. vm_compute in H. injection H as <-. eexists. reflexivity.
Qed.

(** X15.  src/rollup-min.config.js changes no object that exists when it
    runs: the configuration src/rollup.config.js exports and the object
    its [output] names, which every other module requiring it shares, are
    as they were.  The configuration it exports is a new object; its
    [output] names a new object that holds the shared output's own
    properties with [file] set to 'dist/bundle.min.js'; its [plugins]
    names a new array of the one plugin [terser()] built; every other
    property reads as in the shared configuration. *)
Theorem min_config_is_a_copy (l : nat) (base terser : Rollup.cell)
  (h : list Rollup.cell) :
  h !! l = Some base -> output_allocated h base ->
  exists h' m,
    Rollup.rollup_min_config (Rollup.CRef l) terser h = Some (h', Rollup.CRef m)
    /\ preserves h h'
    /\ h !! m = None
    /\ (exists out,
          Rollup.read h' (Rollup.CRef m) "output" = Some (Rollup.CRef out)
          /\ h !! out = None)
    /\ output_props h' (Rollup.CRef m)
       = Rollup.set_key "file" (Rollup.CStr "dist/bundle.min.js")
           (output_props h (Rollup.CRef l))
    /\ (exists plugins plugin,
          Rollup.read h' (Rollup.CRef m) "plugins" = Some (Rollup.CRef plugins)
          /\ h !! plugins = None
          /\ h' !! plugins = Some (Rollup.mkCell true [("0", Rollup.CRef plugin)])
          /\ h' !! plugin = Some terser)
    /\ (forall k, k <> "output" -> k <> "plugins" ->
                  Rollup.read h' (Rollup.CRef m) k = Rollup.read h (Rollup.CRef l) k).
Proof.
  intros Hl Hwf. eexists _, _. split; [exact (min_config_run l base terser h Hl Hwf) |].
  split; [apply app_preserves |]. split; [apply fresh_behind |]. split; [| split; [| split]].
  - exists (length h + 1). split; [| apply fresh_behind].
    erewrite read_new by reflexivity. cbn [Rollup.props].
    rewrite assoc_lookup_set_key_ne by discriminate.
    rewrite assoc_lookup_set_key_eq. reflexivity.
  - erewrite (output_props_new h _ 0 1) by
      (try reflexivity; cbn [Rollup.props];
       rewrite assoc_lookup_set_key_ne by discriminate;
       apply assoc_lookup_set_key_eq).
    reflexivity.
  - exists (length h + 3), (length h + 2). split; [| split; [| split]].
    + erewrite read_new by reflexivity. cbn [Rollup.props].
      rewrite assoc_lookup_set_key_eq. reflexivity.
    + apply fresh_behind.
    + rewrite lookup_new. reflexivity.
    + rewrite lookup_new. reflexivity.
  - intros k Ho Hp. erewrite read_new by reflexivity. cbn [Rollup.props].
    rewrite !assoc_lookup_set_key_ne by congruence.
    unfold Rollup.read. rewrite Hl. reflexivity.
Qed.

Lemma min_config_is_a_copy_witness :
  exists h' m,
    Rollup.rollup_min_config (Rollup.CRef base_location) terser_plugin base_heap
    = Some (h', Rollup.CRef m)
    /\ preserves base_heap h'
    /\ output_props h' (Rollup.CRef m)
       = [("file", Rollup.CStr "dist/bundle.min.js"); ("format", Rollup.CStr "umd");
          ("name", Rollup.CStr "exprEval"); ("exports", Rollup.CStr "named")].
Proof.
  destruct (min_config_is_a_copy base_location _ terser_plugin base_heap eq_refl
              base_output_allocated) as (h' & m & Hrun & Hp & _ & _ & Hout & _).
  exists h', m. split; [exact Hrun |]. split; [exact Hp |]. rewrite Hout. reflexivity.
Defined.

(** X16.  src/rollup-esm.config.js changes no object that exists when it
    runs, the shared configuration of src/rollup.config.js and its output
    object included.  The configuration it exports is a new object; its
    [output] names a new object that holds the shared output's own
    properties with [file] set to 'dist/index.mjs' and [format] to 'esm';
    its [plugins] names a new empty array; every other property reads as
    in the shared configuration. *)
Theorem esm_config_is_a_copy (l : nat) (base : Rollup.cell) (h : list Rollup.cell) :
  h !! l = Some base -> output_allocated h base ->
  exists h' e,
    Rollup.rollup_esm_config (Rollup.CRef l) h = Some (h', Rollup.CRef e)
    /\ preserves h h'
    /\ h !! e = None
    /\ (exists out,
          Rollup.read h' (Rollup.CRef e) "output" = Some (Rollup.CRef out)
          /\ h !! out = None)
    /\ output_props h' (Rollup.CRef e)
       = Rollup.set_key "format" (Rollup.CStr "esm")
           (Rollup.set_key "file" (Rollup.CStr "dist/index.mjs")
              (output_props h (Rollup.CRef l)))
    /\ (exists plugins,
          Rollup.read h' (Rollup.CRef e) "plugins" = Some (Rollup.CRef plugins)
          /\ h !! plugins = None
          /\ h' !! plugins = Some (Rollup.mkCell true []))
    /\ (forall k, k <> "output" -> k <> "plugins" ->
                  Rollup.read h' (Rollup.CRef e) k = Rollup.read h (Rollup.CRef l) k).
Proof.
  intros Hl Hwf. eexists _, _. split; [exact (esm_config_run l base h Hl Hwf) |].
  split; [apply app_preserves |]. split; [apply fresh_behind |]. split; [| split; [| split]].
  - exists (length h + 2). split; [| apply fresh_behind].
    erewrite read_new by reflexivity. cbn [Rollup.props].
    rewrite assoc_lookup_set_key_eq. reflexivity.
  - erewrite (output_props_new h _ 0 2) by
      (try reflexivity; cbn [Rollup.props]; apply assoc_lookup_set_key_eq).
    reflexivity.
  - exists (length h + 1). split; [| split].
    + erewrite read_new by reflexivity. cbn [Rollup.props].
      rewrite assoc_lookup_set_key_ne by discriminate.
      rewrite assoc_lookup_set_key_eq. reflexivity.
    + apply fresh_behind.
    + rewrite lookup_new. reflexivity.
  - intros k Ho Hp. erewrite read_new by reflexivity. cbn [Rollup.props].
    rewrite !assoc_lookup_set_key_ne by congruence.
    unfold Rollup.read. rewrite Hl. reflexivity.
Qed.

Lemma esm_config_is_a_copy_witness :
  exists h' e,
    Rollup.rollup_esm_config (Rollup.CRef base_location) base_heap
    = Some (h', Rollup.CRef e)
    /\ preserves base_heap h'
    /\ output_props h' (Rollup.CRef e)
       = [("file", Rollup.CStr "dist/index.mjs"); ("format", Rollup.CStr "esm");
          ("name", Rollup.CStr "exprEval"); ("exports", Rollup.CStr "named")].
Proof.
  destruct (esm_config_is_a_copy base_location _ base_heap eq_refl
              base_output_allocated) as (h' & e & Hrun & Hp & _ & _ & Hout & _).
  exists h', e. split; [exact Hrun |]. split; [exact Hp |]. rewrite Hout. reflexivity.
Defined.

(** X17.  The two derived configurations do not interfere, in whichever
    order Node loads them: after both modules have run, every object that
    existed before is as it was, the minified configuration's output
    holds the shared output's properties with [file] 'dist/bundle.min.js',
    and the ES-module configuration's output holds them with [file]
    'dist/index.mjs' and [format] 'esm'; neither sees the other's
    changes. *)
Theorem derived_configs_do_not_interfere (l : nat) (base terser : Rollup.cell)
  (h : list Rollup.cell) :
  h !! l = Some base -> output_allocated h base ->
  (exists h1 m h2 e,
      Rollup.rollup_min_config (Rollup.CRef l) terser h = Some (h1, m)
      /\ Rollup.rollup_esm_config (Rollup.CRef l) h1 = Some (h2, e)
      /\ preserves h h2
      /\ output_props h2 m
         = Rollup.set_key "file" (Rollup.CStr "dist/bundle.min.js")
             (output_props h (Rollup.CRef l))
      /\ output_props h2 e
         = Rollup.set_key "format" (Rollup.CStr "esm")
             (Rollup.set_key "file" (Rollup.CStr "dist/index.mjs")
                (output_props h (Rollup.CRef l))))
  /\ (exists h1 e h2 m,
      Rollup.rollup_esm_config (Rollup.CRef l) h = Some (h1, e)
      /\ Rollup.rollup_min_config (Rollup.CRef l) terser h1 = Some (h2, m)
      /\ preserves h h2
      /\ output_props h2 m
         = Rollup.set_key "file" (Rollup.CStr "dist/bundle.min.js")
             (output_props h (Rollup.CRef l))
      /\ output_props h2 e
         = Rollup.set_key "format" (Rollup.CStr "esm")
             (Rollup.set_key "file" (Rollup.CStr "dist/index.mjs")
                (output_props h (Rollup.CRef l)))).
Proof.
  intros Hl Hwf. split.
  - eexists _, _, _, _. split; [exact (min_config_run l base terser h Hl Hwf) |].
    split; [exact (esm_config_run l base _ (app_preserves h _ l base Hl)
                     (output_allocated_app h _ base Hwf)) |].
    rewrite (output_props_old h _ l base Hl Hwf).
    rewrite <- !app_assoc. cbn [app]. rewrite !length_app. cbn [length].
    split; [apply app_preserves |]. split.
    + erewrite (output_props_new h _ 0 1) by
        (try reflexivity; cbn [Rollup.props];
         rewrite assoc_lookup_set_key_ne by discriminate;
         apply assoc_lookup_set_key_eq).
      reflexivity.
    + replace (length h + 4 + 0) with (length h + 4) by lia.
      replace (length h + 4 + 2) with (length h + 6) by lia.
      erewrite (output_props_new h _ 4 6) by
        (try reflexivity; cbn [Rollup.props]; apply assoc_lookup_set_key_eq).
      reflexivity.
  - eexists _, _, _, _. split; [exact (esm_config_run l base h Hl Hwf) |].
    split; [exact (min_config_run l base terser _ (app_preserves h _ l base Hl)
                     (output_allocated_app h _ base Hwf)) |].
    rewrite (output_props_old h _ l base Hl Hwf).
    rewrite <- !app_assoc. cbn [app]. rewrite !length_app. cbn [length].
    split; [apply app_preserves |]. split.
    + replace (length h + 3 + 0) with (length h + 3) by lia.
      replace (length h + 3 + 1) with (length h + 4) by lia.
      erewrite (output_props_new h _ 3 4) by
        (try reflexivity; cbn [Rollup.props];
         rewrite assoc_lookup_set_key_ne by discriminate;
         apply assoc_lookup_set_key_eq).
      reflexivity.
    + erewrite (output_props_new h _ 0 2) by
        (try reflexivity; cbn [Rollup.props]; apply assoc_lookup_set_key_eq).
      reflexivity.
Qed.

Lemma derived_configs_do_not_interfere_witness :
  exists h1 m h2 e,
    Rollup.rollup_min_config (Rollup.CRef base_location) terser_plugin base_heap
    = Some (h1, m)
    /\ Rollup.rollup_esm_config (Rollup.CRef base_location) h1 = Some (h2, e)
    /\ output_props h2 (Rollup.CRef base_location)
       = [("file", Rollup.CStr "dist/bundle.js"); ("format", Rollup.CStr "umd");
          ("name", Rollup.CStr "exprEval"); ("exports", Rollup.CStr "named")]
    /\ output_props h2 m
       = [("file", Rollup.CStr "dist/bundle.min.js"); ("format", Rollup.CStr "umd");
          ("name", Rollup.CStr "exprEval"); ("exports", Rollup.CStr "named")]
    /\ output_props h2 e
       = [("file", Rollup.CStr "dist/index.mjs"); ("format", Rollup.CStr "esm");
          ("name", Rollup.CStr "exprEval"); ("exports", Rollup.CStr "named")].
Proof.
  destruct (proj1 (derived_configs_do_not_interfere base_location _ terser_plugin
                     base_heap eq_refl base_output_allocated))
    as (h1 & m & h2 & e & Hmin & Hesm & Hp & Hm & He).
  exists h1, m, h2, e. split; [exact Hmin |]. split; [exact Hesm |].
  split; [| split; [rewrite Hm; reflexivity | rewrite He; reflexivity]].
  unfold output_props, Rollup.read.
  rewrite (Hp base_location _ eq_refl). cbn [mbind option_bind Rollup.props assoc_lookup].
  cbn. rewrite (Hp 0 _ eq_refl). reflexivity.
Defined.
